(** * perf_research: cache-topology and prefetch micro-benchmarks

    A shallow embedding of the C sources of the benchmark harness and of the
    workloads it drives, followed by the properties of the specification that
    can be settled on that embedding and by further properties of the
    workloads and of the harness.

    Conventions of the embedding.
    - [uint64_t] and [size_t] values are integers in [Z], every arithmetic
      result wrapped by [wrap64] (the target is LP64: both are 64 bits wide).
    - A heap region ([array], [indices], [large_array], a matrix) is a [list]
      whose length is the number of elements allocated.  A read or write
      outside the region is undefined behaviour in C and is a fault ([None])
      in the embedding.
    - Code that reads and writes globals is written in the state-and-fault
      monad [M]; loops are the combinator [for_up].
    - [malloc] and [aligned_alloc] return memory of arbitrary contents: an
      arena obtained from them is a universally quantified list. *)

From Stdlib Require Import ZArith Lia.
From stdpp Require Import base list strings.

(** ** Machine arithmetic *)

Definition wrap64 (x : Z) : Z := (x mod 2 ^ 64)%Z.
Definition add64 (a b : Z) : Z := wrap64 (a + b).
Definition sizeof_uint64 : Z := 8.

(** ** The state-and-fault monad *)

Definition M (Σ A : Type) : Type := Σ → option (A * Σ).

Definition m_ret {Σ A : Type} (a : A) : M Σ A := λ σ, Some (a, σ).

Definition m_bind {Σ A B : Type} (c : M Σ A) (k : A → M Σ B) : M Σ B :=
  λ σ, match c σ with
       | Some (a, σ') => k a σ'
       | None => None
       end.

#[export] Instance M_ret (Σ : Type) : MRet (M Σ) := @m_ret Σ.
#[export] Instance M_bind (Σ : Type) : MBind (M Σ) := λ A B k c, m_bind c k.

(** [for (i = start; i < start + count; i++) a = body(i, a);] where [a] holds
    the local variables the loop body updates. *)
Fixpoint for_up {Σ A : Type} (count start : nat) (body : nat → A → M Σ A) (a : A)
  : M Σ A :=
  match count with
  | O => mret a
  | S c => a' ← body start a; for_up c (S start) body a'
  end.

(** [for (i = from; i < bound; i += stride) a = body(i, a);] with room for
    [fuel] iterations; [bound] iterations are enough when [stride > 0]. *)
Fixpoint for_step {Σ A : Type} (fuel from bound stride : nat)
    (body : nat → A → M Σ A) (a : A) : M Σ A :=
  match fuel with
  | O => mret a
  | S fuel' =>
      if decide (from < bound)
      then a' ← body from a; for_step fuel' (from + stride) bound stride body a'
      else mret a
  end.

(** ** prefetch_utils.h *)

Module prefetch_utils.

Definition CACHE_LINE_SIZE : Z := 64.

(** [__builtin_prefetch(addr, rw, locality)]: a hint to the memory system.  It
    takes an address, reads and writes no program-visible memory and raises no
    fault whatever the address.  [addr] is the element index the address
    expression denotes inside its region. *)
Definition builtin_prefetch {Σ : Type} (addr : Z) (rw locality : Z) : M Σ unit :=
  mret ().

Definition PREFETCH_T0 {Σ : Type} (addr : Z) : M Σ unit := builtin_prefetch addr 0 3.
Definition PREFETCH_T1 {Σ : Type} (addr : Z) : M Σ unit := builtin_prefetch addr 0 2.

(** [CLFLUSH(&array[i])] on an array of [len] elements: the instruction
    needs an address inside the array, and evicts the line that holds it.
    The state is the list of subscripts flushed so far, oldest first; no
    program memory changes. *)
Definition CLFLUSH (len i : nat) : M (list nat) unit :=
  λ flushed, if decide (i < len) then Some ((), flushed ++ [i]) else None.

(** [BARRIER()]: [mfence]. *)
Definition BARRIER {Σ : Type} : M Σ unit := mret ().

(** The cache line, counted from the start of a cache-line aligned array of
    [uint64_t], that holds element [i]. *)
Definition line_of_element (i : nat) : nat := (i * 8) `div` 64.

End prefetch_utils.

(** ** Programs with one global [array] of [uint64_t]:
       sequential_prefetch.c and prefetch_hints.c *)

Module scan.

(** [array[i]] as an rvalue. *)
Definition load (i : nat) : M (list Z) Z :=
  λ array, match array !! i with
           | Some v => Some (v, array)
           | None => None
           end.

(** [array[i] = v;] *)
Definition store (i : nat) (v : Z) : M (list Z) unit :=
  λ array, if decide (i < length array) then Some ((), <[i:=v]> array) else None.

End scan.

Module sequential_prefetch.
Import prefetch_utils scan.

Section Workloads.
Variable ARRAY_SIZE : Z.
Variable ITERATIONS : nat.
Variable PREFETCH_DISTANCE : nat.

Definition elements : nat := Z.to_nat (ARRAY_SIZE / sizeof_uint64).

Definition sequential_no_prefetch : M (list Z) Z :=
  for_up ITERATIONS 0 (λ _ sum,
    for_up elements 0 (λ i sum,
      v ← load i;
      mret (add64 sum v)) sum) 0%Z.

Definition sequential_with_prefetch : M (list Z) Z :=
  for_up ITERATIONS 0 (λ _ sum,
    for_up elements 0 (λ i sum,
      _ ← PREFETCH_T0 (Z.of_nat (i + PREFETCH_DISTANCE));
      v ← load i;
      mret (add64 sum v)) sum) 0%Z.


(** The initialisation loop of [main]: [array[i] = i]. *)
Definition init_array : M (list Z) unit :=
  for_up elements 0 (λ i _, store i (wrap64 (Z.of_nat i))) ().

(** The cold-start loop of [run_test], on an array of [len] elements:
    [for (i = 0; i < ARRAY_SIZE / sizeof(uint64_t); i += 64) CLFLUSH(&array[i]);
     BARRIER();] *)
Definition cold_start (len : nat) : M (list nat) unit :=
  _ ← for_step elements 0 elements 64 (λ i _, CLFLUSH len i) ();
  BARRIER.

End Workloads.

Definition ARRAY_SIZE : Z := 128 * 1024 * 1024.
Definition ITERATIONS : nat := 5.
Definition PREFETCH_DISTANCE : nat := 16.

End sequential_prefetch.

Module prefetch_hints.
Import prefetch_utils scan.

Section Workloads.
Variable ARRAY_SIZE : Z.
Variable ITERATIONS : nat.
Variable PREFETCH_DISTANCE : nat.

Definition elements : nat := Z.to_nat (ARRAY_SIZE / sizeof_uint64).

Definition no_prefetch : M (list Z) Z :=
  for_up ITERATIONS 0 (λ _ sum,
    for_up elements 0 (λ i sum,
      v ← load i;
      mret (add64 sum v)) sum) 0%Z.


(** The initialisation loop of [main]: [array[i] = i]. *)
Definition init_array : M (list Z) unit :=
  for_up elements 0 (λ i _, store i (wrap64 (Z.of_nat i))) ().




(** [flush_cache], on an array of [len] elements:
    [for (i = 0; i < ARRAY_SIZE / sizeof(uint64_t); i += 8) CLFLUSH(&array[i]);
     BARRIER();] *)
Definition flush_cache (len : nat) : M (list nat) unit :=
  _ ← for_step elements 0 elements 8 (λ i _, CLFLUSH len i) ();
  BARRIER.

End Workloads.

Definition ARRAY_SIZE : Z := 128 * 1024 * 1024.
Definition ITERATIONS : nat := 3.
Definition PREFETCH_DISTANCE : nat := 16.

End prefetch_hints.

(** ** random_prefetch.c *)

Module random_prefetch.
Import prefetch_utils.

(** The two heap regions of the program: [array] ([uint64_t]) and the
    pre-generated [indices] ([size_t]). *)
Record mem : Type := Mem { array : list Z; indices : list Z }.

(** [indices[i]] as an rvalue. *)
Definition load_index (i : nat) : M mem Z :=
  λ m, match indices m !! i with
       | Some v => Some (v, m)
       | None => None
       end.

(** [indices[i] = v;] *)
Definition store_index (i : nat) (v : Z) : M mem unit :=
  λ m, if decide (i < length (indices m))
       then Some ((), Mem (array m) (<[i:=v]> (indices m)))
       else None.

(** [array[idx]] as an rvalue, [idx] a [size_t]. *)
Definition load_array (idx : Z) : M mem Z :=
  λ m, match array m !! Z.to_nat idx with
       | Some v => Some (v, m)
       | None => None
       end.

(** [array[i] = v;] *)
Definition store_array (i : nat) (v : Z) : M mem unit :=
  λ m, if decide (i < length (array m))
       then Some ((), Mem (<[i:=v]> (array m)) (indices m))
       else None.

Section Workloads.
Variable ARRAY_SIZE : Z.
Variable ACCESS_COUNT : nat.
Variable PREFETCH_AHEAD : nat.

Definition elements : Z := ARRAY_SIZE / sizeof_uint64.

Definition generate_random_indices : M mem unit :=
  _ ← for_up (ACCESS_COUNT + PREFETCH_AHEAD) 0 (λ i seed,
        let seed := wrap64 (seed * 1103515245 + 12345) in
        _ ← store_index i ((seed ≫ 16) `mod` elements)%Z;
        mret seed) 12345%Z;
  mret ().

Definition random_no_prefetch : M mem Z :=
  for_up ACCESS_COUNT 0 (λ i sum,
    idx ← load_index i;
    v ← load_array idx;
    mret (add64 sum v)) 0%Z.

Definition random_with_prefetch : M mem Z :=
  for_up ACCESS_COUNT 0 (λ i sum,
    ahead ← load_index (i + PREFETCH_AHEAD);
    _ ← PREFETCH_T0 ahead;
    idx ← load_index i;
    v ← load_array idx;
    mret (add64 sum v)) 0%Z.

Definition random_with_multi_prefetch : M mem Z :=
  for_up ACCESS_COUNT 0 (λ i sum,
    near ← load_index (i + 4);
    _ ← PREFETCH_T0 near;
    far ← load_index (i + 16);
    _ ← PREFETCH_T1 far;
    idx ← load_index i;
    v ← load_array idx;
    mret (add64 sum v)) 0%Z.

(** The arenas as [main] allocates them:
    [aligned_alloc(CACHE_LINE_SIZE, ARRAY_SIZE)] and
    [malloc((ACCESS_COUNT + PREFETCH_AHEAD + 1) * sizeof(size_t))]. *)
Definition allocated (m : mem) : Prop :=
  length (array m) = Z.to_nat elements ∧
  length (indices m) = ACCESS_COUNT + PREFETCH_AHEAD + 1.

(** The initialisation of [main]: [array[i] = i], then the index buffer. *)
Definition init : M mem unit :=
  _ ← for_up (Z.to_nat elements) 0 (λ i _, store_array i (wrap64 (Z.of_nat i))) ();
  generate_random_indices.

End Workloads.

Definition ARRAY_SIZE : Z := 64 * 1024 * 1024.
Definition ACCESS_COUNT : nat := Z.to_nat 10000000.
Definition PREFETCH_AHEAD : nat := 8.

End random_prefetch.

(** ** Scans that write back: combined_test.c, shared_cache.c and
       dcache_contention.c

    Each of these workloads works on one array of [uint64_t], passed as a
    parameter or global; the array is the state. *)

Module combined_test_workload.
Import prefetch_utils scan.

Section Workloads.
Variable PREFETCH_DISTANCE : nat.

Definition process_no_prefetch (elements : nat) : M (list Z) Z :=
  for_up elements 0 (λ i sum,
    v ← load i;
    let sum := add64 sum v in
    _ ← store i (Z.land sum 255);
    mret sum) 0%Z.


End Workloads.

Definition PREFETCH_DISTANCE : nat := 16.

End combined_test_workload.

Module shared_cache_workload.
Import scan.

Section Workloads.
Variable ITERATIONS : nat.

(** [start] and [end] are [int]s; the callers pass 0, [ELEMENTS / 2] and
    [ELEMENTS].  With [end <= start] the element loop does not run. *)
Definition sequential_access (start end_ : nat) : M (list Z) Z :=
  for_up ITERATIONS 0 (λ _ sum,
    for_up (end_ - start) start (λ i sum,
      v ← load i;
      let sum := add64 sum v in
      _ ← store i (Z.land sum 255);
      mret sum) sum) 0%Z.

End Workloads.

Definition ARRAY_SIZE : Z := 16 * 1024.
Definition ELEMENTS : nat := Z.to_nat (ARRAY_SIZE / sizeof_uint64).
Definition ITERATIONS : nat := Z.to_nat 100000.

End shared_cache_workload.

Module dcache_contention_workload.
Import scan.

Section Workloads.
Variable ITERATIONS : nat.
Variable STRIDE : nat.

Definition random_access_pattern (size : Z) : M (list Z) Z :=
  let elements := Z.to_nat (size / sizeof_uint64) in
  for_up ITERATIONS 0 (λ _ sum,
    for_step elements 0 elements STRIDE (λ i sum,
      v ← load i;
      let sum := add64 sum v in
      _ ← store i sum;
      mret sum) sum) 0%Z.

End Workloads.

Definition ARRAY_SIZE : Z := 8 * 1024 * 1024.
Definition ITERATIONS : nat := 10.
Definition STRIDE : nat := 64.

End dcache_contention_workload.

(** ** prefetch_distance.c: the workload

    The program has the globals of random_prefetch.c, [array] and [indices],
    and allocates [ACCESS_COUNT + 256] index entries. *)

Module prefetch_distance_mem.
Import prefetch_utils random_prefetch.

Section Workloads.
Variable ARRAY_SIZE : Z.
Variable ACCESS_COUNT : nat.

Definition elements : Z := ARRAY_SIZE / sizeof_uint64.

Definition generate_indices : M mem unit :=
  _ ← for_up (ACCESS_COUNT + 256) 0 (λ i seed,
        let seed := wrap64 (seed * 1103515245 + 12345) in
        _ ← store_index i ((seed ≫ 16) `mod` elements)%Z;
        mret seed) 54321%Z;
  mret ().

(** [distance] is an [int]; [i + distance] is formed in [size_t]. *)
Definition random_access_with_distance (distance : Z) : M mem Z :=
  for_up ACCESS_COUNT 0 (λ i sum,
    _ ← (if decide (0 < distance)%Z
         then ahead ← load_index (i + Z.to_nat distance); PREFETCH_T0 ahead
         else mret ());
    idx ← load_index i;
    v ← load_array idx;
    mret (add64 sum v)) 0%Z.

(** The arenas as [main] allocates them. *)
Definition allocated (m : mem) : Prop :=
  length (array m) = Z.to_nat elements ∧
  length (indices m) = ACCESS_COUNT + 256.

(** The initialisation of [main]: [array[i] = i], then the index buffer. *)
Definition init : M mem unit :=
  _ ← for_up (Z.to_nat elements) 0 (λ i _, store_array i (wrap64 (Z.of_nat i))) ();
  generate_indices.

End Workloads.

Definition ARRAY_SIZE : Z := 64 * 1024 * 1024.
Definition ACCESS_COUNT : nat := Z.to_nat 5000000.

(** The distances [main] tests. *)
Definition distances : list Z := [0; 1; 2; 4; 8; 16; 32; 64; 128; 256]%Z.

End prefetch_distance_mem.

(** ** latency_hiding.c: the memory-bound workload *)

Module latency_hiding.

(** [large_array] together with a log of the indices the workload has
    touched, oldest first.  The log is not program state: it records the
    address sequence the determinism property speaks about. *)
Record mem : Type := Mem { large_array : list Z; accessed : list Z }.

(** [large_array[idx]] as an rvalue. *)
Definition load (idx : Z) : M mem Z :=
  λ m, match large_array m !! Z.to_nat idx with
       | Some v => Some (v, Mem (large_array m) (accessed m ++ [idx]))
       | None => None
       end.

(** [large_array[idx] = v;] *)
Definition store (idx : Z) (v : Z) : M mem unit :=
  λ m, if decide (Z.to_nat idx < length (large_array m))
       then Some ((), Mem (<[Z.to_nat idx:=v]> (large_array m)) (accessed m))
       else None.

Section Workloads.
Variable LARGE_ARRAY_SIZE : Z.
Variable MEMORY_ACCESSES : nat.

Definition elements : Z := LARGE_ARRAY_SIZE / sizeof_uint64.

Definition memory_intensive : M mem Z :=
  r ← for_up MEMORY_ACCESSES 0 (λ _ '(seed, sum),
        let seed := wrap64 (seed * 1103515245 + 12345) in
        let idx := ((seed ≫ 16) `mod` elements)%Z in
        v ← load idx;
        let sum := add64 sum v in
        _ ← store idx sum;
        mret (seed, sum)) (12345%Z, 0%Z);
  mret (r.2).

End Workloads.

Definition LARGE_ARRAY_SIZE : Z := 64 * 1024 * 1024.
Definition MEMORY_ACCESSES : nat := Z.to_nat 5000000.

End latency_hiding.

(** ** matrix_prefetch.c

    The matrices are row-major arrays of [N * N] [double]s.  The embedding
    is parametric in the number type and its operations: [F] stands for
    [double], [fadd] and [fmul] for its rounded sum and product, [fzero] for
    [+0.0], and no law is assumed of them.  Loop counters and subscripts are
    natural numbers; all of them stay below [N * N + BLOCK_SIZE], far inside
    the range of [int] for the program's [N = 1024]. *)

Module matrix_prefetch.

(** [for (i = lo; i < hi; i++) s = body(i, s);] *)
Definition for_each {Σ : Type} (lo hi : nat) (body : nat → Σ → Σ) (s : Σ) : Σ :=
  foldl (λ s i, body i s) s (seq lo (hi - lo)).

(** [for (i = from; i < bound; i += stride) s = body(i, s);] with room for
    [fuel] iterations; [bound] iterations are enough when [stride > 0]. *)
Fixpoint for_stride {Σ : Type} (fuel from bound stride : nat) (body : nat → Σ → Σ) (s : Σ)
  : Σ :=
  match fuel with
  | O => s
  | S fuel' =>
      if decide (from < bound)
      then for_stride fuel' (from + stride) bound stride body (body from s)
      else s
  end.

(** The matrix an address lies in. *)
Inductive operand : Type := OperandA | OperandB.

(** [PREFETCH_T0(&M[idx])]: the matrices stay as they are; the subscript is
    added to the log of prefetched addresses, oldest first.  The log is not
    program state: it records which addresses the hints name. *)
Definition prefetch (M : operand) (idx : nat) (log : list (operand * nat))
  : list (operand * nat) :=
  log ++ [(M, idx)].

Section Matmul.
Context {F : Type}.
Variable fadd fmul : F → F → F.
Variable fzero : F.
Variable N : nat.
Variable BLOCK_SIZE : nat.

(** [M[idx]] as an rvalue.  Every subscript the two multiplications use is
    [i * N + j] with [i, j < N], inside the [N * N] elements [alloc_matrix]
    returns. *)
Definition get (M : list F) (idx : nat) : F := default fzero (M !! idx).

(** [memset(M, 0, N * N * sizeof(double))]: every element is [+0.0]. *)
Definition zero_matrix (M : list F) : list F := replicate (N * N) fzero.

Definition matmul_naive (A B C : list F) : list F :=
  for_each 0 N (λ i C,
    for_each 0 N (λ j C,
      let sum :=
        for_each 0 N (λ k sum,
          fadd sum (fmul (get A (i * N + k)) (get B (k * N + j)))) fzero in
      <[i * N + j := sum]> C) C) C.

Definition matmul_blocked (A B C : list F) : list F :=
  for_stride N 0 N BLOCK_SIZE (λ ii C,
    for_stride N 0 N BLOCK_SIZE (λ jj C,
      for_stride N 0 N BLOCK_SIZE (λ kk C,
        for_each ii ((ii + BLOCK_SIZE) `min` N) (λ i C,
          for_each jj ((jj + BLOCK_SIZE) `min` N) (λ j C,
            let sum :=
              for_each kk ((kk + BLOCK_SIZE) `min` N) (λ k sum,
                fadd sum (fmul (get A (i * N + k)) (get B (k * N + j))))
                (get C (i * N + j)) in
            <[i * N + j := sum]> C) C) C) C) C) C.

(** The two kernels with prefetch hints work on [C] and the log. *)
Definition matmul_prefetch (A B : list F) (s : list F * list (operand * nat))
  : list F * list (operand * nat) :=
  for_each 0 N (λ i s,
    for_each 0 N (λ j s,
      let '(C, log) := s in
      let log :=
        if decide (j = 0 ∧ i + 1 < N)
        then for_stride N 0 N 8 (λ p log,
               prefetch OperandA ((i + 1) * N + p) log) log
        else log in
      let '(sum, log) :=
        for_each 0 N (λ k s,
          let '(sum, log) := s in
          let log :=
            if decide (k + 8 < N)
            then prefetch OperandB ((k + 8) * N + j) log
            else log in
          (fadd sum (fmul (get A (i * N + k)) (get B (k * N + j))), log))
          (fzero, log) in
      (<[i * N + j := sum]> C, log)) s) s.

Definition matmul_blocked_prefetch (A B : list F) (s : list F * list (operand * nat))
  : list F * list (operand * nat) :=
  for_stride N 0 N BLOCK_SIZE (λ ii s,
    for_stride N 0 N BLOCK_SIZE (λ jj s,
      let '(C, log) := s in
      let log :=
        if decide (jj + BLOCK_SIZE < N)
        then for_each 0 (BLOCK_SIZE `min` N) (λ p log,
               prefetch OperandB (p * N + jj + BLOCK_SIZE) log) log
        else log in
      for_stride N 0 N BLOCK_SIZE (λ kk s,
        let '(C, log) := s in
        let log :=
          if decide (kk + BLOCK_SIZE < N)
          then for_each ii ((ii + BLOCK_SIZE) `min` N) (λ p log,
                 prefetch OperandA (p * N + kk + BLOCK_SIZE) log) log
          else log in
        (for_each ii ((ii + BLOCK_SIZE) `min` N) (λ i C,
           for_each jj ((jj + BLOCK_SIZE) `min` N) (λ j C,
             let sum :=
               for_each kk ((kk + BLOCK_SIZE) `min` N) (λ k sum,
                 fadd sum (fmul (get A (i * N + k)) (get B (k * N + j))))
                 (get C (i * N + j)) in
             <[i * N + j := sum]> C) C) C,
         log)) (C, log)) s) s.

(** Every logged address lies inside its matrix of [N * N] elements. *)
Definition in_matrix (log : list (operand * nat)) : Prop :=
  Forall (λ e, e.2 < N * N) log.

(** [run_test]: the output matrix is zeroed before the multiplication. *)
Definition run_test (test_func : list F → list F → list F → list F)
    (A B C : list F) : list F :=
  test_func A B (zero_matrix C).

(** The multiply-accumulate chain of one output element over the columns
    [lo .. hi-1] of row [i] of [A], continuing from [acc]. *)
Definition dot (A B : list F) (i j lo hi : nat) (acc : F) : F :=
  for_each lo hi (λ k sum,
    fadd sum (fmul (get A (i * N + k)) (get B (k * N + j)))) acc.

(** [C[i][j]] *)
Definition cell (C : list F) (i j : nat) : F := get C (i * N + j).

(** The elements [C[i][j]] with [ilo <= i < ihi] and [jlo <= j < jhi]. *)
Definition rect (ilo ihi jlo jhi : nat) (i j : nat) : Prop :=
  ilo ≤ i < ihi ∧ jlo ≤ j < jhi.

(** [T] maps matrices to matrices, replaces every element [x] of the region
    [R] by [g i j x], and leaves the others as they are. *)
Definition acts (T : list F → list F) (R : nat → nat → Prop)
    (g : nat → nat → F → F) : Prop :=
  ∀ C, length C = N * N →
       length (T C) = N * N ∧
       ∀ i j, i < N → j < N →
              (R i j → cell (T C) i j = g i j (cell C i j)) ∧
              (¬ R i j → cell (T C) i j = cell C i j).

End Matmul.

Definition N : nat := 1024.
Definition BLOCK_SIZE : nat := 64.

End matrix_prefetch.

(** ** cpu_bindind.h *)

Module cpu_binding.

(** [bind_to_cpu(cpu_id)]: [ret] is what [sched_setaffinity] returned for the
    one-CPU mask of [cpu_id]; the kernel refuses a mask that names no CPU of
    the machine. *)
Definition bind_to_cpu (ret : Z) : Z :=
  if decide (ret ≠ 0%Z) then (-1)%Z else 0%Z.

(** The two hardware threads of each of the eight cores. *)
Definition HT_PAIRS : list (Z * Z) :=
  [(0, 8); (1, 9); (2, 10); (3, 11); (4, 12); (5, 13); (6, 14); (7, 15)]%Z.

Definition DIFFERENT_CORES : list Z := [0; 1; 2; 3; 4; 5; 6; 7]%Z.

(** [bind_to_same_core_ht(core_id, &cpu1, &cpu2)]: the values of [*cpu1] and
    [*cpu2] after the call, from those before it, and whether the diagnostic
    was printed.  [None] is a read outside [HT_PAIRS]. *)
Definition bind_to_same_core_ht (core_id : Z) (cpu1 cpu2 : Z) : option (Z * Z * bool) :=
  if decide (core_id < 0 ∨ core_id > 7)%Z
  then Some (cpu1, cpu2, true)
  else match HT_PAIRS !! Z.to_nat core_id with
       | Some (first, second) => Some (first, second, false)
       | None => None
       end.

(** [bind_to_different_cores(&cpu1, &cpu2)] *)
Definition bind_to_different_cores (cpu1 cpu2 : Z) : option (Z * Z) :=
  match DIFFERENT_CORES !! 0, DIFFERENT_CORES !! 1 with
  | Some first, Some second => Some (first, second)
  | _, _ => None
  end.

End cpu_binding.

(** ** The counters of false_sharing.c and their placement *)

Module false_sharing.
Import prefetch_utils.

Definition NUM_THREADS : Z := 4.

(** Size and alignment of a C object type, in bytes. *)
Record layout : Type := Layout { size : Z; alignment : Z }.

Definition uint64_t : layout := Layout 8 8.
Definition char_array (n : Z) : layout := Layout n 1.

(** The first multiple of [a] at or after [offset]. *)
Definition align_up (offset a : Z) : Z := ((offset + a - 1) / a * a)%Z.

(** Offset of the second member of [struct { t1 m1; t2 m2; }]. *)
Definition second_offset (t1 t2 : layout) : Z := align_up (size t1) (alignment t2).

(** [struct { t1 m1; t2 m2; }]: members in order, each at the next offset
    its alignment allows, the whole rounded up to the larger alignment. *)
Definition struct2 (t1 t2 : layout) : layout :=
  Layout (align_up (second_offset t1 t2 + size t2)
            (Z.max (alignment t1) (alignment t2)))
         (Z.max (alignment t1) (alignment t2)).

(** [struct { volatile uint64_t counter;
             char padding[CACHE_LINE_SIZE - sizeof(uint64_t)]; }],
    the element type of [good.per_thread]; [CACHE_PADDED(uint64_t, name)]
    declares the same structure. *)
Definition per_thread : layout :=
  struct2 uint64_t (char_array (CACHE_LINE_SIZE - size uint64_t)).

(** [&good.per_thread[i].counter], [base] the address of [good]. *)
Definition good_counter_address (base i : Z) : Z :=
  (base + i * size per_thread + 0)%Z.

(** [&bad.counter[i]], [base] the address of [bad]. *)
Definition bad_counter_address (base i : Z) : Z :=
  (base + i * size uint64_t)%Z.

(** [good] and [bad] are declared [CACHE_ALIGNED]. *)
Definition cache_aligned (base : Z) : Prop := (base `mod` CACHE_LINE_SIZE = 0)%Z.

(** The cache line a byte address falls in. *)
Definition cache_line (addr : Z) : Z := (addr / CACHE_LINE_SIZE)%Z.

End false_sharing.

(** ** The timed loops of false_sharing.c

    [for (long i = 0; i < ITERATIONS; i++) counter++;] in each worker, on
    its own [volatile] counter of [good] or of [bad]: every increment is a
    load and a store.  The threads take turns in some order (the schedule),
    one access at a time. *)

Module false_sharing_counters.

(** Where a worker stands in an increment. *)
Inductive tpc : Type :=
  | TLoad               (* before the load of the counter *)
  | TStore (reg : Z).   (* the counter is in a register, before the store *)

(** A worker: its loop counter [i] and where it stands. *)
Record thread : Type := Thread { i : nat; pc : tpc }.

(** [bad.counter], the [counter] members of [good.per_thread], and the
    workers by [thread_id]. *)
Record state : Type := State {
  bad : list Z;
  good : list Z;
  threads : list thread
}.

Section Run.
Variable ITERATIONS : nat.
(** [targ->use_good], the same for every worker of a run. *)
Variable use_good : bool.

Definition counters (s : state) : list Z := if use_good then good s else bad s.

Definition untouched (s : state) : list Z := if use_good then bad s else good s.

Definition set_counter (s : state) (id : nat) (v : Z) (ts : list thread) : state :=
  if use_good
  then State (bad s) (<[id:=v]> (good s)) ts
  else State (<[id:=v]> (bad s)) (good s) ts.

(** One access of worker [id]; [None] when it cannot move: there is no such
    worker, or its loop is over. *)
Definition step (s : state) (id : nat) : option state :=
  match threads s !! id with
  | Some t =>
      if decide (i t < ITERATIONS)
      then match pc t with
           | TLoad =>
               match counters s !! id with
               | Some v =>
                   Some (State (bad s) (good s)
                           (<[id:=Thread (i t) (TStore v)]> (threads s)))
               | None => None
               end
           | TStore reg =>
               if decide (id < length (counters s))
               then Some (set_counter s id (add64 reg 1)
                            (<[id:=Thread (S (i t)) TLoad]> (threads s)))
               else None
           end
      else None
  | None => None
  end.

Fixpoint run (schedule : list nat) (s : state) : option state :=
  match schedule with
  | [] => Some s
  | id :: rest =>
      match step s id with
      | Some s' => run rest s'
      | None => None
      end
  end.

End Run.

(** [run_test]: both structures are zeroed, then [NUM_THREADS] workers are
    started with the ids [0 .. NUM_THREADS-1]. *)
Definition init (NUM_THREADS : nat) : state :=
  State (replicate NUM_THREADS 0%Z) (replicate NUM_THREADS 0%Z)
    (replicate NUM_THREADS (Thread 0 TLoad)).

(** What holds in every reachable state: nothing has been written to the
    structure the run does not use, and each counter of the other one holds
    the number of increments its own worker has completed. *)
Definition inv (NUM_THREADS ITERATIONS : nat) (use_good : bool) (s : state) : Prop :=
  length (counters use_good s) = NUM_THREADS ∧
  length (threads s) = NUM_THREADS ∧
  untouched use_good s = replicate NUM_THREADS 0%Z ∧
  ∀ id t, threads s !! id = Some t →
    i t ≤ ITERATIONS ∧
    counters use_good s !! id = Some (wrap64 (Z.of_nat (i t))) ∧
    match pc t with
    | TLoad => True
    | TStore reg => reg = wrap64 (Z.of_nat (i t))
    end.

Definition NUM_THREADS : nat := 4.
Definition ITERATIONS : nat := Z.to_nat 100000000.

End false_sharing_counters.

(** ** The ready/start rendezvous of the multi-thread drivers

    [run_test] of false_sharing.c and [run_dual_thread] / [run_dual] of the
    other programs against their [worker_thread], as a transition system
    over the two shared words.  One transition is one access of a thread to
    [ready] or [start], or one thread-local stretch between two accesses;
    the accesses are taken to happen one at a time, in some order (the
    schedule). *)

Module barrier.

(** Where a worker stands in [worker_thread]. *)
Inductive wpc : Type :=
  | WBind     (* before bind_to_cpu(targ->cpu_id) *)
  | WReady    (* before __atomic_fetch_add(targ->ready, 1, ...) *)
  | WSpin     (* in while ( *targ->start == 0) pause *)
  | WTimed    (* start = get_time_sec() taken, the workload running *)
  | WExit     (* targ->elapsed_time written, returned *)
  | WAbort.   (* returned before the rendezvous (dcache_contention.c) *)

(** A worker, with what it has done so far: the value [bind_to_cpu]
    returned, how often it has incremented [ready], and whether it has
    written its [elapsed_time]. *)
Record worker : Type := Worker_ {
  pc : wpc;
  bound : option Z;
  increments : nat;
  timed : bool
}.

(** Where the driver stands. *)
Inductive dpc : Type :=
  | DCreate (k : nat)   (* k threads created so far *)
  | DPoll               (* in while (ready < N) usleep(100) *)
  | DRelease            (* before wall_start = get_time_sec(); start = 1 *)
  | DJoin (k : nat)     (* k threads joined so far *)
  | DDone.

(** The shared words [ready] and [start], the number of times [start = 1]
    has been executed, and the threads. *)
Record state : Type := State {
  ready : Z;
  start : Z;
  releases : nat;
  driver : dpc;
  workers : list worker
}.

(** Who moves next.  A worker's move carries what [sched_setaffinity] would
    return to it. *)
Inductive action : Type :=
  | Driver
  | Worker (i : nat) (ret : Z).

(** [int] arithmetic. *)
Definition wrap_int (x : Z) : Z := ((x + 2 ^ 31) `mod` 2 ^ 32 - 2 ^ 31)%Z.

Definition init : state := State 0 0 0 (DCreate 0) [].

Definition terminated (w : worker) : bool :=
  match pc w with
  | WExit | WAbort => true
  | _ => false
  end.

Section Protocol.
(** The number of workers, and whether [worker_thread] tests the result of
    [bind_to_cpu] (dcache_contention.c does, the other programs do not). *)
Variable N : nat.
Variable checks_binding : bool.

Definition worker_step (ret : Z) (w : worker) (s : state) : option (worker * Z) :=
  match pc w with
  | WBind =>
      let r := cpu_binding.bind_to_cpu ret in
      if checks_binding && bool_decide (r ≠ 0%Z)
      then Some (Worker_ WAbort (Some r) (increments w) (timed w), ready s)
      else Some (Worker_ WReady (Some r) (increments w) (timed w), ready s)
  | WReady =>
      Some (Worker_ WSpin (bound w) (S (increments w)) (timed w),
            wrap_int (ready s + 1))
  | WSpin =>
      if decide (start s = 0%Z)
      then Some (w, ready s)
      else Some (Worker_ WTimed (bound w) (increments w) (timed w), ready s)
  | WTimed =>
      Some (Worker_ WExit (bound w) (increments w) true, ready s)
  | WExit | WAbort => None
  end.

Definition driver_step (s : state) : option state :=
  match driver s with
  | DCreate k =>
      if decide (k < N)
      then Some (State (ready s) (start s) (releases s) (DCreate (S k))
                   (workers s ++ [Worker_ WBind None 0 false]))
      else Some (State (ready s) (start s) (releases s) DPoll (workers s))
  | DPoll =>
      if decide (ready s < Z.of_nat N)%Z
      then Some s
      else Some (State (ready s) (start s) (releases s) DRelease (workers s))
  | DRelease =>
      Some (State (ready s) 1 (S (releases s)) (DJoin 0) (workers s))
  | DJoin k =>
      if decide (k < N)
      then match workers s !! k with
           | Some w =>
               if terminated w
               then Some (State (ready s) (start s) (releases s) (DJoin (S k))
                            (workers s))
               else None
           | None => None
           end
      else Some (State (ready s) (start s) (releases s) DDone (workers s))
  | DDone => None
  end.

(** One move; [None] when the thread named cannot move (it does not exist
    yet, has returned, or is blocked in [pthread_join]). *)
Definition step (s : state) (a : action) : option state :=
  match a with
  | Driver => driver_step s
  | Worker i ret =>
      match workers s !! i with
      | Some w =>
          match worker_step ret w s with
          | Some (w', ready') =>
              Some (State ready' (start s) (releases s) (driver s)
                      (<[i:=w']> (workers s)))
          | None => None
          end
      | None => None
      end
  end.

(** A schedule, move by move. *)
Fixpoint run (schedule : list action) (s : state) : option state :=
  match schedule with
  | [] => Some s
  | a :: rest =>
      match step s a with
      | Some s' => run rest s'
      | None => None
      end
  end.

End Protocol.

(** A worker is past the rendezvous increment... *)
Definition announced (w : worker) : bool :=
  match pc w with
  | WSpin | WTimed | WExit => true
  | _ => false
  end.

(** ... and past the release. *)
Definition released (w : worker) : bool :=
  match pc w with
  | WTimed | WExit => true
  | _ => false
  end.

(** What holds of every worker in every reachable state. *)
Definition worker_inv (checks_binding : bool) (start : Z) (w : worker) : Prop :=
  increments w = (if announced w then 1 else 0) ∧
  (pc w ≠ WBind → ∃ r, bound w = Some r) ∧
  (released w = true → start = 1%Z) ∧
  (timed w = true ↔ pc w = WExit) ∧
  (pc w = WAbort → checks_binding = true ∧ bound w = Some (-1)%Z).

(** What holds of the driver and the shared words. *)
Definition driver_inv (N : nat) (s : state) : Prop :=
  match driver s with
  | DCreate k => length (workers s) = k ∧ k ≤ N ∧ releases s = 0
  | DPoll => length (workers s) = N ∧ releases s = 0
  | DRelease => length (workers s) = N ∧ releases s = 0 ∧ ready s = Z.of_nat N
  | DJoin k =>
      length (workers s) = N ∧ releases s = 1 ∧ ready s = Z.of_nat N ∧ k ≤ N ∧
      ∀ j w, j < k → workers s !! j = Some w → terminated w = true
  | DDone =>
      length (workers s) = N ∧ releases s = 1 ∧ ready s = Z.of_nat N ∧
      ∀ j w, workers s !! j = Some w → terminated w = true
  end.

Definition inv (N : nat) (checks_binding : bool) (s : state) : Prop :=
  ready s = Z.of_nat (sum_list_with increments (workers s)) ∧
  start s = Z.of_nat (releases s) ∧
  driver_inv N s ∧
  Forall (worker_inv checks_binding (start s)) (workers s).

(** A complete run of two workers whose bindings succeed: both are created,
    bind, announce themselves; the driver sees [ready = 2], releases, and
    joins them once they have run. *)
Definition two_worker_schedule : list action :=
  [Driver; Driver;
   Worker 0 0; Worker 1 0; Worker 0 0; Worker 1 0;
   Driver; Driver; Driver;
   Worker 0 0; Worker 0 0; Worker 1 0; Worker 1 0;
   Driver; Driver; Driver].

(** A complete run of the four workers of false_sharing.c: each worker
    binds and announces itself as soon as it is created. *)
Definition four_worker_schedule : list action :=
  [Driver; Worker 0 0; Worker 0 0;
   Driver; Worker 1 0; Worker 1 0;
   Driver; Worker 2 0; Worker 2 0;
   Driver; Worker 3 0; Worker 3 0;
   Driver; Driver; Driver;
   Worker 3 0; Worker 3 0; Worker 2 0; Worker 2 0;
   Worker 1 0; Worker 1 0; Worker 0 0; Worker 0 0;
   Driver; Driver; Driver; Driver; Driver].

(** The run of [two_worker_schedule], except that [sched_setaffinity]
    refuses the mask of worker 1 (it returns -1: the machine has no such
    CPU). *)
Definition refused_binding_schedule : list action :=
  [Driver; Driver;
   Worker 0 0; Worker 1 (-1); Worker 0 0; Worker 1 0;
   Driver; Driver; Driver;
   Worker 0 0; Worker 0 0; Worker 1 0; Worker 1 0;
   Driver; Driver; Driver].

End barrier.

(** ** Processes: [main] and what it prints *)

(** [main] is embedded as far as its command line, its allocations, its
    output and its exit status go.  What a run shows to its environment:
    [Banner] and [Analysis] are the fixed texts printed before and after the
    experiments, [Usage] the usage line ([printf], standard output),
    [Perror] a diagnostic ([perror], standard error), and [Run desc] one
    experiment: a call of [run_test], [run_dual_thread] or a single-thread
    runner, named by the title it prints. *)
Inductive event : Type :=
  | Banner
  | Perror (msg : string)
  | Usage (prog options : string)
  | Run (desc : string)
  | Analysis.

(** How a process ends: [return n] from [main], or a write through a null
    pointer. *)
Inductive outcome : Type :=
  | Exit (status : Z)
  | Fault.

(** The number of allocation calls made so far and the output so far. *)
Record world : Type := World { allocs : nat; trace : list event }.

Inductive result (A : Type) : Type :=
  | Ok (a : A) (w : world)
  | Stop (o : outcome) (w : world).
Arguments Ok {A} a w.
Arguments Stop {A} o w.

Definition Proc (A : Type) : Type := world → result A.

Definition proc_ret {A : Type} (a : A) : Proc A := λ w, Ok a w.

Definition proc_bind {A B : Type} (c : Proc A) (k : A → Proc B) : Proc B :=
  λ w, match c w with
       | Ok a w' => k a w'
       | Stop o w' => Stop o w'
       end.

#[export] Instance Proc_ret : MRet Proc := @proc_ret.
#[export] Instance Proc_bind : MBind Proc := λ A B k c, proc_bind c k.

Definition emit (e : event) : Proc unit :=
  λ w, Ok () (World (allocs w) (trace w ++ [e])).

(** [return status;] in [main]. *)
Definition exit (status : Z) : Proc unit := λ w, Stop (Exit status) w.

(** [aligned_alloc] or [malloc]: [heap k] tells whether the [k]-th allocation
    call of the run succeeds.  The result is whether the pointer is non-null. *)
Definition alloc (heap : nat → bool) : Proc bool :=
  λ w, Ok (heap (allocs w)) (World (S (allocs w)) (trace w)).

(** [memset(p, c, n)] with [n > 0]: writes through [p]. *)
Definition memset (p : bool) : Proc unit :=
  λ w, if p then Ok () w else Stop Fault w.

(** A process from its start to its end. *)
Definition run_process (main : Proc unit) : list event * outcome :=
  match main (World 0 []) with
  | Ok _ w => (trace w, Exit 0)
  | Stop o w => (trace w, o)
  end.

(** [argc > 1 ? argv[1] : "--all"] *)
Definition cli_mode (argv : list string) : string :=
  match argv with
  | _ :: mode :: _ => mode
  | _ => "--all"
  end.

Definition argv0 (argv : list string) : string :=
  match argv with
  | prog :: _ => prog
  | [] => ""
  end.

(** [strcmp(a, b) == 0] *)
Definition streq (a b : string) : bool := String.eqb a b.

Module false_sharing_cli.

Definition run_test (use_good : Z) (desc : string) : Proc unit := emit (Run desc).

Definition main (argv : list string) (heap : nat → bool) : Proc unit :=
  _ ← emit Banner;
  let mode := cli_mode argv in
  _ ← (if streq mode "--bad" then
         run_test 0 "Bad Design (False Sharing)"
       else if streq mode "--good" then
         run_test 1 "Good Design (No False Sharing)"
       else if streq mode "--all" then
         _ ← run_test 0 "Bad Design (False Sharing)";
         _ ← run_test 1 "Good Design (No False Sharing)";
         emit Analysis
       else
         _ ← emit (Usage (argv0 argv) "[--bad | --good | --all]");
         exit 1);
  exit 0.

End false_sharing_cli.

Module dcache_contention.

Definition run_single_thread : Proc unit := emit (Run "Single Thread Test").
Definition run_dual_thread (cpu1 cpu2 : Z) (desc : string) : Proc unit := emit (Run desc).

Definition main (argv : list string) (heap : nat → bool) : Proc unit :=
  array1 ← alloc heap;
  array2 ← alloc heap;
  if negb array1 || negb array2 then
    _ ← emit (Perror "Memory allocation failed");
    exit 1
  else
    _ ← memset array1;
    _ ← memset array2;
    _ ← emit Banner;
    let mode := cli_mode argv in
    _ ← (if streq mode "--same-core" then
           run_dual_thread 0 8 "Same Core HT (CPU 0,8) - Cache Contention"
         else if streq mode "--diff-core" then
           run_dual_thread 0 1 "Different Cores (CPU 0,1) - Independent Caches"
         else if streq mode "--single" then
           run_single_thread
         else if streq mode "--all" then
           _ ← run_single_thread;
           _ ← run_dual_thread 0 8 "Same Core HT (CPU 0,8) - Cache Contention";
           _ ← run_dual_thread 0 1 "Different Cores (CPU 0,1) - Independent Caches";
           emit Analysis
         else
           _ ← emit (Usage (argv0 argv) "[--same-core | --diff-core | --single | --all]");
           exit 1);
    exit 0.

End dcache_contention.

Module icache_contention.

Definition run_single_thread : Proc unit := emit (Run "Single Thread Test").
Definition run_dual_thread (cpu1 cpu2 : Z) (desc : string) : Proc unit := emit (Run desc).

Definition main (argv : list string) (heap : nat → bool) : Proc unit :=
  _ ← emit Banner;
  let mode := cli_mode argv in
  _ ← (if streq mode "--same-core" then
         run_dual_thread 0 8 "Same Core HT (CPU 0,8) - I-Cache Contention"
       else if streq mode "--diff-core" then
         run_dual_thread 0 1 "Different Cores (CPU 0,1) - Independent I-Caches"
       else if streq mode "--single" then
         run_single_thread
       else if streq mode "--all" then
         _ ← run_single_thread;
         _ ← run_dual_thread 0 8 "Same Core HT (CPU 0,8) - I-Cache Contention";
         _ ← run_dual_thread 0 1 "Different Cores (CPU 0,1) - Independent I-Caches";
         emit Analysis
       else
         _ ← emit (Usage (argv0 argv) "[--same-core | --diff-core | --single | --all]");
         exit 1);
  exit 0.

End icache_contention.

Module latency_hiding_cli.

Definition run_single_compute : Proc unit :=
  emit (Run "Single Thread - Compute Intensive").
Definition run_single_memory : Proc unit :=
  emit (Run "Single Thread - Memory Intensive").
Definition run_single_both : Proc unit :=
  emit (Run "Single Thread - Both Tasks Serial").
Definition run_dual_thread (cpu1 cpu2 : Z) (desc : string) : Proc unit := emit (Run desc).

Definition main (argv : list string) (heap : nat → bool) : Proc unit :=
  large_array ← alloc heap;
  if negb large_array then
    _ ← emit (Perror "Memory allocation failed");
    exit 1
  else
    _ ← memset large_array;
    _ ← emit Banner;
    let mode := cli_mode argv in
    _ ← (if streq mode "--same-core" then
           run_dual_thread 0 8 "Same Core HT (CPU 0,8) - Latency Hiding"
         else if streq mode "--diff-core" then
           run_dual_thread 0 1 "Different Cores (CPU 0,1)"
         else if streq mode "--single" then
           run_single_both
         else if streq mode "--all" then
           _ ← run_single_compute;
           _ ← run_single_memory;
           _ ← run_single_both;
           _ ← run_dual_thread 0 8 "Same Core HT (CPU 0,8) - Latency Hiding";
           _ ← run_dual_thread 0 1 "Different Cores (CPU 0,1) - Full Parallelism";
           emit Analysis
         else
           _ ← emit (Usage (argv0 argv) "[--same-core | --diff-core | --single | --all]");
           exit 1);
    exit 0.

End latency_hiding_cli.

Module shared_cache.

Definition run_single_thread : Proc unit := emit (Run "Single Thread Test").
Definition run_dual_thread (cpu1 cpu2 : Z) (desc : string) : Proc unit := emit (Run desc).

Definition main (argv : list string) (heap : nat → bool) : Proc unit :=
  _ ← emit Banner;
  let mode := cli_mode argv in
  _ ← (if streq mode "--same-core" then
         run_dual_thread 0 8 "Same Core HT (CPU 0,8) - Shared L1 Cache"
       else if streq mode "--diff-core" then
         run_dual_thread 0 1 "Different Cores (CPU 0,1) - Separate L1 Caches"
       else if streq mode "--single" then
         run_single_thread
       else if streq mode "--all" then
         _ ← run_single_thread;
         _ ← run_dual_thread 0 8 "Same Core HT (CPU 0,8) - Shared L1 Cache";
         _ ← run_dual_thread 0 1 "Different Cores (CPU 0,1) - Separate L1 Caches";
         emit Analysis
       else
         _ ← emit (Usage (argv0 argv) "[--same-core | --diff-core | --single | --all]");
         exit 1);
  exit 0.

End shared_cache.

Module sequential_prefetch_cli.

Definition run_test (name : string) : Proc unit := emit (Run name).

Definition main (argv : list string) (heap : nat → bool) : Proc unit :=
  array ← alloc heap;
  if negb array then
    _ ← emit (Perror "Memory allocation failed");
    exit 1
  else
    _ ← emit Banner;
    let mode := cli_mode argv in
    _ ← (if streq mode "--no-prefetch" then
           run_test "No Prefetch"
         else if streq mode "--prefetch" then
           run_test "With Prefetch (T0)"
         else if streq mode "--prefetch-nta" then
           run_test "With Prefetch (NTA)"
         else if streq mode "--all" then
           _ ← run_test "No Prefetch (baseline)";
           _ ← run_test "With Prefetch (T0 - all cache levels)";
           _ ← run_test "With Prefetch (NTA - non-temporal)";
           emit Analysis
         else
           _ ← emit (Usage (argv0 argv)
                       "[--no-prefetch | --prefetch | --prefetch-nta | --all]");
           exit 1);
    exit 0.

End sequential_prefetch_cli.

Module random_prefetch_cli.

Definition run_test (name : string) : Proc unit := emit (Run name).

Definition main (argv : list string) (heap : nat → bool) : Proc unit :=
  array ← alloc heap;
  indices ← alloc heap;
  if negb array || negb indices then
    _ ← emit (Perror "Memory allocation failed");
    exit 1
  else
    _ ← emit Banner;
    let mode := cli_mode argv in
    _ ← (if streq mode "--no-prefetch" then
           run_test "No Prefetch"
         else if streq mode "--prefetch" then
           run_test "With Prefetch"
         else if streq mode "--multi-prefetch" then
           run_test "Multi-level Prefetch"
         else if streq mode "--all" then
           _ ← run_test "No Prefetch (baseline)";
           _ ← run_test "With Prefetch (single)";
           _ ← run_test "Multi-level Prefetch (T0+T1)";
           emit Analysis
         else
           _ ← emit (Usage (argv0 argv)
                       "[--no-prefetch | --prefetch | --multi-prefetch | --all]");
           exit 1);
    exit 0.

End random_prefetch_cli.

Module matrix_prefetch_cli.

Definition run_test (name : string) : Proc unit := emit (Run name).

Definition main (argv : list string) (heap : nat → bool) : Proc unit :=
  A ← alloc heap;
  B ← alloc heap;
  C ← alloc heap;
  if negb A || negb B || negb C then
    _ ← emit (Perror "Memory allocation failed");
    exit 1
  else
    _ ← emit Banner;
    let mode := cli_mode argv in
    _ ← (if streq mode "--naive" then
           run_test "Naive (ijk order)"
         else if streq mode "--prefetch" then
           run_test "With Prefetch"
         else if streq mode "--blocked" then
           run_test "Blocked (cache-friendly)"
         else if streq mode "--blocked-prefetch" then
           run_test "Blocked + Prefetch"
         else if streq mode "--all" then
           _ ← run_test "Naive (ijk order)";
           _ ← run_test "Naive + Prefetch";
           _ ← run_test "Blocked (cache-friendly)";
           _ ← run_test "Blocked + Prefetch";
           emit Analysis
         else
           _ ← emit (Usage (argv0 argv)
                       "[--naive | --prefetch | --blocked | --blocked-prefetch | --all]");
           exit 1);
    exit 0.

End matrix_prefetch_cli.

(** The three programs whose [main] never reads [argv]. *)

Module prefetch_hints_cli.

Definition run_test (name : string) : Proc unit := emit (Run name).

Definition main (argv : list string) (heap : nat → bool) : Proc unit :=
  array ← alloc heap;
  if negb array then
    _ ← emit (Perror "Memory allocation failed");
    exit 1
  else
    _ ← emit Banner;
    _ ← run_test "No Prefetch";
    _ ← run_test "Prefetch T0 (L1)";
    _ ← run_test "Prefetch T1 (L2)";
    _ ← run_test "Prefetch T2 (L3)";
    _ ← run_test "Prefetch NTA";
    _ ← emit Analysis;
    exit 0.

End prefetch_hints_cli.

Module prefetch_distance.

Definition test_distance (distance : Z) : Proc unit := emit (Run "Distance").

Definition main (argv : list string) (heap : nat → bool) : Proc unit :=
  array ← alloc heap;
  indices ← alloc heap;
  if negb array || negb indices then
    _ ← emit (Perror "Memory allocation failed");
    exit 1
  else
    _ ← emit Banner;
    _ ← foldl (λ acc distance, _ ← acc; test_distance distance) (mret ())
          [0; 1; 2; 4; 8; 16; 32; 64; 128; 256]%Z;
    _ ← emit Analysis;
    exit 0.

End prefetch_distance.

Module combined_test.

(** [run_single]: the arena is used as [aligned_alloc] returns it. *)
Definition run_single (heap : nat → bool) (use_prefetch : Z) : Proc unit :=
  array ← alloc heap;
  _ ← memset array;
  emit (Run "single").

Definition run_dual (heap : nat → bool) (cpu1 cpu2 : Z) (use_prefetch : Z) : Proc unit :=
  array1 ← alloc heap;
  array2 ← alloc heap;
  _ ← memset array1;
  _ ← memset array2;
  emit (Run "dual").

Definition main (argv : list string) (heap : nat → bool) : Proc unit :=
  _ ← emit Banner;
  _ ← run_single heap 0;
  _ ← run_single heap 1;
  _ ← run_dual heap 0 8 0;
  _ ← run_dual heap 0 8 1;
  _ ← run_dual heap 0 1 0;
  _ ← run_dual heap 0 1 1;
  _ ← emit Analysis;
  exit 0.

End combined_test.

(** ** The command-line contract, as a table per program *)




Definition diagnostics (t : list event) : list string :=
  omap (λ e, match e with Perror msg => Some msg | _ => None end) t.











Definition heap_exhausted : nat → bool := λ _, false.

(** ** Reference values of the scan scenario *)

(** The sum of a list of integers. *)
Definition Zsum (l : list Z) : Z := foldr Z.add 0%Z l.

(** The low bytes of the running sums of the first [n] elements of [a]:
    entry [k] is [(a[0] + ... + a[k]) & 0xFF], the sum taken modulo 2^64. *)
Definition running_low_bytes (a : list Z) (n : nat) : list Z :=
  (λ k, Z.land (wrap64 (Zsum (take (S k) a))) 255) <$> seq 0 n.

(** Element [k] of an array is a byte value. *)
Definition is_byte_at (a : list Z) (k : nat) : Prop :=
  ∃ v, a !! k = Some v ∧ (0 ≤ v < 256)%Z.

(** Two arrays hold the same elements at the subscripts [lo .. hi-1], which
    both have. *)
Definition agree_on (lo hi : nat) (a b : list Z) : Prop :=
  hi ≤ length a ∧ hi ≤ length b ∧ ∀ k, lo ≤ k < hi → a !! k = b !! k.

(** The array after [array[i] = i] for every [i < n]. *)
Definition identity_array (n : nat) : list Z :=
  (λ i, wrap64 (Z.of_nat i)) <$> seq 0 n.

(** The sum of [0 .. n-1]. *)
Definition closed_form_sum (n : Z) : Z := (n * (n - 1) / 2)%Z.

(** ** The index sequence of the specification *)

(** The linear-congruential step [seed = seed * 1103515245 + 12345] on 64-bit
    words. *)
Definition lcg_step (seed : Z) : Z := wrap64 (seed * 1103515245 + 12345).

(** The first [n] indices [(seed >> 16) mod elements] drawn after [seed]. *)
Fixpoint lcg_indices (elements : Z) (n : nat) (seed : Z) : list Z :=
  match n with
  | O => []
  | S k => ((lcg_step seed ≫ 16) `mod` elements)%Z
           :: lcg_indices elements k (lcg_step seed)
  end.

(** Two runs of one loop end in the same locals and in related states, or
    fault together. *)
Definition same_outcome {Σ A : Type} (R : Σ → Σ → Prop) (x y : option (A * Σ)) : Prop :=
  match x, y with
  | Some (a1, σ1), Some (a2, σ2) => a1 = a2 ∧ R σ1 σ2
  | None, None => True
  | _, _ => False
  end.

(* ================================================================== *)
(** * Properties *)

(** ** Rules for [for_up] *)

Lemma for_up_S {Σ A : Type} (n s : nat) (f : nat → A → M Σ A) (a : A) (σ : Σ) :
  for_up (S n) s f a σ =
  match f s a σ with
  | Some (a', σ') => for_up n (S s) f a' σ'
  | None => None
  end.
Proof. reflexivity. Qed.

Lemma bind_Some {Σ A B : Type} (c : M Σ A) (k : A → M Σ B) (σ σ' : Σ) (a : A) :
  c σ = Some (a, σ') → (c ≫= k) σ = k a σ'.
Proof. intros H. unfold mbind, M_bind, m_bind. by rewrite H. Qed.

Lemma bind_None {Σ A B : Type} (c : M Σ A) (k : A → M Σ B) (σ : Σ) :
  c σ = None → (c ≫= k) σ = None.
Proof. intros H. unfold mbind, M_bind, m_bind. by rewrite H. Qed.

(** Total correctness: an invariant every iteration re-establishes holds after
    the loop, and the loop does not fault. *)
Lemma for_up_inv {Σ A : Type} (I : nat → A → Σ → Prop) (f : nat → A → M Σ A) :
  ∀ n s,
    (∀ i a σ, s ≤ i < s + n → I i a σ →
              ∃ a' σ', f i a σ = Some (a', σ') ∧ I (S i) a' σ') →
    ∀ a σ, I s a σ →
           ∃ a' σ', for_up n s f a σ = Some (a', σ') ∧ I (s + n) a' σ'.
Proof.
  induction n as [|n IH]; intros s Hstep a σ HI.
  - exists a, σ. rewrite Nat.add_0_r. done.
  - destruct (Hstep s a σ) as (a1 & σ1 & Hf & HI1); [lia | done |].
    destruct (IH (S s)) with (a := a1) (σ := σ1) as (a2 & σ2 & Hloop & HI2).
    + intros i b τ Hi. apply Hstep. lia.
    + done.
    + exists a2, σ2. rewrite for_up_S, Hf. split; [done |].
      by replace (s + S n) with (S s + n) by lia.
Qed.

(** Two loop bodies that agree on every state of an invariant set give the
    same loop. *)
Lemma for_up_ext_inv {Σ A : Type} (P : Σ → Prop) (f g : nat → A → M Σ A) :
  ∀ n s,
    (∀ i a σ, s ≤ i < s + n → P σ → f i a σ = g i a σ) →
    (∀ i a σ a' σ', s ≤ i < s + n → P σ → g i a σ = Some (a', σ') → P σ') →
    ∀ a σ, P σ → for_up n s f a σ = for_up n s g a σ.
Proof.
  induction n as [|n IH]; intros s Hfg Hpres a σ HP; [done |].
  rewrite !for_up_S, Hfg by (done || lia).
  destruct (g s a σ) as [[a1 σ1]|] eqn:Hg; [| done].
  apply IH.
  - intros i b τ Hi. apply Hfg. lia.
  - intros i b τ b' τ' Hi. apply Hpres. lia.
  - eapply (Hpres s); [lia | done | done].
Qed.

Lemma for_up_ext {Σ A : Type} (f g : nat → A → M Σ A) (n s : nat) (a : A) (σ : Σ) :
  (∀ i b τ, f i b τ = g i b τ) → for_up n s f a σ = for_up n s g a σ.
Proof.
  intros Hfg. apply (for_up_ext_inv (λ _, True)); auto.
Qed.

(** A loop one of whose iterations faults on every state of an invariant set
    faults. *)
Lemma for_up_fault {Σ A : Type} (P : Σ → Prop) (f : nat → A → M Σ A) (j : nat) :
  (∀ a σ, P σ → f j a σ = None) →
  (∀ i a σ a' σ', P σ → f i a σ = Some (a', σ') → P σ') →
  ∀ n s, s ≤ j < s + n → ∀ a σ, P σ → for_up n s f a σ = None.
Proof.
  intros Hj Hpres. induction n as [|n IH]; intros s Hs a σ HP; [lia |].
  rewrite for_up_S. destruct (decide (s = j)) as [->|Hne].
  - by rewrite Hj.
  - destruct (f s a σ) as [[a1 σ1]|] eqn:Hf; [| done].
    apply IH; [lia |]. by eapply Hpres.
Qed.

(** Two runs of one loop from related states stay related and compute the
    same locals, or fault together. *)
Lemma for_up_rel {Σ A : Type} (R : Σ → Σ → Prop) (f : nat → A → M Σ A) :
  ∀ n s,
    (∀ i a σ1 σ2, s ≤ i < s + n → R σ1 σ2 → same_outcome R (f i a σ1) (f i a σ2)) →
    ∀ a σ1 σ2, R σ1 σ2 → same_outcome R (for_up n s f a σ1) (for_up n s f a σ2).
Proof.
  induction n as [|n IH]; intros s Hstep a σ1 σ2 HR; [done |].
  rewrite !for_up_S. specialize (Hstep s a σ1 σ2 ltac:(lia) HR) as H1.
  unfold same_outcome in H1.
  destruct (f s a σ1) as [[a1 τ1]|], (f s a σ2) as [[a2 τ2]|]; try done.
  destruct H1 as [-> HR']. apply IH; [| done].
  intros i b τ τ' Hi. apply Hstep. lia.
Qed.

(** ** Sequential scans *)

Lemma wrap64_idemp (x : Z) : wrap64 (wrap64 x) = wrap64 x.
Proof. unfold wrap64. by rewrite Z.mod_mod. Qed.

Lemma add64_wrap (x y : Z) : add64 (wrap64 x) (wrap64 y) = wrap64 (x + y).
Proof. unfold add64, wrap64. by rewrite <- Zplus_mod. Qed.

Lemma closed_form_sum_succ (i : nat) :
  closed_form_sum (Z.of_nat (S i)) = (closed_form_sum (Z.of_nat i) + Z.of_nat i)%Z.
Proof.
  unfold closed_form_sum. rewrite Nat2Z.inj_succ.
  replace (Z.succ (Z.of_nat i) * (Z.succ (Z.of_nat i) - 1))%Z
    with (Z.of_nat i * (Z.of_nat i - 1) + Z.of_nat i * 2)%Z by lia.
  by rewrite Z.div_add.
Qed.

Lemma identity_array_length (n : nat) : length (identity_array n) = n.
Proof. unfold identity_array. by rewrite length_fmap, length_seq. Qed.

Lemma identity_array_lookup (n i : nat) :
  i < n → identity_array n !! i = Some (wrap64 (Z.of_nat i)).
Proof.
  intros Hi. unfold identity_array.
  by rewrite list_lookup_fmap, lookup_seq_lt.
Qed.

Lemma identity_array_succ (n : nat) :
  identity_array (S n) = identity_array n ++ [wrap64 (Z.of_nat n)].
Proof. unfold identity_array. by rewrite seq_S, fmap_app. Qed.

(** The initialisation loop turns any arena of [n] elements into the identity
    array. *)
Lemma init_loop_spec (n : nat) (a : list Z) :
  length a = n →
  for_up n 0 (λ i _, scan.store i (wrap64 (Z.of_nat i))) () a
  = Some ((), identity_array n).
Proof.
  intros Hlen.
  destruct (for_up_inv
              (λ i (_ : ()) σ, σ = identity_array i ++ drop i a)
              (λ i _, scan.store i (wrap64 (Z.of_nat i))) n 0)
    with (a := ()) (σ := a) as ([] & σ' & Hrun & Hpost).
  - intros i [] σ Hi ->. eexists (), _. unfold scan.store.
    rewrite decide_True by (rewrite length_app, identity_array_length, length_drop; lia).
    split; [reflexivity |].
    destruct (lookup_lt_is_Some_2 a i) as [x Hx]; [lia |].
    rewrite identity_array_succ, <- app_assoc, (drop_S _ x) by done.
    rewrite insert_app_r_alt by (rewrite identity_array_length; lia).
    by rewrite identity_array_length, Nat.sub_diag.
  - by rewrite drop_0.
  - rewrite Hrun, Hpost. cbn. rewrite drop_ge by lia. by rewrite app_nil_r.
Qed.

(** One pass over the identity array adds the closed-form sum. *)
Lemma scan_pass_spec (n : nat) (s : Z) :
  for_up n 0 (λ i sum, v ← scan.load i; mret (add64 sum v)) (wrap64 s) (identity_array n)
  = Some (wrap64 (s + closed_form_sum (Z.of_nat n)), identity_array n).
Proof.
  destruct (for_up_inv
              (λ i sum σ, σ = identity_array n ∧
                          sum = wrap64 (s + closed_form_sum (Z.of_nat i)))
              (λ i sum, v ← scan.load i; mret (add64 sum v)) n 0)
    with (a := wrap64 s) (σ := identity_array n) as (r & σ' & Hrun & -> & ->).
  - intros i sum σ Hi [-> ->]. eexists _, _.
    unfold mbind, M_bind, m_bind, scan.load.
    rewrite identity_array_lookup by lia. cbn. split; [reflexivity |].
    split; [done |].
    rewrite add64_wrap, closed_form_sum_succ. f_equal. lia.
  - split; [done |]. unfold closed_form_sum. cbn. by rewrite Z.add_0_r.
  - done.
Qed.

(** [iters] passes add it [iters] times. *)
Lemma scan_passes_spec (iters n : nat) :
  for_up iters 0 (λ _ sum,
    for_up n 0 (λ i sum, v ← scan.load i; mret (add64 sum v)) sum) 0%Z (identity_array n)
  = Some (wrap64 (Z.of_nat iters * closed_form_sum (Z.of_nat n)), identity_array n).
Proof.
  destruct (for_up_inv
              (λ k sum σ, σ = identity_array n ∧
                          sum = wrap64 (Z.of_nat k * closed_form_sum (Z.of_nat n)))
              (λ _ sum, for_up n 0 (λ i sum, v ← scan.load i; mret (add64 sum v)) sum)
              iters 0)
    with (a := 0%Z) (σ := identity_array n) as (r & σ' & Hrun & -> & ->).
  - intros k sum σ Hk [-> ->]. eexists _, _. rewrite scan_pass_spec.
    split; [reflexivity |]. split; [done |]. f_equal. lia.
  - done.
  - done.
Qed.

(** C6 (as the code has it): once [main] has stored [array[i] = i] in an arena
    of [elements] words, the scan returns the closed-form sum of
    [0 .. elements-1] times the number of passes [ITERATIONS] the function
    makes, modulo 2^64, and leaves the array as it was.  This holds for
    [no_prefetch] of prefetch_hints.c and [sequential_no_prefetch] of
    sequential_prefetch.c alike; with one pass it is the closed-form sum. *)
Theorem scan_returns_passes_times_closed_form
    (ARRAY_SIZE : Z) (ITERATIONS : nat) (a : list Z) :
  length a = prefetch_hints.elements ARRAY_SIZE →
  prefetch_hints.init_array ARRAY_SIZE a
    = Some ((), identity_array (prefetch_hints.elements ARRAY_SIZE)) ∧
  sequential_prefetch.init_array ARRAY_SIZE a
    = Some ((), identity_array (prefetch_hints.elements ARRAY_SIZE)) ∧
  prefetch_hints.no_prefetch ARRAY_SIZE ITERATIONS
      (identity_array (prefetch_hints.elements ARRAY_SIZE))
    = Some (wrap64 (Z.of_nat ITERATIONS *
                    closed_form_sum (Z.of_nat (prefetch_hints.elements ARRAY_SIZE))),
            identity_array (prefetch_hints.elements ARRAY_SIZE)) ∧
  sequential_prefetch.sequential_no_prefetch ARRAY_SIZE ITERATIONS
      (identity_array (prefetch_hints.elements ARRAY_SIZE))
    = Some (wrap64 (Z.of_nat ITERATIONS *
                    closed_form_sum (Z.of_nat (prefetch_hints.elements ARRAY_SIZE))),
            identity_array (prefetch_hints.elements ARRAY_SIZE)).
Proof.
  intros Hlen. repeat split.
  - by apply init_loop_spec.
  - by apply init_loop_spec.
  - apply scan_passes_spec.
  - apply scan_passes_spec.
Qed.

Lemma scan_returns_passes_times_closed_form_witness :
  length (replicate 8 7%Z) = prefetch_hints.elements 64 ∧
  prefetch_hints.init_array 64 (replicate 8 7%Z)
    = Some ((), [0; 1; 2; 3; 4; 5; 6; 7]%Z) ∧
  prefetch_hints.no_prefetch 64 3 [0; 1; 2; 3; 4; 5; 6; 7]%Z
    = Some (84%Z, [0; 1; 2; 3; 4; 5; 6; 7]%Z).
Proof.
  split; [reflexivity |].
  destruct (scan_returns_passes_times_closed_form 64 3 (replicate 8 7%Z))
    as (Hinit & _ & Hscan & _); [reflexivity |].
  split; [exact Hinit | exact Hscan].
Defined.

Lemma elements_128MB :
  Z.of_nat (prefetch_hints.elements prefetch_hints.ARRAY_SIZE) = 16777216%Z.
Proof. unfold prefetch_hints.elements. by rewrite Z2Nat.id. Qed.

(** The two programs at their own constants: three, respectively five, times
    the closed-form sum 140737479966720 of [0 .. 2^24 - 1]. *)
Lemma scan_128MB_values :
  prefetch_hints.no_prefetch prefetch_hints.ARRAY_SIZE prefetch_hints.ITERATIONS
      (identity_array (prefetch_hints.elements prefetch_hints.ARRAY_SIZE))
    = Some (422212439900160%Z,
            identity_array (prefetch_hints.elements prefetch_hints.ARRAY_SIZE)) ∧
  sequential_prefetch.sequential_no_prefetch
      sequential_prefetch.ARRAY_SIZE sequential_prefetch.ITERATIONS
      (identity_array (sequential_prefetch.elements sequential_prefetch.ARRAY_SIZE))
    = Some (703687399833600%Z,
            identity_array (sequential_prefetch.elements sequential_prefetch.ARRAY_SIZE)).
Proof.
  split.
  - unfold prefetch_hints.no_prefetch.
    rewrite scan_passes_spec, elements_128MB. reflexivity.
  - unfold sequential_prefetch.sequential_no_prefetch.
    rewrite scan_passes_spec. unfold sequential_prefetch.elements at 1.
    rewrite Z2Nat.id by done. reflexivity.
Qed.

(** C6 as stated fails: on the 128 MB array holding [array[i] = i] the scan
    of prefetch_hints.c does not return the closed-form sum of
    [0 .. elements-1]; its three passes return three times that sum. *)
Lemma scan_128MB_is_not_closed_form :
  prefetch_hints.no_prefetch prefetch_hints.ARRAY_SIZE prefetch_hints.ITERATIONS
      (identity_array (prefetch_hints.elements prefetch_hints.ARRAY_SIZE))
  ≠ Some (wrap64 (closed_form_sum
                    (Z.of_nat (prefetch_hints.elements prefetch_hints.ARRAY_SIZE))),
          identity_array (prefetch_hints.elements prefetch_hints.ARRAY_SIZE)).
Proof.
  destruct scan_128MB_values as [-> _]. rewrite elements_128MB.
  intros H. apply (f_equal (fmap fst)) in H. discriminate H.
Qed.

(** ** Prefetching and non-prefetching variants *)

Lemma sequential_with_prefetch_eq
    (ARRAY_SIZE : Z) (ITERATIONS PREFETCH_DISTANCE : nat) (a : list Z) :
  sequential_prefetch.sequential_with_prefetch ARRAY_SIZE ITERATIONS PREFETCH_DISTANCE a
  = sequential_prefetch.sequential_no_prefetch ARRAY_SIZE ITERATIONS a.
Proof.
  unfold sequential_prefetch.sequential_with_prefetch,
    sequential_prefetch.sequential_no_prefetch.
  apply for_up_ext. intros k sum σ. apply for_up_ext. intros i sum' σ'. reflexivity.
Qed.

Lemma random_no_prefetch_body_pure (i : nat) (sum r : Z) (m m' : random_prefetch.mem) :
  (idx ← random_prefetch.load_index i;
   v ← random_prefetch.load_array idx;
   mret (add64 sum v)) m = Some (r, m') → m' = m.
Proof.
  unfold mbind, M_bind, m_bind, random_prefetch.load_index, random_prefetch.load_array.
  destruct (random_prefetch.indices m !! i) as [idx|]; [| done].
  destruct (random_prefetch.array m !! Z.to_nat idx) as [v|]; [| done].
  cbn. by intros [= _ ->].
Qed.

Lemma random_with_prefetch_eq (ACCESS_COUNT PREFETCH_AHEAD : nat) (m : random_prefetch.mem) :
  ACCESS_COUNT + PREFETCH_AHEAD ≤ length (random_prefetch.indices m) →
  random_prefetch.random_with_prefetch ACCESS_COUNT PREFETCH_AHEAD m
  = random_prefetch.random_no_prefetch ACCESS_COUNT m.
Proof.
  intros Hlen.
  unfold random_prefetch.random_with_prefetch, random_prefetch.random_no_prefetch.
  apply (for_up_ext_inv (λ σ, σ = m)); [| | done].
  - intros i sum σ Hi ->.
    destruct (lookup_lt_is_Some_2 (random_prefetch.indices m) (i + PREFETCH_AHEAD))
      as [ahead Hahead]; [lia |].
    unfold mbind at 1, M_bind at 1, m_bind at 1, random_prefetch.load_index at 1.
    by rewrite Hahead.
  - intros i sum σ r σ' _ -> Hbody. by apply random_no_prefetch_body_pure in Hbody.
Qed.

(** C2: a prefetching workload returns the checksum and the memory its
    non-prefetching counterpart returns, whatever the array holds: for the
    sequential scan outright, for the random walk whenever the index buffer
    holds the [ACCESS_COUNT + PREFETCH_AHEAD] entries [main] generates. *)
Theorem prefetch_variants_agree
    (ARRAY_SIZE : Z) (ITERATIONS PREFETCH_DISTANCE ACCESS_COUNT PREFETCH_AHEAD : nat)
    (a : list Z) (m : random_prefetch.mem) :
  ACCESS_COUNT + PREFETCH_AHEAD ≤ length (random_prefetch.indices m) →
  sequential_prefetch.sequential_with_prefetch ARRAY_SIZE ITERATIONS PREFETCH_DISTANCE a
    = sequential_prefetch.sequential_no_prefetch ARRAY_SIZE ITERATIONS a ∧
  random_prefetch.random_with_prefetch ACCESS_COUNT PREFETCH_AHEAD m
    = random_prefetch.random_no_prefetch ACCESS_COUNT m.
Proof.
  intros Hlen. split.
  - apply sequential_with_prefetch_eq.
  - by apply random_with_prefetch_eq.
Qed.

Lemma prefetch_variants_agree_witness :
  sequential_prefetch.sequential_with_prefetch 32 2 16 [5; 6; 7; 8]%Z
    = Some (52%Z, [5; 6; 7; 8]%Z) ∧
  random_prefetch.random_with_prefetch 3 2
      (random_prefetch.Mem [10; 20; 30; 40]%Z [3; 1; 2; 0; 1; 9]%Z)
    = Some (90%Z, random_prefetch.Mem [10; 20; 30; 40]%Z [3; 1; 2; 0; 1; 9]%Z).
Proof.
  destruct (prefetch_variants_agree 32 2 16 3 2 [5; 6; 7; 8]%Z
              (random_prefetch.Mem [10; 20; 30; 40]%Z [3; 1; 2; 0; 1; 9]%Z))
    as [Hseq Hrand]; [cbn; lia |].
  split; [rewrite Hseq | rewrite Hrand]; reflexivity.
Defined.

(** ** The pseudo-random index sequence *)

Lemma lcg_indices_length (el : Z) (n : nat) (seed : Z) :
  length (lcg_indices el n seed) = n.
Proof. revert seed. induction n as [|n IH]; intros seed; cbn; [done | by rewrite IH]. Qed.

Lemma lcg_indices_bound (el : Z) (n : nat) (seed : Z) (i : nat) (x : Z) :
  (0 < el)%Z → lcg_indices el n seed !! i = Some x → (0 ≤ x < el)%Z.
Proof.
  intros Hel. revert seed i. induction n as [|n IH]; intros seed i; [done |].
  destruct i as [|i]; cbn.
  - intros [= <-]. by apply Z.mod_pos_bound.
  - apply IH.
Qed.

(** The generation loop overwrites [n] consecutive entries from [s] on with
    the index sequence, and touches nothing else. *)
Lemma generate_loop_spec (el : Z) (n : nat) :
  ∀ (s : nat) (seed : Z) (m : random_prefetch.mem),
    s + n ≤ length (random_prefetch.indices m) →
    ∃ seed',
      for_up n s (λ i seed,
          let seed := wrap64 (seed * 1103515245 + 12345) in
          _ ← random_prefetch.store_index i ((seed ≫ 16) `mod` el)%Z;
          mret seed) seed m
      = Some (seed',
              random_prefetch.Mem (random_prefetch.array m)
                (take s (random_prefetch.indices m) ++ lcg_indices el n seed
                 ++ drop (s + n) (random_prefetch.indices m))).
Proof.
  induction n as [|n IH]; intros s seed [arr idxs] Hlen; cbn in Hlen.
  - exists seed. cbn. by rewrite Nat.add_0_r, take_drop.
  - rewrite for_up_S. cbn zeta.
    unfold mbind at 1, M_bind at 1, m_bind at 1, random_prefetch.store_index at 1.
    cbn [random_prefetch.indices random_prefetch.array].
    rewrite decide_True by lia. cbn [mret M_ret m_ret].
    destruct (IH (S s) (wrap64 (seed * 1103515245 + 12345))
                (random_prefetch.Mem arr
                   (<[s:=((wrap64 (seed * 1103515245 + 12345) ≫ 16) `mod` el)%Z]> idxs)))
      as [seed' Hrun].
    { cbn. rewrite length_insert. lia. }
    exists seed'. etrans; [exact Hrun |].
    cbn [random_prefetch.indices random_prefetch.array].
    do 2 f_equal.
    rewrite (take_S_r _ _ ((wrap64 (seed * 1103515245 + 12345) ≫ 16) `mod` el)%Z)
      by (apply list_lookup_insert_eq; lia).
    rewrite take_insert_ge by lia. rewrite drop_insert_lt by lia.
    rewrite <- app_assoc. cbn. by replace (s + S n) with (S (s + n)) by lia.
Qed.

Lemma generate_random_indices_spec
    (ARRAY_SIZE : Z) (ACCESS_COUNT PREFETCH_AHEAD : nat) (m : random_prefetch.mem) :
  ACCESS_COUNT + PREFETCH_AHEAD ≤ length (random_prefetch.indices m) →
  random_prefetch.generate_random_indices ARRAY_SIZE ACCESS_COUNT PREFETCH_AHEAD m
  = Some ((), random_prefetch.Mem (random_prefetch.array m)
                (lcg_indices (random_prefetch.elements ARRAY_SIZE)
                   (ACCESS_COUNT + PREFETCH_AHEAD) 12345
                 ++ drop (ACCESS_COUNT + PREFETCH_AHEAD) (random_prefetch.indices m))).
Proof.
  intros Hlen. unfold random_prefetch.generate_random_indices.
  destruct (generate_loop_spec (random_prefetch.elements ARRAY_SIZE)
              (ACCESS_COUNT + PREFETCH_AHEAD) 0 12345 m) as [seed' Hrun]; [lia |].
  by rewrite (bind_Some _ _ _ _ _ Hrun).
Qed.

(** The walk over pre-generated indices, all inside the array, returns. *)
Lemma random_no_prefetch_returns (ACCESS_COUNT : nat) (m : random_prefetch.mem) :
  (∀ i, i < ACCESS_COUNT →
        ∃ idx, random_prefetch.indices m !! i = Some idx ∧
               Z.to_nat idx < length (random_prefetch.array m)) →
  ∃ r, random_prefetch.random_no_prefetch ACCESS_COUNT m = Some (r, m).
Proof.
  intros Hin. unfold random_prefetch.random_no_prefetch.
  destruct (for_up_inv (λ _ _ σ, σ = m)
              (λ i sum, idx ← random_prefetch.load_index i;
                        v ← random_prefetch.load_array idx;
                        mret (add64 sum v)) ACCESS_COUNT 0)
    with (a := 0%Z) (σ := m) as (r & σ' & Hrun & ->); [| done | by exists r].
  intros i sum σ Hi ->. destruct (Hin i) as (idx & Hidx & Hlt); [lia |].
  destruct (lookup_lt_is_Some_2 (random_prefetch.array m) (Z.to_nat idx)) as [v Hv];
    [done |].
  exists (add64 sum v), m.
  unfold mbind, M_bind, m_bind, random_prefetch.load_index, random_prefetch.load_array.
  by rewrite Hidx, Hv.
Qed.

(** The walk reads the first [ACCESS_COUNT] entries of the index buffer and
    the array, nothing else. *)
Lemma random_no_prefetch_reads (ACCESS_COUNT : nat) (m1 m2 : random_prefetch.mem) :
  random_prefetch.array m1 = random_prefetch.array m2 →
  take ACCESS_COUNT (random_prefetch.indices m1)
    = take ACCESS_COUNT (random_prefetch.indices m2) →
  fst <$> random_prefetch.random_no_prefetch ACCESS_COUNT m1
  = fst <$> random_prefetch.random_no_prefetch ACCESS_COUNT m2.
Proof.
  intros Harr Hidx.
  pose (R := λ σ1 σ2 : random_prefetch.mem, σ1 = m1 ∧ σ2 = m2).
  assert (same_outcome R (random_prefetch.random_no_prefetch ACCESS_COUNT m1)
            (random_prefetch.random_no_prefetch ACCESS_COUNT m2)) as Hsame.
  { unfold random_prefetch.random_no_prefetch. apply for_up_rel; [| done].
    intros i sum σ1 σ2 Hi [-> ->].
    unfold mbind, M_bind, m_bind, random_prefetch.load_index, random_prefetch.load_array.
    rewrite <- (lookup_take_lt (random_prefetch.indices m1) ACCESS_COUNT i) by lia.
    rewrite <- (lookup_take_lt (random_prefetch.indices m2) ACCESS_COUNT i) by lia.
    rewrite Hidx.
    destruct (take ACCESS_COUNT (random_prefetch.indices m2) !! i) as [idx|]; [| done].
    cbn beta iota. rewrite Harr.
    by destruct (random_prefetch.array m2 !! Z.to_nat idx). }
  unfold same_outcome in Hsame.
  destruct (random_prefetch.random_no_prefetch ACCESS_COUNT m1) as [[r1 τ1]|],
    (random_prefetch.random_no_prefetch ACCESS_COUNT m2) as [[r2 τ2]|]; try done.
  by destruct Hsame as [-> _].
Qed.

Lemma memory_intensive_loop_spec (el : Z) (n : nat) :
  (0 < el)%Z →
  ∀ (s : nat) (seed sum : Z) (m : latency_hiding.mem),
    length (latency_hiding.large_array m) = Z.to_nat el →
    ∃ r m',
      for_up n s (λ _ '(seed, sum),
          let seed := wrap64 (seed * 1103515245 + 12345) in
          let idx := ((seed ≫ 16) `mod` el)%Z in
          v ← latency_hiding.load idx;
          let sum := add64 sum v in
          _ ← latency_hiding.store idx sum;
          mret (seed, sum)) (seed, sum) m
      = Some (r, m') ∧
      latency_hiding.accessed m'
      = latency_hiding.accessed m ++ lcg_indices el n seed ∧
      length (latency_hiding.large_array m') = Z.to_nat el.
Proof.
  intros Hel. induction n as [|n IH]; intros s seed sum m Hlen.
  - exists (seed, sum), m. cbn. by rewrite app_nil_r.
  - rewrite for_up_S.
    pose (idx := ((lcg_step seed ≫ 16) `mod` el)%Z).
    assert (0 ≤ idx < el)%Z as Hidx by (by apply Z.mod_pos_bound).
    assert (Z.to_nat idx < length (latency_hiding.large_array m)) as Hlt by lia.
    destruct (lookup_lt_is_Some_2 _ _ Hlt) as [v Hv].
    destruct (IH (S s) (lcg_step seed) (add64 sum v)
                (latency_hiding.Mem
                   (<[Z.to_nat idx:=add64 sum v]> (latency_hiding.large_array m))
                   (latency_hiding.accessed m ++ [idx])))
      as (r & m' & Hrun & Hacc & Hlen'); [cbn; by rewrite length_insert |].
    exists r, m'. split; [| split; [| done]].
    + etrans; [| exact Hrun].
      unfold mbind at 1 2, M_bind at 1 2, m_bind at 1 2,
        latency_hiding.load at 1, latency_hiding.store at 1.
      fold (lcg_step seed). fold idx. rewrite Hv. cbn beta iota zeta.
      cbn [latency_hiding.large_array latency_hiding.accessed].
      by rewrite decide_True by done.
    + rewrite Hacc. cbn. by rewrite <- app_assoc.
Qed.

Lemma memory_intensive_spec
    (LARGE_ARRAY_SIZE : Z) (MEMORY_ACCESSES : nat) (m : latency_hiding.mem) :
  (0 < latency_hiding.elements LARGE_ARRAY_SIZE)%Z →
  length (latency_hiding.large_array m)
    = Z.to_nat (latency_hiding.elements LARGE_ARRAY_SIZE) →
  ∃ r m',
    latency_hiding.memory_intensive LARGE_ARRAY_SIZE MEMORY_ACCESSES m = Some (r, m') ∧
    latency_hiding.accessed m'
    = latency_hiding.accessed m
      ++ lcg_indices (latency_hiding.elements LARGE_ARRAY_SIZE) MEMORY_ACCESSES 12345.
Proof.
  intros Hel Hlen.
  destruct (memory_intensive_loop_spec (latency_hiding.elements LARGE_ARRAY_SIZE)
              MEMORY_ACCESSES Hel 0 12345 0 m Hlen) as (r & m' & Hrun & Hacc & _).
  exists r.2, m'. split; [| done].
  unfold latency_hiding.memory_intensive. by rewrite (bind_Some _ _ _ _ _ Hrun).
Qed.

(** The checksum and the final array depend on the initial array alone. *)
Lemma memory_intensive_reads
    (LARGE_ARRAY_SIZE : Z) (MEMORY_ACCESSES : nat) (m1 m2 : latency_hiding.mem) :
  latency_hiding.large_array m1 = latency_hiding.large_array m2 →
  same_outcome (λ σ1 σ2, latency_hiding.large_array σ1 = latency_hiding.large_array σ2)
    (latency_hiding.memory_intensive LARGE_ARRAY_SIZE MEMORY_ACCESSES m1)
    (latency_hiding.memory_intensive LARGE_ARRAY_SIZE MEMORY_ACCESSES m2).
Proof.
  intros Harr. unfold latency_hiding.memory_intensive.
  match goal with
  | |- same_outcome ?R ((for_up ?n ?s ?f ?a ≫= ?k) m1) _ =>
      pose proof (for_up_rel R f n s) as Hrel
  end.
  specialize (Hrel ltac:(
    intros i [seed sum] σ1 σ2 _ HR; hnf in HR;
    unfold mbind, M_bind, m_bind, latency_hiding.load, latency_hiding.store;
    cbn beta iota zeta; rewrite HR;
    destruct (latency_hiding.large_array σ2 !! _) as [v|]; [| done];
    cbn [latency_hiding.large_array latency_hiding.accessed];
    case_decide; by cbn)).
  specialize (Hrel (12345%Z, 0%Z) m1 m2 Harr).
  unfold same_outcome in Hrel.
  destruct (for_up _ _ _ _ m1) as [[r1 τ1]|] eqn:H1,
    (for_up _ _ _ _ m2) as [[r2 τ2]|] eqn:H2; try done.
  - rewrite (bind_Some _ _ _ _ _ H1), (bind_Some _ _ _ _ _ H2).
    by destruct Hrel as [-> HR].
  - by rewrite (bind_None _ _ _ H1), (bind_None _ _ _ H2).
Qed.

Lemma generated_walk_returns
    (ARRAY_SIZE : Z) (ACCESS_COUNT PREFETCH_AHEAD : nat) (m : random_prefetch.mem) :
  (0 < random_prefetch.elements ARRAY_SIZE)%Z →
  random_prefetch.allocated ARRAY_SIZE ACCESS_COUNT PREFETCH_AHEAD m →
  ∃ g r,
    random_prefetch.generate_random_indices ARRAY_SIZE ACCESS_COUNT PREFETCH_AHEAD m
      = Some ((), g) ∧
    random_prefetch.array g = random_prefetch.array m ∧
    random_prefetch.indices g
      = lcg_indices (random_prefetch.elements ARRAY_SIZE)
          (ACCESS_COUNT + PREFETCH_AHEAD) 12345
        ++ drop (ACCESS_COUNT + PREFETCH_AHEAD) (random_prefetch.indices m) ∧
    random_prefetch.random_no_prefetch ACCESS_COUNT g = Some (r, g) ∧
    random_prefetch.random_with_prefetch ACCESS_COUNT PREFETCH_AHEAD g = Some (r, g).
Proof.
  intros Hel [Harr Hidx].
  pose proof (generate_random_indices_spec ARRAY_SIZE ACCESS_COUNT PREFETCH_AHEAD m
                ltac:(lia)) as Hgen.
  match type of Hgen with _ = Some (_, ?g') => set (g := g') in * end.
  destruct (random_no_prefetch_returns ACCESS_COUNT g) as [r Hr].
  { intros i Hi. subst g. cbn [random_prefetch.indices random_prefetch.array].
    rewrite lookup_app_l by (rewrite lcg_indices_length; lia).
    destruct (lookup_lt_is_Some_2
                (lcg_indices (random_prefetch.elements ARRAY_SIZE)
                   (ACCESS_COUNT + PREFETCH_AHEAD) 12345) i) as [idx Hidx'];
      [rewrite lcg_indices_length; lia |].
    exists idx. split; [done |].
    apply lcg_indices_bound in Hidx'; [| done]. lia. }
  exists g, r. repeat split; try done.
  rewrite random_with_prefetch_eq; [done |].
  subst g. cbn [random_prefetch.indices].
  rewrite length_app, lcg_indices_length, length_drop. lia.
Qed.

(** C7: the index sequence is a function of the fixed seed 12345 alone.
    - [generate_random_indices] run on two arenas of arbitrary prior contents
      fills both with the same [ACCESS_COUNT + PREFETCH_AHEAD] indices, the
      sequence [index = (seed >> 16) mod elements] of the step
      [seed = seed * 1103515245 + 12345]; the walks over them, with and
      without prefetch, return, and return one and the same checksum when the
      two arrays hold the same values.
    - [memory_intensive] touches that same sequence of indices whatever the
      array holds, and two runs on equal arrays return equal checksums and
      leave equal arrays. *)
Theorem lcg_workloads_deterministic
    (ARRAY_SIZE : Z) (ACCESS_COUNT PREFETCH_AHEAD : nat) (m1 m2 : random_prefetch.mem)
    (LARGE_ARRAY_SIZE : Z) (MEMORY_ACCESSES : nat) (l1 l2 : latency_hiding.mem) :
  (0 < random_prefetch.elements ARRAY_SIZE)%Z →
  random_prefetch.allocated ARRAY_SIZE ACCESS_COUNT PREFETCH_AHEAD m1 →
  random_prefetch.allocated ARRAY_SIZE ACCESS_COUNT PREFETCH_AHEAD m2 →
  random_prefetch.array m1 = random_prefetch.array m2 →
  (0 < latency_hiding.elements LARGE_ARRAY_SIZE)%Z →
  length (latency_hiding.large_array l1)
    = Z.to_nat (latency_hiding.elements LARGE_ARRAY_SIZE) →
  latency_hiding.large_array l1 = latency_hiding.large_array l2 →
  (∃ g1 g2 r,
     random_prefetch.generate_random_indices ARRAY_SIZE ACCESS_COUNT PREFETCH_AHEAD m1
       = Some ((), g1) ∧
     random_prefetch.generate_random_indices ARRAY_SIZE ACCESS_COUNT PREFETCH_AHEAD m2
       = Some ((), g2) ∧
     take (ACCESS_COUNT + PREFETCH_AHEAD) (random_prefetch.indices g1)
       = lcg_indices (random_prefetch.elements ARRAY_SIZE)
           (ACCESS_COUNT + PREFETCH_AHEAD) 12345 ∧
     take (ACCESS_COUNT + PREFETCH_AHEAD) (random_prefetch.indices g2)
       = lcg_indices (random_prefetch.elements ARRAY_SIZE)
           (ACCESS_COUNT + PREFETCH_AHEAD) 12345 ∧
     random_prefetch.random_no_prefetch ACCESS_COUNT g1 = Some (r, g1) ∧
     random_prefetch.random_no_prefetch ACCESS_COUNT g2 = Some (r, g2) ∧
     random_prefetch.random_with_prefetch ACCESS_COUNT PREFETCH_AHEAD g1 = Some (r, g1) ∧
     random_prefetch.random_with_prefetch ACCESS_COUNT PREFETCH_AHEAD g2 = Some (r, g2)) ∧
  (∃ r k1 k2,
     latency_hiding.memory_intensive LARGE_ARRAY_SIZE MEMORY_ACCESSES l1 = Some (r, k1) ∧
     latency_hiding.memory_intensive LARGE_ARRAY_SIZE MEMORY_ACCESSES l2 = Some (r, k2) ∧
     latency_hiding.large_array k1 = latency_hiding.large_array k2 ∧
     latency_hiding.accessed k1
       = latency_hiding.accessed l1
         ++ lcg_indices (latency_hiding.elements LARGE_ARRAY_SIZE) MEMORY_ACCESSES 12345 ∧
     latency_hiding.accessed k2
       = latency_hiding.accessed l2
         ++ lcg_indices (latency_hiding.elements LARGE_ARRAY_SIZE) MEMORY_ACCESSES 12345).
Proof.
  intros Hel Hm1 Hm2 Harr Hel' Hlen Hlarge. split.
  - destruct (generated_walk_returns _ _ _ _ Hel Hm1)
      as (g1 & r1 & Hg1 & Ha1 & Hi1 & Hn1 & Hp1).
    destruct (generated_walk_returns _ _ _ _ Hel Hm2)
      as (g2 & r2 & Hg2 & Ha2 & Hi2 & Hn2 & Hp2).
    assert (r1 = r2) as <-.
    { pose proof (random_no_prefetch_reads ACCESS_COUNT g1 g2) as Hreads.
      rewrite Hn1, Hn2 in Hreads. cbn in Hreads.
      assert (Some r1 = Some r2) as [= ->]; [| done].
      apply Hreads; [congruence |].
      rewrite Hi1, Hi2.
      by rewrite !take_app_le by (rewrite lcg_indices_length; lia). }
    exists g1, g2, r1. repeat split; try done.
    + rewrite Hi1. by apply take_app_length', eq_sym, lcg_indices_length.
    + rewrite Hi2. by apply take_app_length', eq_sym, lcg_indices_length.
  - destruct (memory_intensive_spec LARGE_ARRAY_SIZE MEMORY_ACCESSES l1 Hel' Hlen)
      as (r1 & k1 & Hk1 & Hacc1).
    destruct (memory_intensive_spec LARGE_ARRAY_SIZE MEMORY_ACCESSES l2 Hel')
      as (r2 & k2 & Hk2 & Hacc2); [congruence |].
    pose proof (memory_intensive_reads LARGE_ARRAY_SIZE MEMORY_ACCESSES l1 l2 Hlarge)
      as Hsame.
    rewrite Hk1, Hk2 in Hsame. destruct Hsame as [-> Hfinal].
    by exists r2, k1, k2.
Qed.

Lemma lcg_workloads_deterministic_witness :
  (∃ g1 g2 r,
     random_prefetch.generate_random_indices 64 3 2
       (random_prefetch.Mem [0; 1; 2; 3; 4; 5; 6; 7]%Z [0; 0; 0; 0; 0; 0]%Z)
       = Some ((), g1) ∧
     random_prefetch.generate_random_indices 64 3 2
       (random_prefetch.Mem [0; 1; 2; 3; 4; 5; 6; 7]%Z [9; 8; 7; 6; 5; 4]%Z)
       = Some ((), g2) ∧
     take 5 (random_prefetch.indices g1) = [4; 4; 5; 2; 7]%Z ∧
     take 5 (random_prefetch.indices g2) = [4; 4; 5; 2; 7]%Z ∧
     random_prefetch.random_no_prefetch 3 g1 = Some (r, g1) ∧
     random_prefetch.random_no_prefetch 3 g2 = Some (r, g2) ∧
     random_prefetch.random_with_prefetch 3 2 g1 = Some (r, g1) ∧
     random_prefetch.random_with_prefetch 3 2 g2 = Some (r, g2)) ∧
  (∃ r k1 k2,
     latency_hiding.memory_intensive 64 5
       (latency_hiding.Mem [1; 2; 3; 4; 5; 6; 7; 8]%Z []) = Some (r, k1) ∧
     latency_hiding.memory_intensive 64 5
       (latency_hiding.Mem [1; 2; 3; 4; 5; 6; 7; 8]%Z [3]%Z) = Some (r, k2) ∧
     latency_hiding.large_array k1 = latency_hiding.large_array k2 ∧
     latency_hiding.accessed k1 = [] ++ [4; 4; 5; 2; 7]%Z ∧
     latency_hiding.accessed k2 = [3]%Z ++ [4; 4; 5; 2; 7]%Z).
Proof.
  apply (lcg_workloads_deterministic 64 3 2
           (random_prefetch.Mem [0; 1; 2; 3; 4; 5; 6; 7]%Z [0; 0; 0; 0; 0; 0]%Z)
           (random_prefetch.Mem [0; 1; 2; 3; 4; 5; 6; 7]%Z [9; 8; 7; 6; 5; 4]%Z)
           64 5
           (latency_hiding.Mem [1; 2; 3; 4; 5; 6; 7; 8]%Z [])
           (latency_hiding.Mem [1; 2; 3; 4; 5; 6; 7; 8]%Z [3]%Z)).
  - reflexivity.
  - split; reflexivity.
  - split; reflexivity.
  - reflexivity.
  - reflexivity.
  - reflexivity.
  - reflexivity.
Defined.

(** ** The index buffer and [random_with_multi_prefetch] *)

Lemma multi_prefetch_body_pure (i : nat) (sum r : Z) (m m' : random_prefetch.mem) :
  (near ← random_prefetch.load_index (i + 4);
   _ ← prefetch_utils.PREFETCH_T0 near;
   far ← random_prefetch.load_index (i + 16);
   _ ← prefetch_utils.PREFETCH_T1 far;
   idx ← random_prefetch.load_index i;
   v ← random_prefetch.load_array idx;
   mret (add64 sum v)) m = Some (r, m') → m' = m.
Proof.
  unfold mbind, M_bind, m_bind, random_prefetch.load_index, random_prefetch.load_array.
  destruct (random_prefetch.indices m !! (i + 4)) as [near|]; [| done]. cbn.
  destruct (random_prefetch.indices m !! (i + 16)) as [far|]; [| done]. cbn.
  destruct (random_prefetch.indices m !! i) as [idx|]; [| done].
  destruct (random_prefetch.array m !! Z.to_nat idx) as [v|]; [| done].
  cbn. by intros [= _ ->].
Qed.

(** The last iteration of [random_with_multi_prefetch] reads entry
    [ACCESS_COUNT + 15] of the index buffer. *)
Lemma multi_prefetch_out_of_bounds
    (ARRAY_SIZE : Z) (ACCESS_COUNT PREFETCH_AHEAD : nat) (m : random_prefetch.mem) :
  random_prefetch.allocated ARRAY_SIZE ACCESS_COUNT PREFETCH_AHEAD m →
  0 < ACCESS_COUNT →
  PREFETCH_AHEAD < 15 →
  random_prefetch.indices m !! (ACCESS_COUNT - 1 + 16) = None ∧
  random_prefetch.random_with_multi_prefetch ACCESS_COUNT m = None.
Proof.
  intros [_ Hlen] Hpos Hahead.
  assert (random_prefetch.indices m !! (ACCESS_COUNT - 1 + 16) = None) as Hout
    by (apply lookup_ge_None; lia).
  split; [done |].
  unfold random_prefetch.random_with_multi_prefetch.
  apply (for_up_fault (λ σ, σ = m) _ (ACCESS_COUNT - 1)); [| | lia | done].
  - intros sum σ ->.
    unfold mbind, M_bind, m_bind, random_prefetch.load_index.
    destruct (random_prefetch.indices m !! (ACCESS_COUNT - 1 + 4)); [| done].
    cbn. by rewrite Hout.
  - intros i sum σ r σ' -> Hbody. by apply multi_prefetch_body_pure in Hbody.
Qed.

(** C9 (what the code does): on the index buffer [main] allocates,
    [ACCESS_COUNT + PREFETCH_AHEAD + 1] entries, [random_with_multi_prefetch]
    reads [indices[i + 16]] past the end of the buffer as soon as
    [PREFETCH_AHEAD < 15]: its last iteration reads entry [ACCESS_COUNT + 15].
    The run faults whatever the buffer and the array hold. *)
Theorem multi_prefetch_reads_past_index_buffer
    (ARRAY_SIZE : Z) (ACCESS_COUNT PREFETCH_AHEAD : nat) (m : random_prefetch.mem) :
  random_prefetch.allocated ARRAY_SIZE ACCESS_COUNT PREFETCH_AHEAD m →
  0 < ACCESS_COUNT →
  PREFETCH_AHEAD < 15 →
  random_prefetch.indices m !! (ACCESS_COUNT - 1 + 16) = None ∧
  random_prefetch.random_with_multi_prefetch ACCESS_COUNT m = None.
Proof. apply multi_prefetch_out_of_bounds. Qed.

Lemma multi_prefetch_reads_past_index_buffer_witness :
  random_prefetch.indices
    (random_prefetch.Mem [0; 1; 2; 3; 4; 5; 6; 7]%Z (replicate 12 1%Z)) !! (3 - 1 + 16)
    = None ∧
  random_prefetch.random_with_multi_prefetch 3
    (random_prefetch.Mem [0; 1; 2; 3; 4; 5; 6; 7]%Z (replicate 12 1%Z)) = None.
Proof.
  apply (multi_prefetch_reads_past_index_buffer 64 3 8).
  - split; reflexivity.
  - lia.
  - lia.
Defined.

(** The program at its own constants, [ACCESS_COUNT = 10000000] and
    [PREFETCH_AHEAD = 8]: entry 10000015 of a buffer of 10000009. *)
Lemma random_prefetch_multi_prefetch_faults (m : random_prefetch.mem) :
  random_prefetch.allocated random_prefetch.ARRAY_SIZE random_prefetch.ACCESS_COUNT
    random_prefetch.PREFETCH_AHEAD m →
  random_prefetch.random_with_multi_prefetch random_prefetch.ACCESS_COUNT m = None.
Proof.
  intros Halloc.
  apply (multi_prefetch_out_of_bounds random_prefetch.ARRAY_SIZE
           random_prefetch.ACCESS_COUNT random_prefetch.PREFETCH_AHEAD m Halloc).
  - unfold random_prefetch.ACCESS_COUNT. lia.
  - unfold random_prefetch.PREFETCH_AHEAD. lia.
Qed.

(** The sibling walks stay inside the buffer at the program's constants. *)
Lemma random_prefetch_walks_in_bounds (m : random_prefetch.mem) :
  random_prefetch.allocated random_prefetch.ARRAY_SIZE random_prefetch.ACCESS_COUNT
    random_prefetch.PREFETCH_AHEAD m →
  ∃ g r,
    random_prefetch.generate_random_indices random_prefetch.ARRAY_SIZE
      random_prefetch.ACCESS_COUNT random_prefetch.PREFETCH_AHEAD m = Some ((), g) ∧
    random_prefetch.random_no_prefetch random_prefetch.ACCESS_COUNT g = Some (r, g) ∧
    random_prefetch.random_with_prefetch random_prefetch.ACCESS_COUNT
      random_prefetch.PREFETCH_AHEAD g = Some (r, g).
Proof.
  intros Halloc.
  assert (0 < random_prefetch.elements random_prefetch.ARRAY_SIZE)%Z as Hel
    by reflexivity.
  destruct (generated_walk_returns _ _ _ _ Hel Halloc)
    as (g & r & Hg & _ & _ & Hn & Hp).
  exists g, r. split; [exact Hg | split; [exact Hn | exact Hp]].
Qed.

(** ** Command lines *)












(** ** Allocation failure *)

(** X19: the programs that test the pointers they get.  A run in which one
    of the allocations of [main] fails prints the diagnostic and nothing
    else, runs no experiment and exits with status 1, whatever the command
    line. *)
Lemma checked_allocation_failure (argv : list string) (heap : nat → bool) :
  (heap 0 = false →
   run_process (latency_hiding_cli.main argv heap)
     = ([Perror "Memory allocation failed"], Exit 1) ∧
   run_process (sequential_prefetch_cli.main argv heap)
     = ([Perror "Memory allocation failed"], Exit 1) ∧
   run_process (prefetch_hints_cli.main argv heap)
     = ([Perror "Memory allocation failed"], Exit 1)) ∧
  (heap 0 = false ∨ heap 1 = false →
   run_process (dcache_contention.main argv heap)
     = ([Perror "Memory allocation failed"], Exit 1) ∧
   run_process (random_prefetch_cli.main argv heap)
     = ([Perror "Memory allocation failed"], Exit 1) ∧
   run_process (prefetch_distance.main argv heap)
     = ([Perror "Memory allocation failed"], Exit 1)) ∧
  (heap 0 = false ∨ heap 1 = false ∨ heap 2 = false →
   run_process (matrix_prefetch_cli.main argv heap)
     = ([Perror "Memory allocation failed"], Exit 1)).
Proof.
  split; [| split].
  - intros H0.
    unfold run_process, latency_hiding_cli.main, sequential_prefetch_cli.main,
      prefetch_hints_cli.main, mbind, Proc_bind, proc_bind, alloc.
    cbn [allocs trace]. by rewrite H0.
  - intros H01.
    unfold run_process, dcache_contention.main, random_prefetch_cli.main,
      prefetch_distance.main, mbind, Proc_bind, proc_bind, alloc.
    cbn [allocs trace].
    destruct (heap 0), (heap 1); try done; by destruct H01.
  - intros H012.
    unfold run_process, matrix_prefetch_cli.main, mbind, Proc_bind, proc_bind, alloc.
    cbn [allocs trace].
    destruct (heap 0), (heap 1), (heap 2); try done; by destruct H012 as [|[|]].
Qed.

Lemma checked_allocation_failure_witness :
  run_process (matrix_prefetch_cli.main ["./matrix_prefetch"; "--naive"]
                 (λ k, bool_decide (k ≠ 2)))
  = ([Perror "Memory allocation failed"], Exit 1).
Proof.
  apply (checked_allocation_failure ["./matrix_prefetch"; "--naive"]
           (λ k, bool_decide (k ≠ 2))).
  right. right. reflexivity.
Defined.

(** C8 (what the code does): combined_test passes whatever [aligned_alloc]
    returns to [memset].  When the first allocation fails the process faults
    in [run_single], having printed its banner and no diagnostic, whatever
    the command line. *)
Theorem combined_test_uses_unchecked_allocation (argv : list string) :
  run_process (combined_test.main argv heap_exhausted) = ([Banner], Fault) ∧
  diagnostics (run_process (combined_test.main argv heap_exhausted)).1 = [].
Proof. split; reflexivity. Qed.

(** ** The rendezvous *)

Section Rendezvous.
Import barrier.
Variable N : nat.
Variable checks_binding : bool.
Hypothesis N_fits_int : (Z.of_nat N < 2 ^ 31)%Z.

Lemma sum_increments_insert (ws : list worker) (i : nat) (w w' : worker) :
  ws !! i = Some w →
  sum_list_with increments (<[i:=w']> ws) + increments w
  = sum_list_with increments ws + increments w'.
Proof.
  revert i. induction ws as [|x ws IH]; intros [|i] Hi; try done.
  - injection Hi as ->. cbn. lia.
  - specialize (IH i Hi). change (<[S i:=w']> (x :: ws)) with (x :: <[i:=w']> ws).
    cbn [sum_list_with]. lia.
Qed.

Lemma sum_increments_le (start : Z) (ws : list worker) :
  Forall (worker_inv checks_binding start) ws →
  sum_list_with increments ws ≤ length ws.
Proof.
  induction 1 as [|w ws [Hw _] _ IH]; cbn; [done |].
  destruct (announced w); lia.
Qed.

(** If the increments add up to the number of workers, every worker has
    announced itself. *)
Lemma sum_increments_full (start : Z) (ws : list worker) :
  Forall (worker_inv checks_binding start) ws →
  sum_list_with increments ws = length ws →
  Forall (λ w, announced w = true) ws.
Proof.
  induction 1 as [|w ws Hw Hws IH]; cbn; intros Hsum; [done |].
  pose proof (sum_increments_le _ _ Hws) as Hle.
  destruct Hw as [Hw _]. destruct (announced w) eqn:Ha.
  - constructor; [done |]. apply IH. lia.
  - lia.
Qed.

Lemma wrap_int_small (x : Z) : (0 ≤ x < 2 ^ 31)%Z → wrap_int x = x.
Proof.
  intros Hx. unfold wrap_int. rewrite Z.mod_small; lia.
Qed.

Lemma worker_inv_start (st st' : Z) (w : worker) :
  (st = 1%Z → st' = 1%Z) →
  worker_inv checks_binding st w → worker_inv checks_binding st' w.
Proof.
  intros H1 (Hi & Hb & Hr & Ht & Ha).
  split; [done |]. split; [done |]. split; [auto |]. by split.
Qed.

Lemma driver_step_inv (s s' : state) :
  driver_step N s = Some s' → inv N checks_binding s → inv N checks_binding s'.
Proof.
  unfold driver_step, inv, driver_inv.
  destruct s as [rd st rel d ws]; cbn [ready start releases driver workers].
  intros Hstep (Hready & Hstart & Hdrv & Hws).
  pose proof (sum_increments_le _ _ Hws) as Hle.
  destruct d as [k| | |k|]; repeat case_decide; simplify_eq;
    cbn [ready start releases driver workers].
  - destruct Hdrv as (Hlen & Hk & Hrel).
    split; [| split; [done | split]].
    + rewrite sum_list_with_app. cbn. lia.
    + rewrite length_app. cbn. lia.
    + apply Forall_app. split; [done |]. constructor; [| done].
      split; [done |]. split; [done |]. split; [done |]. split; [| done].
      cbn. split; intros [=].
  - destruct Hdrv as (Hlen & Hk & Hrel).
    split; [done | split; [done | split; [| done]]]. split; [lia | done].
  - done.
  - destruct Hdrv as (Hlen & Hrel).
    split; [done | split; [done | split; [| done]]]. repeat split; [done.. | lia].
  - destruct Hdrv as (Hlen & Hrel & Hrd).
    split; [done | split; [by rewrite Hrel | split]].
    + split; [done |]. split; [lia |]. split; [done |]. split; [lia |].
      intros j w Hj. lia.
    + eapply Forall_impl; [exact Hws |]. intros w. by apply worker_inv_start.
  - destruct (ws !! k) as [w|] eqn:Hw; [| done].
    destruct (terminated w) eqn:Hterm; [| done]. simplify_eq.
    cbn [ready start releases driver workers].
    destruct Hdrv as (Hlen & Hrel & Hrd & Hk & Hjoined).
    split; [done | split; [done | split; [| done]]].
    split; [done |]. split; [done |]. split; [done |]. split; [lia |].
    intros j w' Hj Hw'. destruct (decide (j = k)) as [->|Hne].
    + congruence.
    + apply (Hjoined j); [lia | done].
  - destruct Hdrv as (Hlen & Hrel & Hrd & Hk & Hjoined).
    split; [done | split; [done | split; [| done]]].
    split; [done |]. split; [done |]. split; [done |].
    intros j w Hw. apply (Hjoined j); [| done].
    apply lookup_lt_Some in Hw. lia.
Qed.

Lemma driver_inv_bounds (s : state) :
  driver_inv N s → releases s ≤ 1 ∧ length (workers s) ≤ N.
Proof.
  unfold driver_inv. destruct (driver s); intros H; decompose [and] H; lia.
Qed.

(** Past the poll every worker has announced itself. *)
Lemma driver_inv_all_announced (s : state) :
  inv N checks_binding s →
  driver s ≠ DPoll → (∀ k, driver s ≠ DCreate k) →
  Forall (λ w, announced w = true) (workers s).
Proof.
  intros (Hready & _ & Hdrv & Hws) Hpoll Hcreate.
  apply (sum_increments_full _ _ Hws).
  unfold driver_inv in Hdrv. destruct (driver s) as [k| | |k|] eqn:Hd.
  - by destruct (Hcreate k).
  - done.
  - destruct Hdrv as (Hlen & _ & Hrd). lia.
  - destruct Hdrv as (Hlen & _ & Hrd & _). lia.
  - destruct Hdrv as (Hlen & _ & Hrd & _). lia.
Qed.

Lemma worker_step_live (ret : Z) (w w' : worker) (s : state) (rd' : Z) :
  worker_step checks_binding ret w s = Some (w', rd') → terminated w = false.
Proof. unfold worker_step, terminated. by destruct (pc w). Qed.

(** One move of a worker keeps its invariant, and changes [ready] only by the
    one increment of a worker that had not announced itself. *)
Lemma worker_step_worker_inv (ret : Z) (w w' : worker) (s : state) (rd' : Z) :
  worker_inv checks_binding (start s) w →
  start s = Z.of_nat (releases s) → releases s ≤ 1 →
  worker_step checks_binding ret w s = Some (w', rd') →
  worker_inv checks_binding (start s) w' ∧
  (rd' = ready s ∧ increments w' = increments w ∧ announced w' = announced w
   ∨ rd' = wrap_int (ready s + 1) ∧ increments w' = S (increments w) ∧
     announced w = false).
Proof.
  intros (Hi & Hb & Hr & Ht & Ha) Hstart Hrel. unfold worker_step.
  destruct w as [p b n t]; cbn [pc bound increments timed] in *.
  unfold announced, released in *; cbn [pc] in *.
  assert (∀ q, q ≠ WExit → p = q → t = true → False) as Hnot_timed
    by (intros q Hq -> Htimed; by apply Ht in Htimed).
  destruct p; try done.
  - unfold cpu_binding.bind_to_cpu.
    destruct checks_binding; case_decide; cbn; intros [= <- <-];
      (split; [| left; done]); unfold worker_inv, announced, released; cbn;
      repeat split; eauto; try done; try (by intros [=]);
      intros Htimed; by destruct (Hnot_timed WBind).
  - intros [= <- <-]. split; [| right; done].
    unfold worker_inv, announced, released; cbn.
    destruct (Hb ltac:(done)) as [r Hbound].
    repeat split; eauto; try done; try lia; try (by intros [=]).
    intros Htimed; by destruct (Hnot_timed WReady).
  - case_decide; intros [= <- <-].
    + split; [| left; done]. by split_and!.
    + split; [| left; done]. unfold worker_inv, announced, released; cbn.
      destruct (Hb ltac:(done)) as [r Hbound].
      repeat split; eauto; try done; try lia; try (by intros [=]).
      intros Htimed; by destruct (Hnot_timed WSpin).
  - intros [= <- <-]. split; [| left; done].
    unfold worker_inv, announced, released; cbn.
    destruct (Hb ltac:(done)) as [r Hbound].
    repeat split; eauto; try done; try (by intros [=]).
Qed.

Lemma worker_move_inv (s s' : state) (i : nat) (ret : Z) :
  step N checks_binding s (Worker i ret) = Some s' →
  inv N checks_binding s → inv N checks_binding s'.
Proof.
  intros Hstep Hinv. pose proof Hinv as (Hready & Hstart & Hdrv & Hws).
  destruct (driver_inv_bounds s Hdrv) as [Hrel Hlen].
  unfold step in Hstep.
  destruct (workers s !! i) as [w|] eqn:Hw; [| done].
  destruct (worker_step checks_binding ret w s) as [[w' rd']|] eqn:Hmove; [| done].
  injection Hstep as <-.
  pose proof (worker_step_live _ _ _ _ _ Hmove) as Hlive.
  assert (worker_inv checks_binding (start s) w) as Hwinv
    by (by eapply Forall_lookup_1 in Hws).
  destruct (worker_step_worker_inv _ _ _ _ _ Hwinv Hstart Hrel Hmove)
    as [Hwinv' Hchange].
  assert (Forall (worker_inv checks_binding (start s)) (<[i:=w']> (workers s)))
    as Hws' by (by apply Forall_insert).
  pose proof (sum_increments_le _ _ Hws') as Hle'.
  rewrite length_insert in Hle'.
  pose proof (sum_increments_insert _ _ _ w' Hw) as Hsum.
  assert (rd' = Z.of_nat (sum_list_with increments (<[i:=w']> (workers s)))) as Hready'.
  { destruct Hchange as [(-> & Hsame & _)|(-> & Hsucc & _)].
    - rewrite Hready. f_equal. lia.
    - rewrite wrap_int_small; lia. }
  assert (∀ j x, workers s !! j = Some x → terminated x = true →
                 <[i:=w']> (workers s) !! j = Some x) as Hkeep.
  { intros j x Hx Hterm. rewrite list_lookup_insert_ne; [done |].
    intros <-. congruence. }
  split; [done |]. split; [done |]. split; [| done].
  unfold driver_inv in *. cbn [ready start releases driver workers].
  rewrite length_insert.
  destruct (driver s) as [k| | |k|] eqn:Hd; try done.
  - destruct Hdrv as (Hl & Hr0 & Hrd). split; [done |]. split; [done |].
    destruct Hchange as [(-> & _)|(_ & _ & Hnot)]; [done |].
    pose proof (driver_inv_all_announced s Hinv) as Hall.
    rewrite Hd in Hall. specialize (Hall ltac:(done) ltac:(done)).
    eapply Forall_lookup_1 in Hall; [| exact Hw]. congruence.
  - destruct Hdrv as (Hl & Hr1 & Hrd & Hk & Hjoined).
    split; [done |]. split; [done |]. split.
    + destruct Hchange as [(-> & _)|(_ & _ & Hnot)]; [done |].
      pose proof (driver_inv_all_announced s Hinv) as Hall.
      rewrite Hd in Hall. specialize (Hall ltac:(done) ltac:(done)).
      eapply Forall_lookup_1 in Hall; [| exact Hw]. congruence.
    + split; [done |]. intros j x Hj Hx.
      destruct (decide (j = i)) as [->|Hne].
      * specialize (Hjoined i w Hj Hw). congruence.
      * rewrite list_lookup_insert_ne in Hx by done. by apply (Hjoined j).
  - destruct Hdrv as (Hl & Hr1 & Hrd & Hjoined).
    specialize (Hjoined i w Hw). congruence.
Qed.

Lemma step_inv (s s' : state) (a : action) :
  step N checks_binding s a = Some s' →
  inv N checks_binding s → inv N checks_binding s'.
Proof.
  destruct a as [|i ret].
  - apply driver_step_inv.
  - apply worker_move_inv.
Qed.

Lemma init_inv : inv N checks_binding init.
Proof.
  unfold inv, driver_inv. cbn. split_and!; try done. lia.
Qed.

Lemma run_inv (schedule : list action) :
  ∀ s s', run N checks_binding schedule s = Some s' →
          inv N checks_binding s → inv N checks_binding s'.
Proof.
  induction schedule as [|a rest IH]; intros s s' Hrun Hinv; cbn in Hrun.
  - by injection Hrun as <-.
  - destruct (step N checks_binding s a) as [s1|] eqn:Hstep; [| done].
    eapply IH; [exact Hrun |]. by eapply step_inv.
Qed.

(** The number of executions of [start = 1] never decreases along a run. *)
Lemma run_releases_mono (schedule : list action) :
  ∀ s s', run N checks_binding schedule s = Some s' → releases s ≤ releases s'.
Proof.
  induction schedule as [|a rest IH]; intros s s' Hrun; cbn in Hrun.
  - injection Hrun as <-. lia.
  - destruct (step N checks_binding s a) as [s1|] eqn:Hstep; [| done].
    specialize (IH _ _ Hrun). etrans; [| exact IH].
    destruct a as [|i ret]; cbn in Hstep.
    + unfold driver_step in Hstep.
      destruct (driver s); repeat case_decide; simplify_eq; cbn; try lia.
      destruct (workers s !! k) as [w|]; [| done].
      destruct (terminated w); [| done]. simplify_eq. cbn. lia.
    + destruct (workers s !! i) as [w|]; [| done].
      destruct (worker_step checks_binding ret w s) as [[w' rd']|]; [| done].
      simplify_eq. cbn. lia.
Qed.
End Rendezvous.

(** C1: in every run of a driver against [N] workers, under any schedule,
    - [start = 1] is executed at most once, [start] is 1 exactly when it has
      been, and then [ready] equals [N];
    - every worker increments [ready] at most once; a worker that spins on
      [start], or is past it, has incremented it exactly once, after
      [bind_to_cpu] returned; a worker past the spin has seen the release;
    - once the driver has joined all workers, [ready = N], [start = 1], the
      release has happened exactly once, and each of the [N] workers has
      incremented [ready] exactly once and recorded its elapsed time. *)
Theorem rendezvous_protocol
    (N : nat) (checks_binding : bool) (schedule : list barrier.action)
    (s : barrier.state) :
  (Z.of_nat N < 2 ^ 31)%Z →
  barrier.run N checks_binding schedule barrier.init = Some s →
  (barrier.releases s ≤ 1 ∧
   barrier.start s = Z.of_nat (barrier.releases s) ∧
   (barrier.start s = 1%Z → barrier.ready s = Z.of_nat N)) ∧
  Forall (λ w,
      barrier.increments w ≤ 1 ∧
      (barrier.announced w = true →
       barrier.increments w = 1 ∧ ∃ r, barrier.bound w = Some r) ∧
      (barrier.released w = true →
       barrier.start s = 1%Z ∧ barrier.ready s = Z.of_nat N))
    (barrier.workers s) ∧
  (barrier.driver s = barrier.DDone →
   barrier.ready s = Z.of_nat N ∧ barrier.start s = 1%Z ∧ barrier.releases s = 1 ∧
   length (barrier.workers s) = N ∧
   Forall (λ w, barrier.pc w = barrier.WExit ∧ barrier.increments w = 1 ∧
                barrier.timed w = true)
     (barrier.workers s)).
Proof.
  intros HN Hrun.
  pose proof (run_inv N checks_binding HN schedule _ _ Hrun
                (init_inv N checks_binding)) as Hinv.
  pose proof Hinv as (Hready & Hstart & Hdrv & Hws).
  destruct (driver_inv_bounds N s Hdrv) as [Hrel Hlen].
  assert (barrier.start s = 1%Z → barrier.ready s = Z.of_nat N) as Hreleased.
  { intros H1. unfold barrier.driver_inv in Hdrv.
    destruct (barrier.driver s); decompose [and] Hdrv; try done; lia. }
  split; [done |]. split.
  - eapply Forall_impl; [exact Hws |]. intros w (Hi & Hb & Hr & Ht & Ha).
    split; [destruct (barrier.announced w); lia |]. split.
    + intros Hann. rewrite Hann in Hi. split; [done |]. apply Hb.
      unfold barrier.announced in Hann. by destruct (barrier.pc w).
    + intros Hr'. split; auto.
  - intros Hdone.
    pose proof (driver_inv_all_announced N checks_binding s Hinv) as Hall.
    rewrite Hdone in Hall. specialize (Hall ltac:(done) ltac:(done)).
    unfold barrier.driver_inv in Hdrv. rewrite Hdone in Hdrv.
    destruct Hdrv as (Hl & Hr1 & Hrd & Hterm).
    split; [done |]. split; [lia |]. split; [done |]. split; [done |].
    apply Forall_lookup_2. intros j w Hw.
    specialize (Hterm j w Hw).
    eapply Forall_lookup_1 in Hall; [| exact Hw].
    eapply Forall_lookup_1 in Hws; [| exact Hw].
    destruct Hws as (Hi & _ & _ & Ht & _). cbn in Hall. rewrite Hall in Hi.
    unfold barrier.announced, barrier.terminated in *.
    destruct (barrier.pc w) eqn:Hpc; try done.
    split; [done |]. split; [done |]. by apply Ht.
Qed.

Lemma rendezvous_protocol_witness :
  ∃ s, barrier.run 2 false barrier.two_worker_schedule barrier.init = Some s ∧
       barrier.driver s = barrier.DDone ∧
       barrier.ready s = 2%Z ∧ barrier.start s = 1%Z ∧ barrier.releases s = 1.
Proof.
  eexists. split; [vm_compute; reflexivity |]. split; [reflexivity |].
  destruct (rendezvous_protocol 2 false barrier.two_worker_schedule _
              ltac:(reflexivity) ltac:(vm_compute; reflexivity)) as (_ & _ & Hjoined).
  destruct (Hjoined eq_refl) as (Hready & Hstart & Hrel & _).
  split; [exact Hready |]. split; [exact Hstart | exact Hrel].
Defined.

(** The four workers of false_sharing.c, released together. *)
Example four_workers_complete :
  ∃ s, barrier.run 4 false barrier.four_worker_schedule barrier.init = Some s ∧
       barrier.driver s = barrier.DDone ∧
       barrier.ready s = 4%Z ∧ barrier.start s = 1%Z ∧ barrier.releases s = 1.
Proof. eexists. split; [vm_compute; reflexivity |]. by repeat split. Qed.

(** With a worker that tests its binding and returns on failure, as in
    dcache_contention.c, the driver never leaves its poll once a binding has
    been refused: no release happens after a worker has aborted. *)
Lemma aborted_worker_blocks_release
    (N : nat) (checks_binding : bool) (schedule : list barrier.action)
    (s : barrier.state) (j : nat) (w : barrier.worker) :
  (Z.of_nat N < 2 ^ 31)%Z →
  barrier.run N checks_binding schedule barrier.init = Some s →
  barrier.workers s !! j = Some w → barrier.pc w = barrier.WAbort →
  barrier.start s = 0%Z ∧ barrier.releases s = 0.
Proof.
  intros HN Hrun Hw Hpc.
  pose proof (run_inv N checks_binding HN schedule _ _ Hrun
                (init_inv N checks_binding)) as Hinv.
  pose proof Hinv as (Hready & Hstart & Hdrv & Hws).
  assert (barrier.releases s = 0) as Hrel; [| split; [lia | done]].
  pose proof (driver_inv_all_announced N checks_binding s Hinv) as Hall.
  unfold barrier.driver_inv in Hdrv.
  destruct (barrier.driver s) as [k| | |k|] eqn:Hd;
    try (by decompose [and] Hdrv);
    specialize (Hall ltac:(done) ltac:(done));
    eapply Forall_lookup_1 in Hall; try exact Hw;
    unfold barrier.announced in Hall; by rewrite Hpc in Hall.
Qed.

(** C3 (what the code does): [worker_thread] of latency_hiding.c, like that of
    every program but dcache_contention.c, drops the value [bind_to_cpu]
    returns.  In the run below the binding of worker 1 is refused
    ([bind_to_cpu] returns -1); the worker announces itself all the same, is
    released, runs its workload and records its elapsed time, and the run
    completes.  The worker of dcache_contention.c, on the same schedule
    prefix, returns before the rendezvous with nothing recorded. *)
Theorem refused_binding_is_ignored :
  (∃ s w,
     barrier.run 2 false barrier.refused_binding_schedule barrier.init = Some s ∧
     barrier.driver s = barrier.DDone ∧
     barrier.workers s !! 1 = Some w ∧
     barrier.bound w = Some (-1)%Z ∧
     barrier.pc w = barrier.WExit ∧ barrier.timed w = true) ∧
  (∃ s w,
     barrier.run 2 true (take 4 barrier.refused_binding_schedule) barrier.init = Some s ∧
     barrier.workers s !! 1 = Some w ∧
     barrier.bound w = Some (-1)%Z ∧
     barrier.pc w = barrier.WAbort ∧ barrier.timed w = false).
Proof.
  split; eexists _, _; (split; [vm_compute; reflexivity |]); repeat split; reflexivity.
Qed.

(** ** Placement of the padded counters *)

Lemma per_thread_size : false_sharing.size false_sharing.per_thread = 64%Z.
Proof. reflexivity. Qed.

(** C4: the element of the padded layout is 64 bytes, one cache line, and
    so, [good] being cache-line aligned, the counters of two different
    threads lie in different cache lines, each counter inside one line. *)
Theorem padded_counters_in_distinct_lines (base i j : Z) :
  false_sharing.cache_aligned base →
  (0 ≤ i < false_sharing.NUM_THREADS)%Z →
  (0 ≤ j < false_sharing.NUM_THREADS)%Z →
  i ≠ j →
  (prefetch_utils.CACHE_LINE_SIZE ≤ false_sharing.size false_sharing.per_thread)%Z ∧
  false_sharing.cache_line (false_sharing.good_counter_address base i)
    ≠ false_sharing.cache_line (false_sharing.good_counter_address base j) ∧
  false_sharing.cache_line (false_sharing.good_counter_address base i)
    = false_sharing.cache_line
        (false_sharing.good_counter_address base i + (sizeof_uint64 - 1)).
Proof.
  unfold false_sharing.cache_aligned, false_sharing.cache_line,
    false_sharing.good_counter_address.
  rewrite per_thread_size. unfold prefetch_utils.CACHE_LINE_SIZE, sizeof_uint64.
  intros Hbase Hi Hj Hne.
  assert (∀ k d, (0 ≤ d < 64)%Z → ((base + k * 64 + d) / 64 = base / 64 + k)%Z) as Hline.
  { intros k d Hd.
    replace (base + k * 64 + d)%Z with (base `mod` 64 + d + (base / 64 + k) * 64)%Z
      by (pose proof (Z.div_mod base 64); lia).
    rewrite Z.div_add by lia. rewrite Hbase. rewrite Z.div_small; lia. }
  split; [lia |]. split.
  - rewrite !Hline by lia. lia.
  - replace (base + i * 64 + 0 + (8 - 1))%Z with (base + i * 64 + 7)%Z by lia.
    rewrite !Hline by lia. done.
Qed.

Lemma padded_counters_in_distinct_lines_witness :
  false_sharing.cache_line (false_sharing.good_counter_address 4096 0)
    ≠ false_sharing.cache_line (false_sharing.good_counter_address 4096 1).
Proof.
  apply (padded_counters_in_distinct_lines 4096 0 1); [reflexivity | | | ];
    unfold false_sharing.NUM_THREADS; lia.
Defined.

(** X18: the packed layout, for contrast: all four counters of [bad] share
    the one cache line the structure starts in. *)
Lemma packed_counters_share_a_line (base i : Z) :
  false_sharing.cache_aligned base →
  (0 ≤ i < false_sharing.NUM_THREADS)%Z →
  false_sharing.cache_line (false_sharing.bad_counter_address base i)
  = false_sharing.cache_line (false_sharing.bad_counter_address base 0).
Proof.
  unfold false_sharing.cache_aligned, false_sharing.cache_line,
    false_sharing.bad_counter_address, false_sharing.NUM_THREADS,
    prefetch_utils.CACHE_LINE_SIZE.
  cbn [false_sharing.size false_sharing.uint64_t]. intros Hbase Hi.
  pose proof (Z.div_mod base 64 ltac:(lia)) as Hdm.
  replace (base + i * 8)%Z with (i * 8 + (base / 64) * 64)%Z by lia.
  replace (base + 0 * 8)%Z with (0 + (base / 64) * 64)%Z by lia.
  rewrite !Z.div_add by lia. by rewrite (Z.div_small (i * 8) 64) by lia.
Qed.

Lemma packed_counters_share_a_line_witness :
  false_sharing.cache_line (false_sharing.bad_counter_address 4096 3)
  = false_sharing.cache_line (false_sharing.bad_counter_address 4096 0).
Proof.
  apply (packed_counters_share_a_line 4096 3); [reflexivity |].
  unfold false_sharing.NUM_THREADS. lia.
Defined.

(** ** Blocked and naive matrix multiplication *)

Section MatmulProofs.
Import matrix_prefetch.
Context {F : Type}.
Variable fadd fmul : F → F → F.
Variable fzero : F.
Variable N : nat.
Variable BLOCK_SIZE : nat.
Hypothesis BLOCK_SIZE_pos : 0 < BLOCK_SIZE.
Variable A B : list F.

Local Abbreviation cell := (matrix_prefetch.cell fzero N).
Local Abbreviation acts := (matrix_prefetch.acts fzero N).
Local Abbreviation dot := (matrix_prefetch.dot fadd fmul fzero N A B).
Local Abbreviation get := (matrix_prefetch.get fzero).

Lemma for_each_empty {Σ : Type} (lo hi : nat) (body : nat → Σ → Σ) (s : Σ) :
  hi ≤ lo → for_each lo hi body s = s.
Proof. intros Hle. unfold for_each. by replace (hi - lo) with 0 by lia. Qed.

Lemma for_each_split {Σ : Type} (lo mid hi : nat) (body : nat → Σ → Σ) (s : Σ) :
  lo ≤ mid ≤ hi →
  for_each lo hi body s = for_each mid hi body (for_each lo mid body s).
Proof.
  intros Hle. unfold for_each.
  replace (hi - lo) with ((mid - lo) + (hi - mid)) by lia.
  rewrite seq_app, foldl_app. by replace (lo + (mid - lo)) with mid by lia.
Qed.

Lemma for_each_last {Σ : Type} (lo hi : nat) (body : nat → Σ → Σ) (s : Σ) :
  lo ≤ hi → for_each lo (S hi) body s = body hi (for_each lo hi body s).
Proof.
  intros Hle. rewrite (for_each_split lo hi (S hi)) by lia.
  unfold for_each at 1. by replace (S hi - hi) with 1 by lia.
Qed.

(** Row-major subscripts of two elements coincide only for one element. *)
Lemma subscript_inj (i j i' j' : nat) :
  j < N → j' < N → i * N + j = i' * N + j' → i = i' ∧ j = j'.
Proof.
  intros Hj Hj' Heq. destruct (Nat.lt_trichotomy i i') as [Hlt|[->|Hlt]].
  - pose proof (Nat.mul_le_mono_r (i + 1) i' N ltac:(lia)). lia.
  - lia.
  - pose proof (Nat.mul_le_mono_r (i' + 1) i N ltac:(lia)). lia.
Qed.

Lemma subscript_bound (i j : nat) : i < N → j < N → i * N + j < N * N.
Proof.
  intros Hi Hj. pose proof (Nat.mul_le_mono_r (i + 1) N N ltac:(lia)). lia.
Qed.

Lemma acts_region_ext (T : list F → list F) (R R' : nat → nat → Prop)
    (g : nat → nat → F → F) :
  (∀ i j, R i j ↔ R' i j) → acts T R g → acts T R' g.
Proof.
  intros Heq HT C Hlen. destruct (HT C Hlen) as [Hlen' Hcells].
  split; [done |]. intros i j Hi Hj. destruct (Hcells i j Hi Hj) as [Hin Hout].
  split; intros HR; [apply Hin | apply Hout]; by rewrite Heq.
Qed.

Lemma acts_fun_ext (T : list F → list F) (R : nat → nat → Prop)
    (g g' : nat → nat → F → F) :
  (∀ i j x, g i j x = g' i j x) → acts T R g → acts T R g'.
Proof.
  intros Heq HT C Hlen. destruct (HT C Hlen) as [Hlen' Hcells].
  split; [done |]. intros i j Hi Hj. destruct (Hcells i j Hi Hj) as [Hin Hout].
  split; [| done]. intros HR. rewrite <- Heq. by apply Hin.
Qed.

Lemma acts_skip (R : nat → nat → Prop) (g : nat → nat → F → F) :
  (∀ i j, ¬ R i j) → acts (λ C, C) R g.
Proof.
  intros Hempty C Hlen. split; [done |]. intros i j _ _.
  split; [| done]. intros HR. by destruct (Hempty i j).
Qed.

(** One after the other on disjoint regions. *)
Lemma acts_union (T1 T2 : list F → list F) (R1 R2 : nat → nat → Prop)
    (g : nat → nat → F → F) :
  (∀ i j, R1 i j → R2 i j → False) →
  acts T1 R1 g → acts T2 R2 g → acts (λ C, T2 (T1 C)) (λ i j, R1 i j ∨ R2 i j) g.
Proof.
  intros Hdisj H1 H2 C Hlen.
  destruct (H1 C Hlen) as [Hlen1 Hc1]. destruct (H2 (T1 C) Hlen1) as [Hlen2 Hc2].
  split; [done |]. intros i j Hi Hj.
  destruct (Hc1 i j Hi Hj) as [Hin1 Hout1]. destruct (Hc2 i j Hi Hj) as [Hin2 Hout2].
  split.
  - intros [HR1|HR2].
    + rewrite Hout2 by (intros HR2; by eapply Hdisj). by apply Hin1.
    + rewrite Hin2 by done. f_equal. apply Hout1. intros HR1. by eapply Hdisj.
  - intros Hnot. rewrite Hout2 by tauto. apply Hout1. tauto.
Qed.

(** One after the other on one region. *)
Lemma acts_compose (T1 T2 : list F → list F) (R : nat → nat → Prop)
    (g1 g2 : nat → nat → F → F) :
  acts T1 R g1 → acts T2 R g2 → acts (λ C, T2 (T1 C)) R (λ i j x, g2 i j (g1 i j x)).
Proof.
  intros H1 H2 C Hlen.
  destruct (H1 C Hlen) as [Hlen1 Hc1]. destruct (H2 (T1 C) Hlen1) as [Hlen2 Hc2].
  split; [done |]. intros i j Hi Hj.
  destruct (Hc1 i j Hi Hj) as [Hin1 Hout1]. destruct (Hc2 i j Hi Hj) as [Hin2 Hout2].
  split.
  - intros HR. rewrite Hin2 by done. f_equal. by apply Hin1.
  - intros Hnot. rewrite Hout2 by done. by apply Hout1.
Qed.

(** [C[i * N + j] = g(C[i * N + j]);] *)
Lemma acts_store (i j : nat) (g : nat → nat → F → F) :
  i < N → j < N →
  acts (λ C, <[i * N + j := g i j (get C (i * N + j))]> C) (rect i (S i) j (S j)) g.
Proof.
  intros Hi Hj C Hlen. split; [by rewrite length_insert |].
  intros i' j' Hi' Hj'. unfold matrix_prefetch.cell, matrix_prefetch.get, rect. split.
  - intros [? ?]. assert (i' = i) as -> by lia. assert (j' = j) as -> by lia.
    rewrite list_lookup_insert_eq; [done |].
    rewrite Hlen. by apply subscript_bound.
  - intros Hnot. rewrite list_lookup_insert_ne; [done |].
    intros Heq. apply subscript_inj in Heq; [| done..]. lia.
Qed.

(** A loop over columns whose iteration [j] acts on column [j] of a band of
    rows acts on the columns it has visited. *)
Lemma acts_for_each_cols (a b lo hi : nat) (body : nat → list F → list F)
    (g : nat → nat → F → F) :
  (∀ j, lo ≤ j < hi → acts (body j) (rect a b j (S j)) g) →
  acts (for_each lo hi body) (rect a b lo hi) g.
Proof.
  intros Hbody. destruct (decide (lo ≤ hi)) as [Hle|Hgt]; cycle 1.
  { intros C Hlen. rewrite for_each_empty by lia.
    apply (acts_skip (rect a b lo hi) g); [| done]. unfold rect. lia. }
  induction hi as [|hi IH].
  - intros C Hlen. rewrite for_each_empty by lia.
    apply (acts_skip (rect a b lo 0) g); [| done]. unfold rect. lia.
  - destruct (decide (lo = S hi)) as [->|Hne].
    + intros C Hlen. rewrite for_each_empty by lia.
      apply (acts_skip (rect a b (S hi) (S hi)) g); [| done]. unfold rect. lia.
    + intros C Hlen. rewrite for_each_last by lia. revert C Hlen.
      apply (acts_region_ext _ (λ i j, rect a b lo hi i j ∨ rect a b hi (S hi) i j)).
      { unfold rect. intros i j. lia. }
      apply (acts_union (for_each lo hi body) (body hi)).
      * unfold rect. lia.
      * apply IH; [| lia]. intros j Hj. apply Hbody. lia.
      * apply Hbody. lia.
Qed.

(** The same for a loop over rows. *)
Lemma acts_for_each_rows (c d lo hi : nat) (body : nat → list F → list F)
    (g : nat → nat → F → F) :
  (∀ i, lo ≤ i < hi → acts (body i) (rect i (S i) c d) g) →
  acts (for_each lo hi body) (rect lo hi c d) g.
Proof.
  intros Hbody. destruct (decide (lo ≤ hi)) as [Hle|Hgt]; cycle 1.
  { intros C Hlen. rewrite for_each_empty by lia.
    apply (acts_skip (rect lo hi c d) g); [| done]. unfold rect. lia. }
  induction hi as [|hi IH].
  - intros C Hlen. rewrite for_each_empty by lia.
    apply (acts_skip (rect lo 0 c d) g); [| done]. unfold rect. lia.
  - destruct (decide (lo = S hi)) as [->|Hne].
    + intros C Hlen. rewrite for_each_empty by lia.
      apply (acts_skip (rect (S hi) (S hi) c d) g); [| done]. unfold rect. lia.
    + intros C Hlen. rewrite for_each_last by lia. revert C Hlen.
      apply (acts_region_ext _ (λ i j, rect lo hi c d i j ∨ rect hi (S hi) c d i j)).
      { unfold rect. intros i j. lia. }
      apply (acts_union (for_each lo hi body) (body hi)).
      * unfold rect. lia.
      * apply IH; [| lia]. intros i Hi. apply Hbody. lia.
      * apply Hbody. lia.
Qed.

Lemma for_stride_S {Σ : Type} (fuel from bound stride : nat)
    (body : nat → Σ → Σ) (s : Σ) :
  for_stride (S fuel) from bound stride body s
  = if decide (from < bound)
    then for_stride fuel (from + stride) bound stride body (body from s)
    else s.
Proof. reflexivity. Qed.

(** The block loops leave by their test, not for want of fuel: any two
    amounts of fuel that cover the distance to the bound give one result. *)
Lemma for_stride_enough_fuel {Σ : Type} (bound stride : nat) (body : nat → Σ → Σ) :
  0 < stride →
  ∀ fuel fuel' from (s : Σ),
    bound ≤ from + fuel → bound ≤ from + fuel' →
    for_stride fuel from bound stride body s
    = for_stride fuel' from bound stride body s.
Proof.
  intros Hstride. induction fuel as [|fuel IH]; intros fuel' from s Hf Hf'.
  - destruct fuel' as [|fuel']; [done |].
    rewrite for_stride_S. by rewrite decide_False by lia.
  - destruct fuel' as [|fuel'].
    + rewrite for_stride_S. by rewrite decide_False by lia.
    + rewrite !for_stride_S. case_decide; [| done]. apply IH; lia.
Qed.

(** The block loop over columns [jj = from, from + BLOCK_SIZE, ...] acts on
    all columns from [from] on. *)
Lemma acts_for_stride_cols (a b : nat) (body : nat → list F → list F)
    (g : nat → nat → F → F) :
  (∀ jj, jj < N → acts (body jj) (rect a b jj ((jj + BLOCK_SIZE) `min` N)) g) →
  ∀ fuel from, N ≤ from + fuel →
    acts (for_stride fuel from N BLOCK_SIZE body) (rect a b from N) g.
Proof.
  intros Hbody. induction fuel as [|fuel IH]; intros from Hfuel.
  - apply (acts_skip (rect a b from N) g). unfold rect. lia.
  - intros C Hlen. rewrite for_stride_S. case_decide as Hlt; cycle 1.
    { apply (acts_skip (rect a b from N) g); [| done]. unfold rect. lia. }
    revert C Hlen.
    apply (acts_region_ext _
             (λ i j, rect a b from ((from + BLOCK_SIZE) `min` N) i j
                     ∨ rect a b (from + BLOCK_SIZE) N i j)).
    { unfold rect. intros i j. lia. }
    apply (acts_union (body from) (for_stride fuel (from + BLOCK_SIZE) N BLOCK_SIZE body)).
    + unfold rect. lia.
    + by apply Hbody.
    + apply IH. lia.
Qed.

(** The same for the block loop over rows. *)
Lemma acts_for_stride_rows (c d : nat) (body : nat → list F → list F)
    (g : nat → nat → F → F) :
  (∀ ii, ii < N → acts (body ii) (rect ii ((ii + BLOCK_SIZE) `min` N) c d) g) →
  ∀ fuel from, N ≤ from + fuel →
    acts (for_stride fuel from N BLOCK_SIZE body) (rect from N c d) g.
Proof.
  intros Hbody. induction fuel as [|fuel IH]; intros from Hfuel.
  - apply (acts_skip (rect from N c d) g). unfold rect. lia.
  - intros C Hlen. rewrite for_stride_S. case_decide as Hlt; cycle 1.
    { apply (acts_skip (rect from N c d) g); [| done]. unfold rect. lia. }
    revert C Hlen.
    apply (acts_region_ext _
             (λ i j, rect from ((from + BLOCK_SIZE) `min` N) c d i j
                     ∨ rect (from + BLOCK_SIZE) N c d i j)).
    { unfold rect. intros i j. lia. }
    apply (acts_union (body from) (for_stride fuel (from + BLOCK_SIZE) N BLOCK_SIZE body)).
    + unfold rect. lia.
    + by apply Hbody.
    + apply IH. lia.
Qed.

Lemma acts_id (R : nat → nat → Prop) (g : nat → nat → F → F) :
  (∀ i j x, g i j x = x) → acts (λ C, C) R g.
Proof.
  intros Hg C Hlen. split; [done |]. intros i j _ _. split; [| done].
  intros _. by rewrite Hg.
Qed.

(** The block loop over [kk] continues each element's chain block after
    block, in ascending [k]. *)
Lemma acts_for_stride_k (R : nat → nat → Prop) (body : nat → list F → list F) :
  (∀ kk, kk < N →
         acts (body kk) R (λ i j, dot i j kk ((kk + BLOCK_SIZE) `min` N))) →
  ∀ fuel from, N ≤ from + fuel →
    acts (for_stride fuel from N BLOCK_SIZE body) R (λ i j, dot i j from N).
Proof.
  intros Hbody. induction fuel as [|fuel IH]; intros from Hfuel.
  - apply acts_id. intros i j x. unfold matrix_prefetch.dot.
    by rewrite for_each_empty by lia.
  - intros C Hlen. rewrite for_stride_S. case_decide as Hlt; cycle 1.
    { apply (acts_id R (λ i j, dot i j from N)); [| done].
      intros i j x. unfold matrix_prefetch.dot. by rewrite for_each_empty by lia. }
    revert C Hlen.
    change (acts (λ C, for_stride fuel (from + BLOCK_SIZE) N BLOCK_SIZE body (body from C))
              R (λ i j, dot i j from N)).
    apply (acts_fun_ext _ _
             (λ i j x, dot i j (from + BLOCK_SIZE) N
                         (dot i j from ((from + BLOCK_SIZE) `min` N) x))).
    { intros i j x. unfold matrix_prefetch.dot.
      destruct (decide (from + BLOCK_SIZE ≤ N)) as [Hle|Hgt].
      - rewrite Nat.min_l by done.
        by rewrite (for_each_split from (from + BLOCK_SIZE) N) by lia.
      - rewrite Nat.min_r by lia. by rewrite (for_each_empty (from + BLOCK_SIZE)) by lia. }
    apply (acts_compose (body from)
             (for_stride fuel (from + BLOCK_SIZE) N BLOCK_SIZE body) R
             (λ i j, dot i j from ((from + BLOCK_SIZE) `min` N))
             (λ i j, dot i j (from + BLOCK_SIZE) N)).
    + by apply Hbody.
    + apply IH. lia.
Qed.

(** One block: the [i], [j] loops continue the chain of every element of the
    block over the columns [kk .. ke-1]. *)
Lemma acts_block (ii jj kk ke : nat) :
  acts (λ C,
      for_each ii ((ii + BLOCK_SIZE) `min` N) (λ i C,
        for_each jj ((jj + BLOCK_SIZE) `min` N) (λ j C,
          let sum :=
            for_each kk ke (λ k sum,
              fadd sum (fmul (get A (i * N + k)) (get B (k * N + j))))
              (get C (i * N + j)) in
          <[i * N + j := sum]> C) C) C)
    (rect ii ((ii + BLOCK_SIZE) `min` N) jj ((jj + BLOCK_SIZE) `min` N))
    (λ i j, dot i j kk ke).
Proof.
  apply acts_for_each_rows. intros i Hi.
  apply acts_for_each_cols. intros j Hj.
  apply (acts_store i j (λ i j, dot i j kk ke)); lia.
Qed.

Lemma matmul_blocked_acts :
  acts (matmul_blocked fadd fmul fzero N BLOCK_SIZE A B) (rect 0 N 0 N)
    (λ i j, dot i j 0 N).
Proof.
  unfold matmul_blocked.
  apply acts_for_stride_rows; [| lia]. intros ii Hii.
  apply acts_for_stride_cols; [| lia]. intros jj Hjj.
  apply acts_for_stride_k; [| lia]. intros kk Hkk.
  apply acts_block.
Qed.

Lemma matmul_naive_acts :
  acts (matmul_naive fadd fmul fzero N A B) (rect 0 N 0 N)
    (λ i j _, dot i j 0 N fzero).
Proof.
  unfold matmul_naive.
  apply acts_for_each_rows. intros i Hi.
  apply acts_for_each_cols. intros j Hj.
  apply (acts_store i j (λ i j _, dot i j 0 N fzero)); lia.
Qed.

(** Two matrices with the same elements are the same array. *)
Lemma cells_eq (C1 C2 : list F) :
  length C1 = N * N → length C2 = N * N →
  (∀ i j, i < N → j < N → cell C1 i j = cell C2 i j) → C1 = C2.
Proof.
  intros Hl1 Hl2 Hcells. apply list_eq_same_length with (N * N); [done.. |].
  intros idx x y Hidx Hx Hy.
  assert (0 < N) as HN by (destruct N; lia).
  pose proof (Nat.div_mod_eq idx N) as Hdm.
  pose proof (Nat.mod_upper_bound idx N ltac:(lia)) as Hmod.
  assert (idx `div` N < N) as Hdiv by (apply Nat.Div0.div_lt_upper_bound; lia).
  specialize (Hcells (idx `div` N) (idx `mod` N) Hdiv Hmod).
  unfold matrix_prefetch.cell, matrix_prefetch.get in Hcells.
  replace (idx `div` N * N + idx `mod` N) with idx in Hcells by lia.
  by rewrite Hx, Hy in Hcells.
Qed.

Lemma matmul_blocked_eq_naive (C : list F) :
  matmul_blocked fadd fmul fzero N BLOCK_SIZE A B (zero_matrix fzero N C)
  = matmul_naive fadd fmul fzero N A B (zero_matrix fzero N C).
Proof.
  assert (length (zero_matrix fzero N C) = N * N) as Hlen
    by apply length_replicate.
  destruct (matmul_blocked_acts _ Hlen) as [Hlb Hb].
  destruct (matmul_naive_acts _ Hlen) as [Hln Hn].
  apply cells_eq; [done.. |]. intros i j Hi Hj.
  destruct (Hb i j Hi Hj) as [Hbin _]. destruct (Hn i j Hi Hj) as [Hnin _].
  rewrite Hbin, Hnin by (unfold rect; lia).
  f_equal. unfold matrix_prefetch.cell, matrix_prefetch.get, zero_matrix.
  rewrite lookup_replicate_2; [done |]. by apply subscript_bound.
Qed.
End MatmulProofs.

(** C10: on a zeroed output matrix the blocked multiplication returns the
    matrix the naive one returns, for every number type and every sum and
    product on it, every size [N] and every block size above zero: each
    element is the same chain of multiply-accumulate steps in ascending [k],
    cut into blocks. *)
Theorem matmul_blocked_refines_naive
    {F : Type} (fadd fmul : F → F → F) (fzero : F) (N BLOCK_SIZE : nat)
    (A B C : list F) :
  0 < BLOCK_SIZE →
  length A = N * N → length B = N * N → length C = N * N →
  matrix_prefetch.run_test fzero N
    (matrix_prefetch.matmul_blocked fadd fmul fzero N BLOCK_SIZE) A B C
  = matrix_prefetch.run_test fzero N
      (matrix_prefetch.matmul_naive fadd fmul fzero N) A B C.
Proof.
  intros Hpos _ _ _. unfold matrix_prefetch.run_test.
  by apply matmul_blocked_eq_naive.
Qed.

Lemma matmul_blocked_refines_naive_witness :
  matrix_prefetch.run_test 0%Z 3
    (matrix_prefetch.matmul_blocked Z.add Z.mul 0%Z 3 2)
    [1; 2; 3; 4; 5; 6; 7; 8; 9]%Z [1; 0; 2; 0; 1; 0; 0; 0; 1]%Z (replicate 9 7%Z)
  = [1; 2; 5; 4; 5; 14; 7; 8; 23]%Z.
Proof.
  rewrite (matmul_blocked_refines_naive Z.add Z.mul 0%Z 3 2) by (reflexivity || lia).
  reflexivity.
Defined.

(** The program at its own constants, [N = 1024] and [BLOCK_SIZE = 64]. *)
Lemma matrix_prefetch_blocked_eq_naive
    {F : Type} (fadd fmul : F → F → F) (fzero : F) (A B C : list F) :
  matrix_prefetch.run_test fzero matrix_prefetch.N
    (matrix_prefetch.matmul_blocked fadd fmul fzero
       matrix_prefetch.N matrix_prefetch.BLOCK_SIZE) A B C
  = matrix_prefetch.run_test fzero matrix_prefetch.N
      (matrix_prefetch.matmul_naive fadd fmul fzero matrix_prefetch.N) A B C.
Proof.
  unfold matrix_prefetch.run_test. apply matmul_blocked_eq_naive.
  unfold matrix_prefetch.BLOCK_SIZE. lia.
Qed.

(* ================================================================== *)
(** * Further properties of the workloads and the harness *)

(** ** Scans over arbitrary contents *)

Lemma Zsum_snoc (l : list Z) (x : Z) : Zsum (l ++ [x]) = (Zsum l + x)%Z.
Proof. unfold Zsum. induction l as [|y l IH]; cbn; lia. Qed.

Lemma add64_wrap_l (x y : Z) : add64 (wrap64 x) y = wrap64 (x + y).
Proof. unfold add64, wrap64. by rewrite Zplus_mod_idemp_l. Qed.

Lemma scan_pass_sum (n : nat) (s : Z) (a : list Z) :
  n ≤ length a →
  for_up n 0 (λ i sum, v ← scan.load i; mret (add64 sum v)) (wrap64 s) a
  = Some (wrap64 (s + Zsum (take n a)), a).
Proof.
  intros Hlen.
  destruct (for_up_inv
              (λ i sum σ, σ = a ∧ sum = wrap64 (s + Zsum (take i a)))
              (λ i sum, v ← scan.load i; mret (add64 sum v)) n 0)
    with (a := wrap64 s) (σ := a) as (r & σ' & Hrun & -> & ->).
  - intros i sum σ Hi [-> ->].
    destruct (lookup_lt_is_Some_2 a i) as [x Hx]; [lia |].
    eexists _, _. unfold mbind, M_bind, m_bind, scan.load. rewrite Hx.
    split; [reflexivity |]. split; [done |].
    rewrite (take_S_r _ _ x) by done.
    rewrite Zsum_snoc, add64_wrap_l. f_equal. lia.
  - split; [done |]. cbn. by rewrite Z.add_0_r.
  - done.
Qed.

Lemma scan_passes_sum (iters n : nat) (a : list Z) :
  n ≤ length a →
  for_up iters 0 (λ _ sum,
    for_up n 0 (λ i sum, v ← scan.load i; mret (add64 sum v)) sum) 0%Z a
  = Some (wrap64 (Z.of_nat iters * Zsum (take n a)), a).
Proof.
  intros Hlen.
  destruct (for_up_inv
              (λ k sum σ, σ = a ∧ sum = wrap64 (Z.of_nat k * Zsum (take n a)))
              (λ _ sum, for_up n 0 (λ i sum, v ← scan.load i; mret (add64 sum v)) sum)
              iters 0)
    with (a := 0%Z) (σ := a) as (r & σ' & Hrun & -> & ->).
  - intros k sum σ Hk [-> ->]. eexists _, _. rewrite scan_pass_sum by done.
    split; [reflexivity |]. split; [done |]. f_equal. lia.
  - done.
  - done.
Qed.

Lemma scan_load_pure (i : nat) (sum r : Z) (a a' : list Z) :
  (v ← scan.load i; mret (add64 sum v)) a = Some (r, a') → a' = a.
Proof.
  unfold mbind, M_bind, m_bind, scan.load.
  destruct (a !! i); [| done]. cbn. by intros [= _ ->].
Qed.

Lemma scan_passes_fault (iters n : nat) (a : list Z) :
  length a < n → 0 < iters →
  for_up iters 0 (λ _ sum,
    for_up n 0 (λ i sum, v ← scan.load i; mret (add64 sum v)) sum) 0%Z a
  = None.
Proof.
  intros Hlen Hiters. destruct iters as [|iters]; [lia |].
  rewrite for_up_S.
  rewrite (for_up_fault (λ σ, σ = a) _ (length a)); [done | | | lia | done].
  - intros sum σ ->. unfold mbind, M_bind, m_bind, scan.load.
    by rewrite lookup_ge_None_2.
  - intros i sum σ r σ' -> Hbody. by apply scan_load_pure in Hbody.
Qed.

(** X1: on any array that holds at least [elements] words, whatever they are,
    [no_prefetch] and [sequential_no_prefetch] return [ITERATIONS] times the
    sum of the first [elements] words, modulo 2^64, and leave the array
    unchanged. *)
Theorem scan_checksum_is_sum (ARRAY_SIZE : Z) (ITERATIONS : nat) (a : list Z) :
  prefetch_hints.elements ARRAY_SIZE ≤ length a →
  prefetch_hints.no_prefetch ARRAY_SIZE ITERATIONS a
    = Some (wrap64 (Z.of_nat ITERATIONS
                    * Zsum (take (prefetch_hints.elements ARRAY_SIZE) a)), a) ∧
  sequential_prefetch.sequential_no_prefetch ARRAY_SIZE ITERATIONS a
    = Some (wrap64 (Z.of_nat ITERATIONS
                    * Zsum (take (prefetch_hints.elements ARRAY_SIZE) a)), a).
Proof.
  intros Hlen. split; by apply scan_passes_sum.
Qed.

Lemma scan_checksum_is_sum_witness :
  prefetch_hints.no_prefetch 32 3 [5; 18446744073709551615; 7; 9; 100]%Z
  = Some (60%Z, [5; 18446744073709551615; 7; 9; 100]%Z).
Proof.
  destruct (scan_checksum_is_sum 32 3 [5; 18446744073709551615; 7; 9; 100]%Z)
    as [Hscan _]; [vm_compute; lia |].
  rewrite Hscan. reflexivity.
Defined.

(** X2: on an array shorter than [elements] words the scans read past its
    end in their first pass, as soon as they make one. *)
Theorem scan_of_short_array_faults (ARRAY_SIZE : Z) (ITERATIONS : nat) (a : list Z) :
  length a < prefetch_hints.elements ARRAY_SIZE →
  0 < ITERATIONS →
  prefetch_hints.no_prefetch ARRAY_SIZE ITERATIONS a = None ∧
  sequential_prefetch.sequential_no_prefetch ARRAY_SIZE ITERATIONS a = None.
Proof.
  intros Hlen Hiters. split; by apply scan_passes_fault.
Qed.

Lemma scan_of_short_array_faults_witness :
  prefetch_hints.no_prefetch 32 3 [5; 6; 7]%Z = None.
Proof.
  apply (scan_of_short_array_faults 32 3 [5; 6; 7]%Z); vm_compute; lia.
Defined.


(** ** Cache flushing before a run *)

Lemma for_step_S {Σ A : Type} (fuel from bound stride : nat)
    (body : nat → A → M Σ A) (a : A) (σ : Σ) :
  for_step (S fuel) from bound stride body a σ
  = if decide (from < bound)
    then match body from a σ with
         | Some (a', σ') => for_step fuel (from + stride) bound stride body a' σ'
         | None => None
         end
    else Some (a, σ).
Proof. cbn. by case_decide. Qed.

(** A flush loop with stride [stride] over [n * stride] elements flushes the
    elements [j * stride], [(j + 1) * stride], ... in turn. *)
Lemma flush_loop_spec (len stride n : nat) :
  0 < stride → n * stride ≤ len →
  ∀ fuel j flushed,
    j ≤ n → n * stride ≤ j * stride + fuel →
    for_step fuel (j * stride) (n * stride) stride
      (λ i _, prefetch_utils.CLFLUSH len i) () flushed
    = Some ((), flushed ++ ((λ k, k * stride) <$> seq j (n - j))).
Proof.
  intros Hstride Hlen. induction fuel as [|fuel IH]; intros j flushed Hj Hfuel.
  - assert (j = n) as ->.
    { apply Nat.le_antisymm; [done |].
      apply (Nat.mul_le_mono_pos_r _ _ stride); lia. }
    cbn. by rewrite Nat.sub_diag, app_nil_r.
  - rewrite for_step_S. case_decide as Hlt.
    + assert (j < n) as Hjn by (by apply Nat.mul_lt_mono_pos_r in Hlt).
      unfold prefetch_utils.CLFLUSH at 1. rewrite decide_True by lia.
      replace (j * stride + stride) with (S j * stride) by lia.
      rewrite IH by lia. f_equal. f_equal. rewrite <- app_assoc. f_equal.
      replace (n - j) with (S (n - S j)) by lia. done.
    + assert (j = n) as ->.
      { apply Nat.le_antisymm; [done |].
        apply (Nat.mul_le_mono_pos_r _ _ stride); lia. }
      by rewrite Nat.sub_diag, app_nil_r.
Qed.

Lemma flush_whole_array (bound len stride : nat) (flushed : list nat) :
  0 < stride → bound `mod` stride = 0 → bound ≤ len →
  for_step bound 0 bound stride (λ i _, prefetch_utils.CLFLUSH len i) () flushed
  = Some ((), flushed ++ ((λ k, k * stride) <$> seq 0 (bound `div` stride))).
Proof.
  intros Hstride Hmod Hlen.
  assert (bound = bound `div` stride * stride) as Hbound.
  { pose proof (Nat.div_mod_eq bound stride). lia. }
  pose proof (flush_loop_spec len stride (bound `div` stride) Hstride
                ltac:(lia) bound 0 flushed ltac:(lia) ltac:(lia)) as Hloop.
  rewrite Nat.sub_0_r in Hloop. cbn [Nat.mul] in Hloop.
  by rewrite <- Hbound in Hloop.
Qed.

Lemma line_of_element_mul (k m : nat) :
  prefetch_utils.line_of_element (k * (8 * m)) = m * k.
Proof.
  unfold prefetch_utils.line_of_element.
  replace (k * (8 * m) * 8) with (m * k * 64) by lia. by rewrite Nat.div_mul.
Qed.

(** X4: [flush_cache] of prefetch_hints.c, on an array of a whole number of
    cache lines, flushes each cache line of the array exactly once, in
    ascending order. *)
Theorem flush_cache_covers_every_line (ARRAY_SIZE : Z) (len : nat) :
  prefetch_hints.elements ARRAY_SIZE `mod` 8 = 0 →
  prefetch_hints.elements ARRAY_SIZE ≤ len →
  ∃ flushed,
    prefetch_hints.flush_cache ARRAY_SIZE len [] = Some ((), flushed) ∧
    prefetch_utils.line_of_element <$> flushed
    = seq 0 (prefetch_hints.elements ARRAY_SIZE `div` 8).
Proof.
  intros Hmod Hlen. eexists. unfold prefetch_hints.flush_cache.
  rewrite (bind_Some _ _ _ _ _ (flush_whole_array _ len 8 [] ltac:(lia) Hmod Hlen)).
  split; [reflexivity |]. cbn [app].
  rewrite <- list_fmap_compose. apply list_eq. intros i.
  rewrite list_lookup_fmap. destruct (seq _ _ !! i) as [k|] eqn:Hk; [| done].
  cbn [fmap option_fmap option_map compose]. f_equal.
  replace (k * 8) with (k * (8 * 1)) by lia.
  rewrite (line_of_element_mul k 1). lia.
Qed.

Lemma flush_cache_covers_every_line_witness :
  ∃ flushed,
    prefetch_hints.flush_cache 256 32 [] = Some ((), flushed) ∧
    prefetch_utils.line_of_element <$> flushed = [0; 1; 2; 3].
Proof.
  apply (flush_cache_covers_every_line 256 32); [reflexivity | vm_compute; lia].
Defined.

(** X5: the cold-start loop of [run_test] in sequential_prefetch.c steps by
    64 elements, eight cache lines: on an array of a whole number of such
    steps it flushes one line in eight, the lines 0, 8, 16, ..., and no
    other. *)
Theorem cold_start_flushes_one_line_in_eight (ARRAY_SIZE : Z) (len : nat) :
  sequential_prefetch.elements ARRAY_SIZE `mod` 64 = 0 →
  sequential_prefetch.elements ARRAY_SIZE ≤ len →
  ∃ flushed,
    sequential_prefetch.cold_start ARRAY_SIZE len [] = Some ((), flushed) ∧
    prefetch_utils.line_of_element <$> flushed
    = (λ k, 8 * k) <$> seq 0 (sequential_prefetch.elements ARRAY_SIZE `div` 64).
Proof.
  intros Hmod Hlen. eexists. unfold sequential_prefetch.cold_start.
  rewrite (bind_Some _ _ _ _ _ (flush_whole_array _ len 64 [] ltac:(lia) Hmod Hlen)).
  split; [reflexivity |]. cbn [app].
  rewrite <- list_fmap_compose. apply list_eq. intros i.
  rewrite !list_lookup_fmap. destruct (seq _ _ !! i) as [k|] eqn:Hk; [| done].
  cbn [fmap option_fmap option_map compose]. f_equal.
  replace (k * 64) with (k * (8 * 8)) by lia.
  apply (line_of_element_mul k 8).
Qed.

Lemma cold_start_flushes_one_line_in_eight_witness :
  ∃ flushed,
    sequential_prefetch.cold_start 1024 128 [] = Some ((), flushed) ∧
    prefetch_utils.line_of_element <$> flushed = [0; 8].
Proof.
  apply (cold_start_flushes_one_line_in_eight 1024 128); [reflexivity | vm_compute; lia].
Defined.

(** ** The random walk of random_prefetch.c on the array [main] builds *)

Lemma store_array_loop_spec (n : nat) (m : random_prefetch.mem) :
  length (random_prefetch.array m) = n →
  for_up n 0 (λ i _, random_prefetch.store_array i (wrap64 (Z.of_nat i))) () m
  = Some ((), random_prefetch.Mem (identity_array n) (random_prefetch.indices m)).
Proof.
  intros Hlen.
  destruct (for_up_inv
              (λ i (_ : ()) σ,
                 σ = random_prefetch.Mem
                       (identity_array i ++ drop i (random_prefetch.array m))
                       (random_prefetch.indices m))
              (λ i _, random_prefetch.store_array i (wrap64 (Z.of_nat i))) n 0)
    with (a := ()) (σ := m) as ([] & σ' & Hrun & Hpost).
  - intros i [] σ Hi ->. eexists (), _. unfold random_prefetch.store_array.
    cbn [random_prefetch.array random_prefetch.indices].
    rewrite decide_True by (rewrite length_app, identity_array_length, length_drop; lia).
    split; [reflexivity |]. f_equal.
    destruct (lookup_lt_is_Some_2 (random_prefetch.array m) i) as [x Hx]; [lia |].
    rewrite identity_array_succ, <- app_assoc, (drop_S _ x) by done.
    rewrite insert_app_r_alt by (rewrite identity_array_length; lia).
    by rewrite identity_array_length, Nat.sub_diag.
  - destruct m as [arr idxs]. cbn. by rewrite drop_0.
  - rewrite Hrun, Hpost. cbn. rewrite drop_ge by lia. by rewrite app_nil_r.
Qed.

(** The walk adds the array elements at the indices it reads. *)
Lemma random_no_prefetch_sum (ACCESS_COUNT : nat) (m : random_prefetch.mem)
    (value : Z → Z) :
  ACCESS_COUNT ≤ length (random_prefetch.indices m) →
  (∀ i idx, i < ACCESS_COUNT → random_prefetch.indices m !! i = Some idx →
            random_prefetch.array m !! Z.to_nat idx = Some (value idx)) →
  random_prefetch.random_no_prefetch ACCESS_COUNT m
  = Some (wrap64 (Zsum (value <$> take ACCESS_COUNT (random_prefetch.indices m))), m).
Proof.
  intros Hlen Hval. unfold random_prefetch.random_no_prefetch.
  destruct (for_up_inv
              (λ i sum σ,
                 σ = m ∧
                 sum = wrap64 (Zsum (value <$> take i (random_prefetch.indices m))))
              (λ i sum, idx ← random_prefetch.load_index i;
                        v ← random_prefetch.load_array idx;
                        mret (add64 sum v)) ACCESS_COUNT 0)
    with (a := 0%Z) (σ := m) as (r & σ' & Hrun & -> & ->); [| done | done].
  intros i sum σ Hi [-> ->].
  destruct (lookup_lt_is_Some_2 (random_prefetch.indices m) i) as [idx Hidx]; [lia |].
  specialize (Hval i idx ltac:(lia) Hidx).
  eexists _, _.
  unfold mbind, M_bind, m_bind, random_prefetch.load_index, random_prefetch.load_array.
  rewrite Hidx, Hval. split; [reflexivity |]. split; [done |].
  rewrite (take_S_r _ _ idx) by done.
  rewrite fmap_app. change (value <$> [idx]) with [value idx].
  by rewrite Zsum_snoc, add64_wrap_l.
Qed.

Lemma wrap64_add_l (x y : Z) : wrap64 (wrap64 x + y) = wrap64 (x + y).
Proof. unfold wrap64. by rewrite Zplus_mod_idemp_l. Qed.

Lemma wrap64_add_r (x y : Z) : wrap64 (x + wrap64 y) = wrap64 (x + y).
Proof. unfold wrap64. by rewrite Zplus_mod_idemp_r. Qed.

Lemma Zsum_wrap64_map (l : list Z) : wrap64 (Zsum (wrap64 <$> l)) = wrap64 (Zsum l).
Proof.
  induction l as [|x l IH]; [done |].
  change (wrap64 (wrap64 x + Zsum (wrap64 <$> l)) = wrap64 (x + Zsum l)).
  by rewrite wrap64_add_l, <- wrap64_add_r, IH, wrap64_add_r.
Qed.

(** X6: [main] of random_prefetch.c stores [array[i] = i] and generates the
    index buffer; on that memory [random_no_prefetch] returns the sum, modulo
    2^64, of the first [ACCESS_COUNT] generated indices. *)
Theorem random_walk_checksum_is_index_sum
    (ARRAY_SIZE : Z) (ACCESS_COUNT PREFETCH_AHEAD : nat) (m : random_prefetch.mem) :
  (0 < random_prefetch.elements ARRAY_SIZE)%Z →
  random_prefetch.allocated ARRAY_SIZE ACCESS_COUNT PREFETCH_AHEAD m →
  ∃ g,
    random_prefetch.init ARRAY_SIZE ACCESS_COUNT PREFETCH_AHEAD m = Some ((), g) ∧
    random_prefetch.array g
      = identity_array (Z.to_nat (random_prefetch.elements ARRAY_SIZE)) ∧
    random_prefetch.random_no_prefetch ACCESS_COUNT g
      = Some (wrap64 (Zsum (lcg_indices (random_prefetch.elements ARRAY_SIZE)
                              ACCESS_COUNT 12345)), g).
Proof.
  intros Hel [Harr Hidx]. unfold random_prefetch.init.
  pose proof (store_array_loop_spec _ m Harr) as Hstore.
  rewrite (bind_Some _ _ _ _ _ Hstore).
  rewrite generate_random_indices_spec
    by (cbn [random_prefetch.indices]; lia).
  cbn [random_prefetch.array random_prefetch.indices].
  eexists. split; [reflexivity |]. split; [done |].
  rewrite (random_no_prefetch_sum ACCESS_COUNT _ wrap64).
  - cbn [random_prefetch.indices]. f_equal. f_equal.
    rewrite take_app_le by (rewrite lcg_indices_length; lia).
    rewrite Zsum_wrap64_map. f_equal. f_equal.
    clear. revert PREFETCH_AHEAD. generalize 12345%Z.
    induction ACCESS_COUNT as [|n IH]; intros seed k; [done |].
    cbn. f_equal. apply IH.
  - cbn [random_prefetch.indices].
    rewrite length_app, lcg_indices_length, length_drop. lia.
  - cbn [random_prefetch.indices random_prefetch.array]. intros i idx Hi Hlook.
    rewrite lookup_app_l in Hlook by (rewrite lcg_indices_length; lia).
    apply lcg_indices_bound in Hlook; [| done].
    rewrite identity_array_lookup by lia. by rewrite Z2Nat.id by lia.
Qed.

Lemma random_walk_checksum_is_index_sum_witness :
  ∃ g,
    random_prefetch.init 64 3 2
      (random_prefetch.Mem (replicate 8 99%Z) [7; 7; 7; 7; 7; 7]%Z) = Some ((), g) ∧
    random_prefetch.array g = [0; 1; 2; 3; 4; 5; 6; 7]%Z ∧
    random_prefetch.random_no_prefetch 3 g = Some (13%Z, g).
Proof.
  apply (random_walk_checksum_is_index_sum 64 3 2
           (random_prefetch.Mem (replicate 8 99%Z) [7; 7; 7; 7; 7; 7]%Z)).
  - reflexivity.
  - split; reflexivity.
Defined.

(** ** prefetch_distance.c *)

Lemma distance_body_pure (i : nat) (sum r : Z) (m m' : random_prefetch.mem) :
  (_ ← mret ();
   idx ← random_prefetch.load_index i;
   v ← random_prefetch.load_array idx;
   mret (add64 sum v)) m = Some (r, m') → m' = m.
Proof. apply random_no_prefetch_body_pure. Qed.

Lemma distance_prefetch_step (j : nat) (m : random_prefetch.mem) :
  (ahead ← random_prefetch.load_index j; prefetch_utils.PREFETCH_T0 ahead) m
  = match random_prefetch.indices m !! j with
    | Some _ => Some ((), m)
    | None => None
    end.
Proof.
  unfold mbind, M_bind, m_bind, random_prefetch.load_index.
  by destruct (random_prefetch.indices m !! j).
Qed.

(** A prefetch distance inside the margin of the index buffer changes
    nothing. *)
Lemma distance_within_margin
    (ACCESS_COUNT : nat) (distance : Z) (m : random_prefetch.mem) :
  ACCESS_COUNT + 256 ≤ length (random_prefetch.indices m) →
  (distance ≤ 256)%Z →
  prefetch_distance_mem.random_access_with_distance ACCESS_COUNT distance m
  = prefetch_distance_mem.random_access_with_distance ACCESS_COUNT 0 m.
Proof.
  intros Hlen Hd. unfold prefetch_distance_mem.random_access_with_distance.
  apply (for_up_ext_inv (λ σ, σ = m)); [| | done].
  - intros i sum σ Hi ->. case_decide as Hpos; [| done].
    rewrite decide_False by lia.
    destruct (lookup_lt_is_Some_2 (random_prefetch.indices m) (i + Z.to_nat distance))
      as [ahead Hahead]; [lia |].
    pose proof (distance_prefetch_step (i + Z.to_nat distance) m) as Hpre.
    rewrite Hahead in Hpre. by rewrite (bind_Some _ _ _ _ _ Hpre).
  - intros i sum σ r σ' _ -> Hbody. rewrite decide_False in Hbody by lia.
    by apply distance_body_pure in Hbody.
Qed.

(** X7: the index buffer of prefetch_distance.c has 256 entries of margin.
    With a prefetch distance of at most 256 (every distance [main] tests)
    [random_access_with_distance] returns what it returns without prefetch;
    with a larger one it reads past the end of the buffer. *)
Theorem prefetch_distance_margin
    (ACCESS_COUNT : nat) (distance : Z) (m : random_prefetch.mem) :
  length (random_prefetch.indices m) = ACCESS_COUNT + 256 →
  ((distance ≤ 256)%Z →
   prefetch_distance_mem.random_access_with_distance ACCESS_COUNT distance m
   = prefetch_distance_mem.random_access_with_distance ACCESS_COUNT 0 m) ∧
  ((256 < distance)%Z → 0 < ACCESS_COUNT →
   prefetch_distance_mem.random_access_with_distance ACCESS_COUNT distance m = None).
Proof.
  intros Hlen. split.
  - intros Hd. apply distance_within_margin; [lia | done].
  - intros Hd Hpos. unfold prefetch_distance_mem.random_access_with_distance.
    apply (for_up_fault (λ σ, σ = m) _ (ACCESS_COUNT - 1)); [| | lia | done].
    + intros sum σ ->. rewrite decide_True by lia.
      apply bind_None. rewrite distance_prefetch_step.
      by rewrite lookup_ge_None_2 by lia.
    + intros i sum σ r σ' ->. case_decide as Hpos'; [| lia].
      pose proof (distance_prefetch_step (i + Z.to_nat distance) m) as Hpre.
      destruct (random_prefetch.indices m !! (i + Z.to_nat distance)).
      * rewrite (bind_Some _ _ _ _ _ Hpre). apply random_no_prefetch_body_pure.
      * by rewrite (bind_None _ _ _ Hpre).
Qed.

Lemma prefetch_distance_margin_witness :
  prefetch_distance_mem.random_access_with_distance 2 256
    (random_prefetch.Mem [10; 20; 30]%Z (replicate 258 1%Z))
  = prefetch_distance_mem.random_access_with_distance 2 0
      (random_prefetch.Mem [10; 20; 30]%Z (replicate 258 1%Z)) ∧
  prefetch_distance_mem.random_access_with_distance 2 257
    (random_prefetch.Mem [10; 20; 30]%Z (replicate 258 1%Z)) = None.
Proof.
  destruct (prefetch_distance_margin 2 256
              (random_prefetch.Mem [10; 20; 30]%Z (replicate 258 1%Z)) eq_refl)
    as [Hin _].
  destruct (prefetch_distance_margin 2 257
              (random_prefetch.Mem [10; 20; 30]%Z (replicate 258 1%Z)) eq_refl)
    as [_ Hout].
  split; [apply Hin; lia | apply Hout; lia].
Defined.

(** ** Scans that write back *)

Lemma land_255_bound (x : Z) : (0 ≤ Z.land x 255 < 256)%Z.
Proof.
  change 255%Z with (Z.ones 8). rewrite Z.land_ones by lia.
  apply Z.mod_pos_bound. lia.
Qed.

(** One step [sum += array[i]; array[i] = f(sum);] on an element the array
    has. *)
Lemma write_back_step (f : Z → Z) (i : nat) (sum v : Z) (a : list Z) :
  a !! i = Some v →
  (v ← scan.load i;
   let sum := add64 sum v in
   _ ← scan.store i (f sum);
   mret sum) a
  = Some (add64 sum v, <[i := f (add64 sum v)]> a).
Proof.
  intros Hv. unfold mbind, M_bind, m_bind, scan.load, scan.store. rewrite Hv.
  cbn. by rewrite decide_True by (by eapply lookup_lt_Some).
Qed.

Lemma running_low_bytes_succ (a : list Z) (n : nat) :
  running_low_bytes a (S n)
  = running_low_bytes a n ++ [Z.land (wrap64 (Zsum (take (S n) a))) 255].
Proof. unfold running_low_bytes. by rewrite seq_S, fmap_app. Qed.

Lemma running_low_bytes_length (a : list Z) (n : nat) :
  length (running_low_bytes a n) = n.
Proof. unfold running_low_bytes. by rewrite length_fmap, length_seq. Qed.


(** X9: on an array of at least [elements] words [process_no_prefetch]
    returns the sum of the first [elements] words modulo 2^64, replaces each
    of them by the low byte of the running sum up to it, and leaves the
    words after them as they were. *)
Theorem process_no_prefetch_spec (elements : nat) (a : list Z) :
  elements ≤ length a →
  combined_test_workload.process_no_prefetch elements a
  = Some (wrap64 (Zsum (take elements a)),
          running_low_bytes a elements ++ drop elements a).
Proof.
  intros Hlen. unfold combined_test_workload.process_no_prefetch.
  destruct (for_up_inv
              (λ i sum σ, sum = wrap64 (Zsum (take i a)) ∧
                          σ = running_low_bytes a i ++ drop i a)
              (λ i sum, v ← scan.load i;
                        let sum := add64 sum v in
                        _ ← scan.store i (Z.land sum 255);
                        mret sum) elements 0)
    with (a := 0%Z) (σ := a) as (r & σ' & Hrun & -> & ->).
  - intros i sum σ Hi [-> ->].
    destruct (lookup_lt_is_Some_2 a i) as [x Hx]; [lia |].
    eexists _, _. rewrite (write_back_step (λ s, Z.land s 255) i _ x).
    + split; [reflexivity |].
      rewrite (take_S_r _ _ x), Zsum_snoc, add64_wrap_l by done.
      split; [done |].
      rewrite running_low_bytes_succ, <- app_assoc, (drop_S _ x) by done.
      rewrite insert_app_r_alt by (rewrite running_low_bytes_length; lia).
      rewrite running_low_bytes_length, Nat.sub_diag. cbn.
      by rewrite (take_S_r _ _ x), Zsum_snoc by done.
    + rewrite lookup_app_r by (rewrite running_low_bytes_length; lia).
      rewrite running_low_bytes_length, Nat.sub_diag.
      by rewrite lookup_drop, Nat.add_0_r.
  - split; [done |]. by rewrite drop_0.
  - done.
Qed.

Lemma process_no_prefetch_spec_witness :
  combined_test_workload.process_no_prefetch 3 [255; 2; 300; 7]%Z
  = Some (557%Z, [255; 1; 45; 7]%Z).
Proof.
  rewrite (process_no_prefetch_spec 3 [255; 2; 300; 7]%Z) by (cbn; lia).
  reflexivity.
Defined.

(** *** [sequential_access] of shared_cache.c *)

Section SequentialAccess.
Variable ITERATIONS : nat.
Variable start end_ : nat.

Local Abbreviation pass :=
  (for_up (end_ - start) start (λ i sum,
     v ← scan.load i;
     let sum := add64 sum v in
     _ ← scan.store i (Z.land sum 255);
     mret sum)).

(** One pass keeps the length, touches nothing outside the range and leaves
    a byte in every element of the range. *)
Lemma sequential_pass_frame (a : list Z) (sum : Z) :
  end_ ≤ length a →
  ∃ r a',
    pass sum a = Some (r, a') ∧
    length a' = length a ∧
    (∀ k, k < start ∨ end_ ≤ k → a' !! k = a !! k) ∧
    (∀ k, start ≤ k < end_ → is_byte_at a' k).
Proof.
  intros Hlen.
  destruct (for_up_inv
              (λ i (_ : Z) σ,
                 length σ = length a ∧
                 (∀ k, k < start ∨ end_ ≤ k → σ !! k = a !! k) ∧
                 (∀ k, start ≤ k < i → is_byte_at σ k))
              (λ i sum, v ← scan.load i;
                        let sum := add64 sum v in
                        _ ← scan.store i (Z.land sum 255);
                        mret sum) (end_ - start) start)
    with (a := sum) (σ := a) as (r & a' & Hrun & Hl & Hout & Hin).
  - intros i acc σ Hi (Hl & Hout & Hin).
    destruct (lookup_lt_is_Some_2 σ i) as [x Hx]; [lia |].
    eexists _, _. rewrite (write_back_step (λ s, Z.land s 255) i _ x) by done.
    split; [reflexivity |]. split; [by rewrite length_insert |]. split.
    + intros k Hk. rewrite list_lookup_insert_ne by lia. by apply Hout.
    + intros k Hk. destruct (decide (k = i)) as [->|Hne].
      * eexists. rewrite list_lookup_insert_eq by lia.
        split; [done |]. apply land_255_bound.
      * destruct (Hin k ltac:(lia)) as (v & Hv & Hb).
        exists v. by rewrite list_lookup_insert_ne by lia.
  - split; [done |]. split; [done |]. intros k Hk. lia.
  - exists r, a'. split; [done |]. split; [done |]. split; [done |].
    intros k Hk. apply Hin. lia.
Qed.

Lemma sequential_access_frame_aux (a : list Z) :
  end_ ≤ length a →
  ∃ r a',
    shared_cache_workload.sequential_access ITERATIONS start end_ a = Some (r, a') ∧
    length a' = length a ∧
    (∀ k, k < start ∨ end_ ≤ k → a' !! k = a !! k) ∧
    (0 < ITERATIONS → ∀ k, start ≤ k < end_ → is_byte_at a' k).
Proof.
  intros Hlen. unfold shared_cache_workload.sequential_access.
  destruct (for_up_inv
              (λ p (_ : Z) σ,
                 length σ = length a ∧
                 (∀ k, k < start ∨ end_ ≤ k → σ !! k = a !! k) ∧
                 (0 < p → ∀ k, start ≤ k < end_ → is_byte_at σ k))
              (λ _ sum, pass sum) ITERATIONS 0)
    with (a := 0%Z) (σ := a) as (r & a' & Hrun & Hpost).
  - intros p acc σ Hp (Hl & Hout & _).
    destruct (sequential_pass_frame σ acc ltac:(lia)) as (r & σ' & Hrun & Hl' & Hout' & Hin').
    exists r, σ'. split; [done |]. split; [lia |]. split.
    + intros k Hk. rewrite Hout' by done. by apply Hout.
    + done.
  - split; [done |]. split; [done |]. lia.
  - by exists r, a'.
Qed.

(** Two runs on arrays that agree on the range compute the same sums and
    keep agreeing on the range. *)
Lemma sequential_access_local (a b : list Z) :
  agree_on start end_ a b →
  same_outcome (agree_on start end_)
    (shared_cache_workload.sequential_access ITERATIONS start end_ a)
    (shared_cache_workload.sequential_access ITERATIONS start end_ b).
Proof.
  intros Hab. unfold shared_cache_workload.sequential_access.
  apply for_up_rel; [| done].
  intros p acc σ1 σ2 _ HR. apply for_up_rel; [| done].
  intros i sum τ1 τ2 Hi (Hl1 & Hl2 & Hsame).
  destruct (lookup_lt_is_Some_2 τ1 i) as [x Hx]; [lia |].
  pose proof Hx as Hx2. rewrite Hsame in Hx2 by lia.
  rewrite !(write_back_step (λ s, Z.land s 255) i _ x) by done.
  split; [done |]. split; [by rewrite length_insert |].
  split; [by rewrite length_insert |].
  intros k Hk. destruct (decide (k = i)) as [->|Hne].
  - by rewrite !list_lookup_insert_eq by lia.
  - rewrite !list_lookup_insert_ne by lia. by apply Hsame.
Qed.
End SequentialAccess.

(** X10: [sequential_access(start, end)] on an array that has the elements
    up to [end] returns, keeps the length of the array and every element
    outside [start .. end-1]; if it makes a pass at all, every element inside
    the range ends as a byte value. *)
Theorem sequential_access_frame (ITERATIONS start end_ : nat) (a : list Z) :
  end_ ≤ length a →
  ∃ r a',
    shared_cache_workload.sequential_access ITERATIONS start end_ a = Some (r, a') ∧
    length a' = length a ∧
    (∀ k, k < start ∨ end_ ≤ k → a' !! k = a !! k) ∧
    (0 < ITERATIONS → ∀ k, start ≤ k < end_ → is_byte_at a' k).
Proof. apply sequential_access_frame_aux. Qed.

Lemma sequential_access_frame_witness :
  ∃ r a',
    shared_cache_workload.sequential_access 2 1 3 [1000; 2000; 3000; 4000]%Z
      = Some (r, a') ∧
    length a' = 4 ∧
    (∀ k, k < 1 ∨ 3 ≤ k → a' !! k = [1000; 2000; 3000; 4000]%Z !! k) ∧
    (0 < 2 → ∀ k, 1 ≤ k < 3 → is_byte_at a' k).
Proof.
  apply (sequential_access_frame 2 1 3 [1000; 2000; 3000; 4000]%Z). cbn. lia.
Defined.

(** X11: the two workers of [run_dual_thread] in shared_cache.c work on
    disjoint halves of [shared_array].  For any two disjoint ranges, running
    [sequential_access] on one and then on the other gives the same two
    results and the same final array in either order. *)
Theorem sequential_access_disjoint_commute
    (ITERATIONS s1 e1 s2 e2 : nat) (a : list Z) :
  e1 ≤ s2 → s2 ≤ e2 → e2 ≤ length a →
  ∃ r1 r2 a1 b1 final,
    shared_cache_workload.sequential_access ITERATIONS s1 e1 a = Some (r1, a1) ∧
    shared_cache_workload.sequential_access ITERATIONS s2 e2 a1 = Some (r2, final) ∧
    shared_cache_workload.sequential_access ITERATIONS s2 e2 a = Some (r2, b1) ∧
    shared_cache_workload.sequential_access ITERATIONS s1 e1 b1 = Some (r1, final).
Proof.
  intros H12 H2 Hlen.
  destruct (sequential_access_frame_aux ITERATIONS s1 e1 a ltac:(lia))
    as (r1 & a1 & HA & HlA & HoutA & _).
  destruct (sequential_access_frame_aux ITERATIONS s2 e2 a1 ltac:(lia))
    as (r2 & fAB & HAB & HlAB & HoutAB & _).
  destruct (sequential_access_frame_aux ITERATIONS s2 e2 a ltac:(lia))
    as (r2' & b1 & HB & HlB & HoutB & _).
  destruct (sequential_access_frame_aux ITERATIONS s1 e1 b1 ltac:(lia))
    as (r1' & fBA & HBA & HlBA & HoutBA & _).
  pose proof (sequential_access_local ITERATIONS s2 e2 a1 a) as Hloc2.
  rewrite HAB, HB in Hloc2.
  destruct Hloc2 as [<- (_ & _ & Hag2)].
  { split; [lia |]. split; [lia |]. intros k Hk. apply HoutA. lia. }
  pose proof (sequential_access_local ITERATIONS s1 e1 a b1) as Hloc1.
  rewrite HA, HBA in Hloc1.
  destruct Hloc1 as [<- (_ & _ & Hag1)].
  { split; [lia |]. split; [lia |]. intros k Hk. symmetry. apply HoutB. lia. }
  assert (fAB = fBA) as <-.
  { apply list_eq. intros k.
    destruct (decide (s1 ≤ k < e1)) as [Hin1|Hout1].
    - rewrite HoutAB by lia. by apply Hag1.
    - destruct (decide (s2 ≤ k < e2)) as [Hin2|Hout2].
      + rewrite Hag2 by done. symmetry. apply HoutBA. lia.
      + rewrite HoutAB, HoutA, HoutBA, HoutB by lia. done. }
  by exists r1, r2, a1, b1, fAB.
Qed.

Lemma sequential_access_disjoint_commute_witness :
  ∃ r1 r2 a1 b1 final,
    shared_cache_workload.sequential_access 2 0 2 [1; 2; 3; 4]%Z = Some (r1, a1) ∧
    shared_cache_workload.sequential_access 2 2 4 a1 = Some (r2, final) ∧
    shared_cache_workload.sequential_access 2 2 4 [1; 2; 3; 4]%Z = Some (r2, b1) ∧
    shared_cache_workload.sequential_access 2 0 2 b1 = Some (r1, final).
Proof.
  apply (sequential_access_disjoint_commute 2 0 2 2 4 [1; 2; 3; 4]%Z); cbn; lia.
Defined.

(** *** [random_access_pattern] of dcache_contention.c *)

(** A strided loop with enough fuel is the counted loop over its
    iterations. *)
Lemma for_step_count {Σ A : Type} (bound stride n : nat) (body : nat → A → M Σ A) :
  0 < stride →
  (∀ k, k * stride < bound ↔ k < n) →
  ∀ fuel j a σ,
    bound ≤ (j + fuel) * stride →
    for_step fuel (j * stride) bound stride body a σ
    = for_up (n - j) j (λ k, body (k * stride)) a σ.
Proof.
  intros Hstride Hn. induction fuel as [|fuel IH]; intros j a σ Hfuel.
  - assert (¬ j < n) as Hj by (rewrite <- Hn; lia).
    by replace (n - j) with 0 by lia.
  - rewrite for_step_S. case_decide as Hlt.
    + apply Hn in Hlt. replace (n - j) with (S (n - S j)) by lia.
      rewrite for_up_S. destruct (body (j * stride) a σ) as [[a1 σ1]|]; [| done].
      replace (j * stride + stride) with (S j * stride) by lia.
      apply IH. lia.
    + assert (¬ j < n) as Hj by (by rewrite <- Hn).
      by replace (n - j) with 0 by lia.
Qed.

(** The number of iterations of [for (i = 0; i < bound; i += stride)]. *)
Lemma strided_count (bound stride : nat) :
  0 < stride →
  ∀ k, k * stride < bound ↔ k < (bound + stride - 1) `div` stride.
Proof.
  intros Hstride k.
  pose proof (Nat.div_mod_eq (bound + stride - 1) stride) as Hdm.
  pose proof (Nat.mod_upper_bound (bound + stride - 1) stride ltac:(lia)) as Hub.
  set (q := (bound + stride - 1) `div` stride) in *.
  set (r := (bound + stride - 1) `mod` stride) in *.
  split; intros H; nia.
Qed.

(** X12: [random_access_pattern] on an array that holds [size / 8] words
    returns, keeps the length of the array, and changes no element whose
    subscript is not a multiple of [STRIDE] or lies at or after [size / 8];
    if it makes a pass over a non-empty array, the checksum it returns is
    the value it leaves in the last element it visits. *)
Theorem random_access_pattern_frame
    (ITERATIONS STRIDE : nat) (size : Z) (a : list Z) :
  0 < STRIDE →
  Z.to_nat (size / sizeof_uint64) ≤ length a →
  ∃ r a',
    dcache_contention_workload.random_access_pattern ITERATIONS STRIDE size a
      = Some (r, a') ∧
    length a' = length a ∧
    (∀ k, k `mod` STRIDE ≠ 0 ∨ Z.to_nat (size / sizeof_uint64) ≤ k →
          a' !! k = a !! k) ∧
    (0 < ITERATIONS → 0 < Z.to_nat (size / sizeof_uint64) →
     a' !! ((Z.to_nat (size / sizeof_uint64) - 1) `div` STRIDE * STRIDE) = Some r).
Proof.
  intros Hstride Hlen. unfold dcache_contention_workload.random_access_pattern.
  cbn zeta. set (elements := Z.to_nat (size / sizeof_uint64)) in *.
  set (n := (elements + STRIDE - 1) `div` STRIDE).
  pose proof (strided_count elements STRIDE Hstride) as Hn. fold n in Hn.
  pose (frame := λ σ : list Z,
          length σ = length a ∧
          ∀ k, k `mod` STRIDE ≠ 0 ∨ elements ≤ k → σ !! k = a !! k).
  pose (I := λ (k : nat) (sum : Z) (σ : list Z),
          frame σ ∧ (0 < k → σ !! ((k - 1) * STRIDE) = Some sum)).
  pose (J := λ (p : nat) (sum : Z) (σ : list Z),
          frame σ ∧ (0 < p → 0 < n → σ !! ((n - 1) * STRIDE) = Some sum)).
  assert (∀ sum σ, frame σ →
            ∃ sum' σ',
              for_step elements 0 elements STRIDE (λ i sum,
                v ← scan.load i;
                let sum := add64 sum v in
                _ ← scan.store i sum;
                mret sum) sum σ = Some (sum', σ') ∧
              frame σ' ∧ (0 < n → σ' !! ((n - 1) * STRIDE) = Some sum'))
    as Hpass.
  { intros sum σ Hσ.
    change 0 with (0 * STRIDE) at 1.
    rewrite (for_step_count elements STRIDE n _ Hstride Hn) by nia.
    rewrite Nat.sub_0_r.
    destruct (for_up_inv I
                (λ k, (λ i sum, v ← scan.load i;
                                let sum := add64 sum v in
                                _ ← scan.store i sum;
                                mret sum) (k * STRIDE)) n 0)
      with (a := sum) (σ := σ) as (sum' & σ' & Hrun & Hfr & Hlast).
    - intros k acc τ [_ Hk] [[Hl Hout] _]. cbn in Hk.
      apply Hn in Hk.
      destruct (lookup_lt_is_Some_2 τ (k * STRIDE)) as [x Hx]; [lia |].
      eexists _, _. cbn beta.
      rewrite (write_back_step (λ s, s) (k * STRIDE) _ x) by done.
      split; [reflexivity |]. split; [split |].
      + by rewrite length_insert.
      + intros j Hj. rewrite list_lookup_insert_ne; [by apply Hout |].
        intros <-. rewrite Nat.Div0.mod_mul in Hj. lia.
      + intros _. replace (S k - 1) with k by lia.
        apply list_lookup_insert_eq. lia.
    - split; [done | lia].
    - exists sum', σ'. split; [exact Hrun |]. split; [done |].
      intros Hn0. apply Hlast. lia. }
  destruct (for_up_inv J
              (λ _ sum,
                 for_step elements 0 elements STRIDE (λ i sum,
                   v ← scan.load i;
                   let sum := add64 sum v in
                   _ ← scan.store i sum;
                   mret sum) sum) ITERATIONS 0)
    with (a := 0%Z) (σ := a) as (r & a' & Hrun & [Hl Hout] & Hlast).
  - intros p acc σ _ [Hfr _].
    destruct (Hpass acc σ Hfr) as (sum' & σ' & Hrun & Hfr' & Hlast).
    exists sum', σ'. split; [done |]. split; [done |]. intros _. exact Hlast.
  - split; [by split | lia].
  - exists r, a'. split; [exact Hrun |]. split; [done |]. split; [done |].
    intros Hit Hel. cbn in Hlast.
    assert (0 < n) as Hn0 by (apply Hn; lia).
    replace ((elements - 1) `div` STRIDE) with (n - 1); [by apply Hlast |].
    apply (Nat.div_unique _ _ _ ((elements - 1) - (n - 1) * STRIDE)).
    + assert (¬ n * STRIDE < elements) as H1 by (rewrite Hn; lia).
      assert ((n - 1) * STRIDE < elements) as H2 by (apply Hn; lia).
      nia.
    + assert ((n - 1) * STRIDE < elements) as H2 by (apply Hn; lia). lia.
Qed.

Lemma random_access_pattern_frame_witness :
  ∃ r a',
    dcache_contention_workload.random_access_pattern 2 2 40 [1; 2; 3; 4; 5; 6]%Z
      = Some (r, a') ∧
    length a' = 6 ∧
    (∀ k, k `mod` 2 ≠ 0 ∨ Z.to_nat (40 / sizeof_uint64) ≤ k →
          a' !! k = [1; 2; 3; 4; 5; 6]%Z !! k) ∧
    (0 < 2 → 0 < Z.to_nat (40 / sizeof_uint64) →
     a' !! ((Z.to_nat (40 / sizeof_uint64) - 1) `div` 2 * 2) = Some r).
Proof.
  apply (random_access_pattern_frame 2 2 40 [1; 2; 3; 4; 5; 6]%Z); [lia |].
  vm_compute. lia.
Defined.

(** ** The matrix kernels on any output matrix, and the hinted kernels *)

Lemma for_each_fst {Σ Λ : Type} (lo hi : nat)
    (body : nat → Σ → Σ) (body' : nat → Σ * Λ → Σ * Λ) (s : Σ * Λ) :
  (∀ i s, (body' i s).1 = body i s.1) →
  (matrix_prefetch.for_each lo hi body' s).1 = matrix_prefetch.for_each lo hi body s.1.
Proof.
  intros Hbody. unfold matrix_prefetch.for_each. revert s.
  induction (seq lo (hi - lo)) as [|i l IH]; intros s; [done |].
  cbn. by rewrite IH, Hbody.
Qed.

Lemma for_stride_fst {Σ Λ : Type} (fuel from bound stride : nat)
    (body : nat → Σ → Σ) (body' : nat → Σ * Λ → Σ * Λ) (s : Σ * Λ) :
  (∀ i s, (body' i s).1 = body i s.1) →
  (matrix_prefetch.for_stride fuel from bound stride body' s).1
  = matrix_prefetch.for_stride fuel from bound stride body s.1.
Proof.
  intros Hbody. revert from s.
  induction fuel as [|fuel IH]; intros from s; [done |].
  cbn. case_decide; [| done]. by rewrite IH, Hbody.
Qed.

Lemma for_each_keeps {Σ : Type} (P : Σ → Prop) (lo hi : nat)
    (body : nat → Σ → Σ) (s : Σ) :
  (∀ i s, lo ≤ i < hi → P s → P (body i s)) →
  P s → P (matrix_prefetch.for_each lo hi body s).
Proof.
  intros Hbody. unfold matrix_prefetch.for_each.
  assert (Forall (λ i, lo ≤ i < hi) (seq lo (hi - lo))) as Hseq
    by (apply Forall_seq; lia).
  revert s. induction Hseq as [|i l Hi _ IH]; intros s Hs; [done |].
  cbn. apply IH. by apply Hbody.
Qed.

Lemma for_stride_keeps {Σ : Type} (P : Σ → Prop) (fuel from bound stride : nat)
    (body : nat → Σ → Σ) (s : Σ) :
  (∀ i s, i < bound → P s → P (body i s)) →
  P s → P (matrix_prefetch.for_stride fuel from bound stride body s).
Proof.
  intros Hbody. revert from s.
  induction fuel as [|fuel IH]; intros from s Hs; [done |].
  cbn. case_decide; [| done]. apply IH. by apply Hbody.
Qed.

Lemma in_matrix_prefetch (N : nat) (M : matrix_prefetch.operand) (idx : nat)
    (log : list (matrix_prefetch.operand * nat)) :
  idx < N * N → matrix_prefetch.in_matrix N log →
  matrix_prefetch.in_matrix N (matrix_prefetch.prefetch M idx log).
Proof.
  intros Hidx Hlog. unfold matrix_prefetch.in_matrix, matrix_prefetch.prefetch.
  apply Forall_app. split; [done |]. by apply Forall_singleton.
Qed.

Section MatmulKernels.
Context {F : Type}.
Variable fadd fmul : F → F → F.
Variable fzero : F.
Variable N BLOCK_SIZE : nat.
Variable A B : list F.

Lemma matmul_prefetch_fst (s : list F * list (matrix_prefetch.operand * nat)) :
  (matrix_prefetch.matmul_prefetch fadd fmul fzero N A B s).1
  = matrix_prefetch.matmul_naive fadd fmul fzero N A B s.1.
Proof.
  unfold matrix_prefetch.matmul_prefetch, matrix_prefetch.matmul_naive.
  apply for_each_fst. intros i s1. apply for_each_fst. intros j [C log].
  cbn [fst].
  match goal with
  | |- (let '(sum, log) := ?loop in _).1 = _ =>
      pose proof (for_each_fst 0 N
        (λ k sum, fadd sum (fmul (matrix_prefetch.get fzero A (i * N + k))
                                (matrix_prefetch.get fzero B (k * N + j))))
        (λ k s, let '(sum, log) := s in
                let log := if decide (k + 8 < N)
                           then matrix_prefetch.prefetch matrix_prefetch.OperandB
                                  ((k + 8) * N + j) log
                           else log in
                (fadd sum (fmul (matrix_prefetch.get fzero A (i * N + k))
                                (matrix_prefetch.get fzero B (k * N + j))), log))
        (fzero, if decide (j = 0 ∧ i + 1 < N)
                then matrix_prefetch.for_stride N 0 N 8 (λ p log,
                       matrix_prefetch.prefetch matrix_prefetch.OperandA
                         ((i + 1) * N + p) log) log
                else log)
        ltac:(by intros k [sum l])) as Hsum;
      destruct loop as [sum log'] eqn:Hloop
  end.
  cbn [fst] in *. by rewrite <- Hsum.
Qed.

Lemma matmul_prefetch_in_matrix (s : list F * list (matrix_prefetch.operand * nat)) :
  matrix_prefetch.in_matrix N s.2 →
  matrix_prefetch.in_matrix N (matrix_prefetch.matmul_prefetch fadd fmul fzero N A B s).2.
Proof.
  unfold matrix_prefetch.matmul_prefetch.
  apply (for_each_keeps (λ s, matrix_prefetch.in_matrix N s.2)). intros i s1 Hi.
  apply (for_each_keeps (λ s, matrix_prefetch.in_matrix N s.2)). intros j [C log] Hj Hlog.
  cbn [snd] in Hlog.
  match goal with
  | |- matrix_prefetch.in_matrix N (let '(sum, log) := ?loop in _).2 =>
      assert (matrix_prefetch.in_matrix N loop.2) as Hloop;
      [| by destruct loop]
  end.
  apply (for_each_keeps (λ s, matrix_prefetch.in_matrix N s.2)).
  - intros k [sum l] Hk Hl. cbn [snd] in *. case_decide; [| done].
    apply in_matrix_prefetch; [nia | done].
  - cbn [snd]. case_decide as Hrow; [| done].
    apply (for_stride_keeps (matrix_prefetch.in_matrix N)); [| done].
    intros p l Hp Hl. apply in_matrix_prefetch; [nia | done].
Qed.

Lemma matmul_blocked_prefetch_fst (s : list F * list (matrix_prefetch.operand * nat)) :
  (matrix_prefetch.matmul_blocked_prefetch fadd fmul fzero N BLOCK_SIZE A B s).1
  = matrix_prefetch.matmul_blocked fadd fmul fzero N BLOCK_SIZE A B s.1.
Proof.
  unfold matrix_prefetch.matmul_blocked_prefetch, matrix_prefetch.matmul_blocked.
  apply for_stride_fst. intros ii s1. apply for_stride_fst. intros jj [C log].
  cbn [fst]. rewrite (for_stride_fst _ _ _ _
    (λ kk C,
       matrix_prefetch.for_each ii ((ii + BLOCK_SIZE) `min` N) (λ i C,
         matrix_prefetch.for_each jj ((jj + BLOCK_SIZE) `min` N) (λ j C,
           let sum :=
             matrix_prefetch.for_each kk ((kk + BLOCK_SIZE) `min` N) (λ k sum,
               fadd sum (fmul (matrix_prefetch.get fzero A (i * N + k))
                              (matrix_prefetch.get fzero B (k * N + j))))
               (matrix_prefetch.get fzero C (i * N + j)) in
           <[i * N + j := sum]> C) C) C)); [done |].
  by intros kk [C' log'].
Qed.

Lemma matmul_blocked_prefetch_in_matrix
    (s : list F * list (matrix_prefetch.operand * nat)) :
  matrix_prefetch.in_matrix N s.2 →
  matrix_prefetch.in_matrix N
    (matrix_prefetch.matmul_blocked_prefetch fadd fmul fzero N BLOCK_SIZE A B s).2.
Proof.
  unfold matrix_prefetch.matmul_blocked_prefetch.
  apply (for_stride_keeps (λ s, matrix_prefetch.in_matrix N s.2)). intros ii s1 Hii.
  apply (for_stride_keeps (λ s, matrix_prefetch.in_matrix N s.2)).
  intros jj [C log] Hjj Hlog. cbn [snd] in Hlog.
  apply (for_stride_keeps (λ s, matrix_prefetch.in_matrix N s.2)).
  - intros kk [C' log'] Hkk Hlog'. cbn [snd] in *. case_decide as Hnext; [| done].
    apply (for_each_keeps (matrix_prefetch.in_matrix N)); [| done].
    intros p l Hp Hl. apply in_matrix_prefetch; [nia | done].
  - cbn [snd]. case_decide as Hnext; [| done].
    apply (for_each_keeps (matrix_prefetch.in_matrix N)); [| done].
    intros p l Hp Hl. apply in_matrix_prefetch; [nia | done].
Qed.

End MatmulKernels.

(** X13: [matmul_naive] overwrites [C]: the matrix it leaves does not depend
    on what [C] held before, and its element [i][j] is the
    multiply-accumulate chain over row [i] of [A] and column [j] of [B]
    started at [+0.0]. *)
Theorem matmul_naive_overwrites
    {F : Type} (fadd fmul : F → F → F) (fzero : F) (N : nat) (A B C C' : list F) :
  length C = N * N → length C' = N * N →
  matrix_prefetch.matmul_naive fadd fmul fzero N A B C
  = matrix_prefetch.matmul_naive fadd fmul fzero N A B C' ∧
  ∀ i j, i < N → j < N →
    matrix_prefetch.cell fzero N
      (matrix_prefetch.matmul_naive fadd fmul fzero N A B C) i j
    = matrix_prefetch.dot fadd fmul fzero N A B i j 0 N fzero.
Proof.
  intros Hlen Hlen'.
  destruct (matmul_naive_acts fadd fmul fzero N 1 Nat.lt_0_1 A B C Hlen) as [Hl Hcell].
  destruct (matmul_naive_acts fadd fmul fzero N 1 Nat.lt_0_1 A B C' Hlen')
    as [Hl' Hcell'].
  assert (∀ i j, i < N → j < N →
            matrix_prefetch.cell fzero N
              (matrix_prefetch.matmul_naive fadd fmul fzero N A B C) i j
            = matrix_prefetch.dot fadd fmul fzero N A B i j 0 N fzero) as Hdot.
  { intros i j Hi Hj. destruct (Hcell i j Hi Hj) as [Hin _].
    apply Hin. unfold matrix_prefetch.rect. lia. }
  split; [| exact Hdot].
  apply (cells_eq fzero N 1 Nat.lt_0_1); [done.. |]. intros i j Hi Hj.
  rewrite Hdot by done. destruct (Hcell' i j Hi Hj) as [Hin _].
  symmetry. apply Hin. unfold matrix_prefetch.rect. lia.
Qed.

Lemma matmul_naive_overwrites_witness :
  matrix_prefetch.matmul_naive Z.add Z.mul 0%Z 2
    [1; 2; 3; 4]%Z [1; 0; 0; 1]%Z [10; 20; 30; 40]%Z
  = matrix_prefetch.matmul_naive Z.add Z.mul 0%Z 2
      [1; 2; 3; 4]%Z [1; 0; 0; 1]%Z [0; 0; 0; 0]%Z ∧
  ∀ i j, i < 2 → j < 2 →
    matrix_prefetch.cell 0%Z 2
      (matrix_prefetch.matmul_naive Z.add Z.mul 0%Z 2
         [1; 2; 3; 4]%Z [1; 0; 0; 1]%Z [10; 20; 30; 40]%Z) i j
    = matrix_prefetch.dot Z.add Z.mul 0%Z 2 [1; 2; 3; 4]%Z [1; 0; 0; 1]%Z i j 0 2 0%Z.
Proof.
  apply (matmul_naive_overwrites Z.add Z.mul 0%Z 2
           [1; 2; 3; 4]%Z [1; 0; 0; 1]%Z [10; 20; 30; 40]%Z [0; 0; 0; 0]%Z);
    reflexivity.
Defined.

(** X14: [matmul_blocked] accumulates onto [C]: element [i][j] of the matrix
    it leaves is the multiply-accumulate chain over all [k], in ascending
    order, started at the value [C[i][j]] held before.  Its result is the
    product only on a zeroed [C]. *)
Theorem matmul_blocked_accumulates
    {F : Type} (fadd fmul : F → F → F) (fzero : F) (N BLOCK_SIZE : nat)
    (A B C : list F) :
  0 < BLOCK_SIZE → length C = N * N →
  length (matrix_prefetch.matmul_blocked fadd fmul fzero N BLOCK_SIZE A B C) = N * N ∧
  ∀ i j, i < N → j < N →
    matrix_prefetch.cell fzero N
      (matrix_prefetch.matmul_blocked fadd fmul fzero N BLOCK_SIZE A B C) i j
    = matrix_prefetch.dot fadd fmul fzero N A B i j 0 N
        (matrix_prefetch.cell fzero N C i j).
Proof.
  intros Hpos Hlen.
  destruct (matmul_blocked_acts fadd fmul fzero N BLOCK_SIZE Hpos A B C Hlen)
    as [Hl Hcell].
  split; [exact Hl |]. intros i j Hi Hj. destruct (Hcell i j Hi Hj) as [Hin _].
  apply Hin. unfold matrix_prefetch.rect. lia.
Qed.

Lemma matmul_blocked_accumulates_witness :
  length (matrix_prefetch.matmul_blocked Z.add Z.mul 0%Z 2 1
            [1; 2; 3; 4]%Z [1; 0; 0; 1]%Z [10; 20; 30; 40]%Z) = 2 * 2 ∧
  ∀ i j, i < 2 → j < 2 →
    matrix_prefetch.cell 0%Z 2
      (matrix_prefetch.matmul_blocked Z.add Z.mul 0%Z 2 1
         [1; 2; 3; 4]%Z [1; 0; 0; 1]%Z [10; 20; 30; 40]%Z) i j
    = matrix_prefetch.dot Z.add Z.mul 0%Z 2 [1; 2; 3; 4]%Z [1; 0; 0; 1]%Z i j 0 2
        (matrix_prefetch.cell 0%Z 2 [10; 20; 30; 40]%Z i j).
Proof.
  apply (matmul_blocked_accumulates Z.add Z.mul 0%Z 2 1
           [1; 2; 3; 4]%Z [1; 0; 0; 1]%Z [10; 20; 30; 40]%Z); [lia | reflexivity].
Defined.

(** X15: [matmul_prefetch] leaves in [C] the matrix [matmul_naive] leaves,
    whatever [C] held, and every address it passes to a prefetch hint lies
    inside [A] or [B]. *)
Theorem matmul_prefetch_refines_naive
    {F : Type} (fadd fmul : F → F → F) (fzero : F) (N : nat) (A B C : list F) :
  length A = N * N → length B = N * N → length C = N * N →
  (matrix_prefetch.matmul_prefetch fadd fmul fzero N A B (C, [])).1
  = matrix_prefetch.matmul_naive fadd fmul fzero N A B C ∧
  matrix_prefetch.in_matrix N
    (matrix_prefetch.matmul_prefetch fadd fmul fzero N A B (C, [])).2.
Proof.
  intros _ _ _. split.
  - apply matmul_prefetch_fst.
  - apply matmul_prefetch_in_matrix. by apply Forall_nil.
Qed.

Lemma matmul_prefetch_refines_naive_witness :
  (matrix_prefetch.matmul_prefetch Z.add Z.mul 0%Z 2
     [1; 2; 3; 4]%Z [1; 0; 0; 1]%Z ([10; 20; 30; 40]%Z, [])).1
  = matrix_prefetch.matmul_naive Z.add Z.mul 0%Z 2
      [1; 2; 3; 4]%Z [1; 0; 0; 1]%Z [10; 20; 30; 40]%Z ∧
  matrix_prefetch.in_matrix 2
    (matrix_prefetch.matmul_prefetch Z.add Z.mul 0%Z 2
       [1; 2; 3; 4]%Z [1; 0; 0; 1]%Z ([10; 20; 30; 40]%Z, [])).2.
Proof.
  apply (matmul_prefetch_refines_naive Z.add Z.mul 0%Z 2
           [1; 2; 3; 4]%Z [1; 0; 0; 1]%Z [10; 20; 30; 40]%Z); reflexivity.
Defined.

(** X16: [matmul_blocked_prefetch] leaves in [C] the matrix [matmul_blocked]
    leaves, whatever [C] held, and every address it passes to a prefetch
    hint lies inside [A] or [B]. *)
Theorem matmul_blocked_prefetch_refines_blocked
    {F : Type} (fadd fmul : F → F → F) (fzero : F) (N BLOCK_SIZE : nat)
    (A B C : list F) :
  length A = N * N → length B = N * N → length C = N * N →
  (matrix_prefetch.matmul_blocked_prefetch fadd fmul fzero N BLOCK_SIZE A B (C, [])).1
  = matrix_prefetch.matmul_blocked fadd fmul fzero N BLOCK_SIZE A B C ∧
  matrix_prefetch.in_matrix N
    (matrix_prefetch.matmul_blocked_prefetch fadd fmul fzero N BLOCK_SIZE A B (C, [])).2.
Proof.
  intros _ _ _. split.
  - apply matmul_blocked_prefetch_fst.
  - apply matmul_blocked_prefetch_in_matrix. by apply Forall_nil.
Qed.

Lemma matmul_blocked_prefetch_refines_blocked_witness :
  (matrix_prefetch.matmul_blocked_prefetch Z.add Z.mul 0%Z 2 1
     [1; 2; 3; 4]%Z [1; 0; 0; 1]%Z ([10; 20; 30; 40]%Z, [])).1
  = matrix_prefetch.matmul_blocked Z.add Z.mul 0%Z 2 1
      [1; 2; 3; 4]%Z [1; 0; 0; 1]%Z [10; 20; 30; 40]%Z ∧
  matrix_prefetch.in_matrix 2
    (matrix_prefetch.matmul_blocked_prefetch Z.add Z.mul 0%Z 2 1
       [1; 2; 3; 4]%Z [1; 0; 0; 1]%Z ([10; 20; 30; 40]%Z, [])).2.
Proof.
  apply (matmul_blocked_prefetch_refines_blocked Z.add Z.mul 0%Z 2 1
           [1; 2; 3; 4]%Z [1; 0; 0; 1]%Z [10; 20; 30; 40]%Z); reflexivity.
Defined.

(** ** A refused binding in dcache_contention.c *)

(** A worker that has returned stays where it is, whoever moves. *)
Lemma step_keeps_aborted (N : nat) (checks_binding : bool)
    (s s' : barrier.state) (a : barrier.action) (j : nat) (w : barrier.worker) :
  barrier.step N checks_binding s a = Some s' →
  barrier.workers s !! j = Some w → barrier.pc w = barrier.WAbort →
  barrier.workers s' !! j = Some w.
Proof.
  intros Hstep Hw Hpc. destruct a as [|i ret]; cbn in Hstep.
  - unfold barrier.driver_step in Hstep.
    destruct (barrier.driver s) as [k| | |k|]; try done;
      repeat case_decide; try (by injection Hstep as <-).
    + injection Hstep as <-. cbn. by apply lookup_app_l_Some.
    + destruct (barrier.workers s !! k) as [wk|]; [| done].
      destruct (barrier.terminated wk); [| done]. by injection Hstep as <-.
  - destruct (barrier.workers s !! i) as [wi|] eqn:Hwi; [| done].
    destruct (barrier.worker_step checks_binding ret wi s) as [[w' rd]|] eqn:Hws;
      [| done].
    injection Hstep as <-. cbn. destruct (decide (i = j)) as [->|Hne].
    + rewrite Hw in Hwi. injection Hwi as <-.
      unfold barrier.worker_step in Hws. by rewrite Hpc in Hws.
    + by rewrite list_lookup_insert_ne.
Qed.

Lemma run_keeps_aborted (N : nat) (checks_binding : bool)
    (schedule : list barrier.action) (j : nat) (w : barrier.worker) :
  ∀ s s', barrier.run N checks_binding schedule s = Some s' →
          barrier.workers s !! j = Some w → barrier.pc w = barrier.WAbort →
          barrier.workers s' !! j = Some w.
Proof.
  induction schedule as [|a rest IH]; intros s s' Hrun Hw Hpc; cbn in Hrun.
  - by injection Hrun as <-.
  - destruct (barrier.step N checks_binding s a) as [s1|] eqn:Hstep; [| done].
    eapply IH; [exact Hrun | | done]. by eapply step_keeps_aborted.
Qed.

Lemma run_app (N : nat) (checks_binding : bool) (l1 l2 : list barrier.action) :
  ∀ s s1 s2, barrier.run N checks_binding l1 s = Some s1 →
             barrier.run N checks_binding l2 s1 = Some s2 →
             barrier.run N checks_binding (l1 ++ l2) s = Some s2.
Proof.
  induction l1 as [|a l1 IH]; intros s s1 s2 H1 H2; cbn in *.
  - by injection H1 as ->.
  - destruct (barrier.step N checks_binding s a) as [s'|]; [| done]. by eapply IH.
Qed.

(** X17: [worker_thread] of dcache_contention.c returns before the rendezvous
    when [bind_to_cpu] fails.  From then on, however the threads are
    scheduled, the driver never sets [start] and never completes, and no
    worker gets past its wait on [start]: the program does not terminate. *)
Theorem refused_binding_blocks_the_driver
    (N : nat) (before after : list barrier.action)
    (s1 s2 : barrier.state) (j : nat) (w : barrier.worker) :
  (Z.of_nat N < 2 ^ 31)%Z →
  barrier.run N true before barrier.init = Some s1 →
  barrier.workers s1 !! j = Some w → barrier.pc w = barrier.WAbort →
  barrier.run N true after s1 = Some s2 →
  barrier.start s2 = 0%Z ∧ barrier.releases s2 = 0 ∧
  barrier.driver s2 ≠ barrier.DDone ∧
  Forall (λ w', barrier.released w' = false) (barrier.workers s2).
Proof.
  intros HN Hbefore Hw Hpc Hafter.
  pose proof (run_keeps_aborted _ _ _ _ _ _ _ Hafter Hw Hpc) as Hw2.
  pose proof (run_app _ _ _ _ _ _ _ Hbefore Hafter) as Hrun.
  destruct (aborted_worker_blocks_release N true _ _ j w HN Hrun Hw2 Hpc)
    as [Hstart Hrel].
  pose proof (run_inv N true HN _ _ _ Hrun (init_inv N true))
    as (_ & _ & Hdrv & Hws).
  split; [done |]. split; [done |]. split.
  - intros Hdone. unfold barrier.driver_inv in Hdrv. rewrite Hdone in Hdrv.
    destruct Hdrv as (_ & Hone & _). lia.
  - eapply Forall_impl; [exact Hws |]. intros w' (_ & _ & Hreleased & _).
    destruct (barrier.released w'); [| done].
    specialize (Hreleased eq_refl). lia.
Qed.

Lemma refused_binding_blocks_the_driver_witness :
  ∃ s1 s2,
    barrier.run 2 true (take 4 barrier.refused_binding_schedule) barrier.init
      = Some s1 ∧
    barrier.run 2 true
      [barrier.Worker 0 0; barrier.Driver; barrier.Driver;
       barrier.Worker 0 0; barrier.Driver] s1 = Some s2 ∧
    barrier.start s2 = 0%Z ∧ barrier.releases s2 = 0 ∧
    barrier.driver s2 = barrier.DPoll ∧
    Forall (λ w', barrier.released w' = false) (barrier.workers s2).
Proof.
  eexists _, _. split; [vm_compute; reflexivity |].
  split; [vm_compute; reflexivity |].
  destruct (refused_binding_blocks_the_driver 2
              (take 4 barrier.refused_binding_schedule)
              [barrier.Worker 0 0; barrier.Driver; barrier.Driver;
               barrier.Worker 0 0; barrier.Driver]
              _ _ 1 _ ltac:(lia) ltac:(vm_compute; reflexivity)
              ltac:(reflexivity) ltac:(reflexivity)
              ltac:(vm_compute; reflexivity))
    as (Hstart & Hrel & _ & Hws).
  split; [exact Hstart |]. split; [exact Hrel |]. split; [reflexivity | exact Hws].
Defined.

(** ** The harness of combined_test.c *)


(** ** prefetch_distance.c from [main] on *)

(** X21: [main] of prefetch_distance.c stores [array[i] = i] and generates
    the index buffer from the seed 54321.  On that memory every distance
    [main] tests gives the same checksum: the sum, modulo 2^64, of the first
    [ACCESS_COUNT] generated indices. *)
Theorem prefetch_distance_checksums_agree
    (ARRAY_SIZE : Z) (ACCESS_COUNT : nat) (m : random_prefetch.mem) :
  (0 < prefetch_distance_mem.elements ARRAY_SIZE)%Z →
  prefetch_distance_mem.allocated ARRAY_SIZE ACCESS_COUNT m →
  ∃ g,
    prefetch_distance_mem.init ARRAY_SIZE ACCESS_COUNT m = Some ((), g) ∧
    Forall (λ distance,
              prefetch_distance_mem.random_access_with_distance ACCESS_COUNT distance g
              = Some (wrap64 (Zsum (lcg_indices (prefetch_distance_mem.elements ARRAY_SIZE)
                                      ACCESS_COUNT 54321)), g))
      prefetch_distance_mem.distances.
Proof.
  intros Hel [Harr Hidx]. unfold prefetch_distance_mem.init.
  pose proof (store_array_loop_spec _ m Harr) as Hstore.
  rewrite (bind_Some _ _ _ _ _ Hstore).
  unfold prefetch_distance_mem.generate_indices.
  destruct (generate_loop_spec (prefetch_distance_mem.elements ARRAY_SIZE)
              (ACCESS_COUNT + 256) 0 54321
              (random_prefetch.Mem
                 (identity_array (Z.to_nat (prefetch_distance_mem.elements ARRAY_SIZE)))
                 (random_prefetch.indices m)))
    as [seed' Hgen]; [cbn [random_prefetch.indices]; lia |].
  rewrite (bind_Some _ _ _ _ _ Hgen).
  pose (g := random_prefetch.Mem
               (identity_array (Z.to_nat (prefetch_distance_mem.elements ARRAY_SIZE)))
               (lcg_indices (prefetch_distance_mem.elements ARRAY_SIZE)
                  (ACCESS_COUNT + 256) 54321
                ++ drop (ACCESS_COUNT + 256) (random_prefetch.indices m))).
  exists g. split; [reflexivity |].
  assert (length (random_prefetch.indices g) = ACCESS_COUNT + 256) as Hlen.
  { unfold g. cbn [random_prefetch.indices].
    rewrite length_app, lcg_indices_length, length_drop. lia. }
  assert (prefetch_distance_mem.random_access_with_distance ACCESS_COUNT 0 g
          = Some (wrap64 (Zsum (lcg_indices (prefetch_distance_mem.elements ARRAY_SIZE)
                                  ACCESS_COUNT 54321)), g)) as Hbase.
  { etrans; [| etrans; [apply (random_no_prefetch_sum ACCESS_COUNT g wrap64) |]].
    - unfold prefetch_distance_mem.random_access_with_distance,
        random_prefetch.random_no_prefetch.
      apply for_up_ext. intros i b τ. reflexivity.
    - lia.
    - unfold g. cbn [random_prefetch.indices random_prefetch.array].
      intros i idx Hi Hlook.
      rewrite lookup_app_l in Hlook by (rewrite lcg_indices_length; lia).
      apply lcg_indices_bound in Hlook; [| done].
      rewrite identity_array_lookup by lia. by rewrite Z2Nat.id by lia.
    - unfold g. cbn [random_prefetch.indices]. f_equal. f_equal.
      rewrite take_app_le by (rewrite lcg_indices_length; lia).
      rewrite Zsum_wrap64_map. f_equal. f_equal.
      clear. generalize 256. generalize 54321%Z.
      induction ACCESS_COUNT as [|n IH]; intros seed k; [done |].
      cbn. f_equal. apply IH. }
  assert (Forall (λ distance : Z, (distance ≤ 256)%Z) prefetch_distance_mem.distances)
    as Hdist by (repeat constructor; lia).
  eapply Forall_impl; [exact Hdist |]. intros distance Hd. cbn beta in Hd.
  rewrite distance_within_margin by (done || lia). exact Hbase.
Qed.

Lemma prefetch_distance_checksums_agree_witness :
  ∃ g,
    prefetch_distance_mem.init 64 3
      (random_prefetch.Mem (replicate 8 99%Z) (replicate 259 7%Z)) = Some ((), g) ∧
    Forall (λ distance,
              prefetch_distance_mem.random_access_with_distance 3 distance g
              = Some (wrap64 (Zsum (lcg_indices (prefetch_distance_mem.elements 64)
                                      3 54321)), g))
      prefetch_distance_mem.distances.
Proof.
  apply (prefetch_distance_checksums_agree 64 3
           (random_prefetch.Mem (replicate 8 99%Z) (replicate 259 7%Z))).
  - reflexivity.
  - split; reflexivity.
Defined.

(** ** The CPU pairs of cpu_bindind.h *)

(** X23: [bind_to_same_core_ht] never reads outside [HT_PAIRS].  For a core
    from 0 to 7 it stores the CPUs [core_id] and [core_id + 8] and prints
    nothing; for any other [core_id] it prints the diagnostic and leaves
    [*cpu1] and [*cpu2] as they were. *)
Theorem bind_to_same_core_ht_pairs (core_id cpu1 cpu2 : Z) :
  cpu_binding.bind_to_same_core_ht core_id cpu1 cpu2
  = if decide (0 ≤ core_id ≤ 7)%Z
    then Some (core_id, (core_id + 8)%Z, false)
    else Some (cpu1, cpu2, true).
Proof.
  unfold cpu_binding.bind_to_same_core_ht.
  destruct (decide (0 ≤ core_id ≤ 7)%Z) as [Hin|Hout].
  - rewrite decide_False by lia.
    assert (core_id = 0 ∨ core_id = 1 ∨ core_id = 2 ∨ core_id = 3 ∨
            core_id = 4 ∨ core_id = 5 ∨ core_id = 6 ∨ core_id = 7)%Z
      as Hcases by lia.
    destruct Hcases as [->|[->|[->|[->|[->|[->|[->| ->]]]]]]]; reflexivity.
  - by rewrite decide_True by lia.
Qed.

(** ** The counters of false_sharing.c under any interleaving *)

Section Counters.
Import false_sharing_counters.
Variable NUM_THREADS ITERATIONS : nat.
Variable use_good : bool.

Local Abbreviation counters_inv := (inv NUM_THREADS ITERATIONS use_good).

Lemma counters_inv_init : counters_inv (init NUM_THREADS).
Proof.
  unfold inv, init, counters, untouched.
  destruct use_good; cbn [bad good threads]; rewrite !length_replicate;
    (split_and!; [done | done | done |]);
    intros id t [-> Hid]%lookup_replicate; cbn [i pc];
    (split_and!; [lia | | done]); by apply lookup_replicate_2.
Qed.

Lemma counters_set_counter (s : state) (id : nat) (v : Z) (ts : list thread) :
  counters use_good (set_counter use_good s id v ts) = <[id:=v]> (counters use_good s) ∧
  untouched use_good (set_counter use_good s id v ts) = untouched use_good s ∧
  threads (set_counter use_good s id v ts) = ts.
Proof. unfold counters, untouched, set_counter. by destruct use_good. Qed.

Lemma step_counters_inv (s s' : state) (id : nat) :
  step ITERATIONS use_good s id = Some s' → counters_inv s → counters_inv s'.
Proof.
  unfold step. intros Hstep (Hlc & Hlt & Hun & Hts).
  destruct (threads s !! id) as [t|] eqn:Ht; [| done].
  destruct (Hts id t Ht) as (Hle & Hc & Hpc).
  case_decide as Hlt'; [| done]. destruct (pc t) as [|reg] eqn:Hpct.
  - rewrite Hc in Hstep. injection Hstep as <-.
    unfold inv, counters, untouched in *. cbn [bad good threads].
    split_and!; [done | by rewrite length_insert | done |].
    intros id' t' Ht'. destruct (decide (id = id')) as [<-|Hne].
    + rewrite list_lookup_insert_eq in Ht' by (by eapply lookup_lt_Some).
      injection Ht' as <-. cbn [i pc]. by split_and!.
    + rewrite list_lookup_insert_ne in Ht' by done. by apply Hts.
  - case_decide as Hid; [| done]. injection Hstep as <-.
    destruct (counters_set_counter s id (add64 reg 1)
                (<[id:=Thread (S (i t)) TLoad]> (threads s))) as (Hc' & Hu' & Ht').
    unfold inv. rewrite Hc', Hu', Ht', !length_insert.
    split_and!; [done | done | done |].
    intros id' t' Hlook. destruct (decide (id = id')) as [<-|Hne].
    + rewrite list_lookup_insert_eq in Hlook by (by eapply lookup_lt_Some).
      injection Hlook as <-. cbn [i pc]. split_and!; [lia | | done].
      rewrite list_lookup_insert_eq by done. f_equal.
      rewrite Hpc, add64_wrap_l. f_equal. lia.
    + rewrite list_lookup_insert_ne in Hlook by done.
      rewrite list_lookup_insert_ne by done. by apply Hts.
Qed.

Lemma run_counters_inv (schedule : list nat) :
  ∀ s s', run ITERATIONS use_good schedule s = Some s' →
          counters_inv s → counters_inv s'.
Proof.
  induction schedule as [|id rest IH]; intros s s' Hrun Hinv; cbn in Hrun.
  - by injection Hrun as <-.
  - destruct (step ITERATIONS use_good s id) as [s1|] eqn:Hstep; [| done].
    eapply IH; [exact Hrun |]. by eapply step_counters_inv.
Qed.

End Counters.

(** X22: in a run of [run_test] of false_sharing.c, however the accesses of
    the workers interleave, each counter holds the number of increments its
    own worker has completed, and the structure the run does not use stays
    zero.  When every worker has finished its loop, every counter is
    [ITERATIONS], with either layout. *)
Theorem counters_count_own_increments
    (NUM_THREADS ITERATIONS : nat) (use_good : bool) (schedule : list nat)
    (s : false_sharing_counters.state) :
  false_sharing_counters.run ITERATIONS use_good schedule
    (false_sharing_counters.init NUM_THREADS) = Some s →
  (∀ id t, false_sharing_counters.threads s !! id = Some t →
           false_sharing_counters.counters use_good s !! id
           = Some (wrap64 (Z.of_nat (false_sharing_counters.i t)))) ∧
  false_sharing_counters.untouched use_good s = replicate NUM_THREADS 0%Z ∧
  (Forall (λ t, false_sharing_counters.i t = ITERATIONS)
     (false_sharing_counters.threads s) →
   false_sharing_counters.counters use_good s
   = replicate NUM_THREADS (wrap64 (Z.of_nat ITERATIONS))).
Proof.
  intros Hrun.
  pose proof (run_counters_inv NUM_THREADS ITERATIONS use_good schedule _ _ Hrun
                (counters_inv_init NUM_THREADS ITERATIONS use_good))
    as (Hlc & Hlt & Hun & Hts).
  split_and!; [| done |].
  - intros id t Ht. by destruct (Hts id t Ht) as (_ & Hc & _).
  - intros Hdone. apply list_eq_same_length with NUM_THREADS;
      [by rewrite length_replicate | done |].
    intros id x y Hid Hx [-> _]%lookup_replicate.
    destruct (lookup_lt_is_Some_2 (false_sharing_counters.threads s) id)
      as [t Ht]; [lia |].
    destruct (Hts id t Ht) as (_ & Hc & _).
    rewrite Hc in Hx. injection Hx as <-.
    eapply Forall_lookup_1 in Hdone; [| exact Ht]. cbn beta in Hdone.
    by rewrite Hdone.
Qed.

Lemma counters_count_own_increments_witness :
  ∃ s,
    false_sharing_counters.run 2 false [0; 1; 1; 0; 0; 1; 1; 0]
      (false_sharing_counters.init 2) = Some s ∧
    false_sharing_counters.bad s = [2; 2]%Z ∧
    false_sharing_counters.good s = [0; 0]%Z.
Proof.
  eexists. split; [vm_compute; reflexivity |].
  destruct (counters_count_own_increments 2 2 false [0; 1; 1; 0; 0; 1; 1; 0] _
              ltac:(vm_compute; reflexivity)) as (_ & Hgood & Hbad).
  split; [| exact Hgood]. apply Hbad. repeat constructor.
Defined.
